(** * TrenchBroom (Polyhedron fork): the brush node wrapper and the cell layout

    A shallow embedding of [common/src/Model/BrushNode.cpp] and of the row
    logic of [common/src/View/CellLayout.cpp].

    - [Model]: the owning node of a brush.  Nodes live in a store indexed by
      their address; methods are computations in a small state-and-exception
      monad whose state is the store together with the log of notifications.
      The brush kernel itself ([Brush], [BrushFace], the vecmath routines) is
      not part of these files, so its operations are the fields of the
      interface [BrushKernel].
    - [BrushOwnership]: the same node with the faces of its brush as
      objects of their own, reached through their addresses, for what the
      node owns and what a clone shares.
    - [View]: [LayoutCell] and [LayoutRow] over an abstract scalar type. *)

From Stdlib Require Import ZArith List Bool Lia Floats String.
From stdpp Require Import base option list gmap.

Set Default Proof Using "Type".
Local Open Scope Z_scope.

Module Model.

(** ** Values of the vecmath library *)

Definition FloatType : Type := float.

Record vec3 : Type := mkVec3 { vx : FloatType; vy : FloatType; vz : FloatType }.
Record bbox3 : Type := mkBBox3 { bbox_min : vec3; bbox_max : vec3 }.
Record ray3 : Type := mkRay3 { ray_origin : vec3; ray_direction : vec3 }.
Record plane3 : Type := mkPlane3 { plane_distance : FloatType; plane_normal : vec3 }.
Record segment3 : Type := mkSegment3 { seg_start : vec3; seg_end : vec3 }.
Record polygon3 : Type := mkPolygon3 { poly_vertices : list vec3 }.
Record mat4x4 : Type := mkMat4x4 { mat_entries : list FloatType }.

(** [vm::is_nan] *)
Definition is_nan (f : FloatType) : bool := PrimFloat.is_nan f.

(** ** Nodes, faces and brushes *)

(** The address of a node object ([BrushNode*], [Node*]). *)
Definition NodeId : Type := positive.

(** A face object, reached through a [BrushFace*]: [face_name] tells the
    faces of a brush apart, and [face_tagMask] is the [m_tagMask] of the
    [Taggable] base, of type [TagType::Type]. *)
Record BrushFace : Type := mkBrushFace {
  face_name : positive;
  face_tagMask : Z
}.

Record BrushVertex : Type := mkBrushVertex { vertex_position : vec3 }.
Record BrushEdge : Type := mkBrushEdge { edge_segment : segment3 }.

(** The brush: its back-pointer [m_node], its ordered faces and the
    boundary representation derived from them. *)
Record Brush : Type := mkBrush {
  m_node : option NodeId;
  m_faces : list BrushFace;
  m_vertices : list BrushVertex;
  m_edges : list BrushEdge;
  m_bounds : bbox3
}.

(** Modelled from the spec: [Brush::setNode] is not in these files; the
    brush's back-pointer is made to refer to the given node. *)
Definition Brush_setNode (node : NodeId) (b : Brush) : Brush :=
  {| m_node := Some node; m_faces := m_faces b; m_vertices := m_vertices b;
     m_edges := m_edges b; m_bounds := m_bounds b |}.

(** What a call can end in: a normal return or a thrown exception. *)
Inductive Exn : Type := GeometryException | AssertionFailed.

Inductive Outcome (A : Type) : Type :=
| Ok (a : A)
| Throw (e : Exn).
Arguments Ok {A} a.
Arguments Throw {A} e.

Definition size_t : Type := Z.

(** The in-place operations of [Brush] that the node wrapper calls, each
    with its arguments and indexed by its return type. *)
Inductive BrushMutation : Type -> Type :=
| Brush_setFaces (worldBounds : bbox3) (faces : list BrushFace) : BrushMutation unit
| Brush_moveVertices (worldBounds : bbox3) (vertexPositions : list vec3)
    (delta : vec3) (uvLock : bool) : BrushMutation (list vec3)
| Brush_addVertex (worldBounds : bbox3) (position : vec3) : BrushMutation BrushVertex
| Brush_removeVertices (worldBounds : bbox3) (vertexPositions : list vec3) : BrushMutation unit
| Brush_snapVertices (worldBounds : bbox3) (snapToF : FloatType) (uvLock : bool) : BrushMutation unit
| Brush_moveEdges (worldBounds : bbox3) (edgePositions : list segment3)
    (delta : vec3) (uvLock : bool) : BrushMutation (list segment3)
| Brush_moveFaces (worldBounds : bbox3) (facePositions : list polygon3)
    (delta : vec3) (uvLock : bool) : BrushMutation (list polygon3)
| Brush_intersect (worldBounds : bbox3) (brush : Brush) : BrushMutation unit
| Brush_findIntegerPlanePoints (worldBounds : bbox3) : BrushMutation unit
| Brush_transform (transformation : mat4x4) (lockTextures : bool)
    (worldBounds : bbox3) : BrushMutation unit
| Brush_cloneFaceAttributesFrom (brush : Brush) : BrushMutation unit
| Brush_cloneInvertedFaceAttributesFrom (brush : Brush) : BrushMutation unit.

(** The [const] member functions of [Brush] that the node wrapper calls. *)
Inductive BrushQuery : Type -> Type :=
| Brush_findFace_textureName (textureName : string) : BrushQuery (option BrushFace)
| Brush_findFace_normal (normal : vec3) : BrushQuery (option BrushFace)
| Brush_findFace_boundary (boundary : plane3) : BrushQuery (option BrushFace)
| Brush_findFace_vertices (vertices : polygon3) (epsilon : FloatType) : BrushQuery (option BrushFace)
| Brush_findFace_candidates (candidates : list polygon3) (epsilon : FloatType)
    : BrushQuery (option BrushFace)
| Brush_faceCount : BrushQuery size_t
| Brush_closed : BrushQuery bool
| Brush_fullySpecified : BrushQuery bool
| Brush_vertexCount : BrushQuery size_t
| Brush_vertexPositions : BrushQuery (list vec3)
| Brush_hasVertex (position : vec3) (epsilon : FloatType) : BrushQuery bool
| Brush_findClosestVertexPosition (position : vec3) : BrushQuery vec3
| Brush_hasEdge (edge : segment3) (epsilon : FloatType) : BrushQuery bool
| Brush_hasFace (face : polygon3) (epsilon : FloatType) : BrushQuery bool
| Brush_hasFace3 (p1 p2 p3 : vec3) (epsilon : FloatType) : BrushQuery bool
| Brush_hasFace4 (p1 p2 p3 p4 : vec3) (epsilon : FloatType) : BrushQuery bool
| Brush_hasFace5 (p1 p2 p3 p4 p5 : vec3) (epsilon : FloatType) : BrushQuery bool
| Brush_edgeCount : BrushQuery size_t
| Brush_containsPoint (point : vec3) : BrushQuery bool
| Brush_incidentFaces (vertex : BrushVertex) : BrushQuery (list BrushFace)
| Brush_canMoveVertices (worldBounds : bbox3) (vertices : list vec3) (delta : vec3)
    : BrushQuery bool
| Brush_canAddVertex (worldBounds : bbox3) (position : vec3) : BrushQuery bool
| Brush_canRemoveVertices (worldBounds : bbox3) (vertexPositions : list vec3) : BrushQuery bool
| Brush_canSnapVertices (worldBounds : bbox3) (snapToF : FloatType) : BrushQuery bool
| Brush_canMoveEdges (worldBounds : bbox3) (edgePositions : list segment3) (delta : vec3)
    : BrushQuery bool
| Brush_canMoveFaces (worldBounds : bbox3) (facePositions : list polygon3) (delta : vec3)
    : BrushQuery bool
| Brush_canTransform (transformation : mat4x4) (worldBounds : bbox3) : BrushQuery bool
| Brush_subtract (worldBounds : bbox3) (defaultTextureName : string)
    (subtrahends : list Brush) : BrushQuery (list Brush)
| Brush_contains_bounds (bounds : bbox3) : BrushQuery bool
| Brush_contains_brush (brush : Brush) : BrushQuery bool
| Brush_intersects_bounds (bounds : bbox3) : BrushQuery bool
| Brush_intersects_brush (brush : Brush) : BrushQuery bool.

(** The code this file is linked against: the brush kernel of [Brush.cpp],
    the [Taggable] base of a face, and the vecmath routines used for
    picking.  A mutation returns the brush as it is left behind, also when
    it throws. *)
Class BrushKernel : Type := {
  brush_mutate : forall A : Type, BrushMutation A -> Brush -> Brush * Outcome A;
  brush_query : forall A : Type, BrushQuery A -> Brush -> Outcome A;
  (** the number of bits of [TagType::Type] *)
  tagBits : N;
  face_hasAnyTag : BrushFace -> bool;
  face_hasTag : BrushFace -> Z -> bool;
  face_intersectWithRay : BrushFace -> ray3 -> FloatType;
  intersect_ray_bbox : ray3 -> bbox3 -> FloatType;
  point_at_distance : ray3 -> FloatType -> vec3
}.
Arguments brush_mutate {_ A} _ _.
Arguments brush_query {_ A} _ _.


(** ** The node object and the store *)

(** Modelled from the spec: [Renderer::BrushRendererBrushCache] is not in
    these files; the render-geometry cache is an explicit valid/dirty state,
    and invalidating it makes it dirty (doing so twice changes nothing
    more).  [m_issuesValid] stands for the issue cache of the [Node] base
    in the same way. *)
Record BrushNode : Type := mkBrushNode {
  m_brush : Brush;
  m_vertexCacheValid : bool;
  m_issuesValid : bool
}.

(** Modelled from the spec: the scoped guards [NotifyNodeChange] and
    [NotifyPhysicalBoundsChange] of the [Node] base are not in these files;
    each notifies when it is acquired (constructed) and when it is released
    (destroyed at scope exit). *)
Inductive Guard : Type := NodeChange | PhysicalBoundsChange.

Inductive Event : Type :=
| Acquire (g : Guard) (node : NodeId)
| Release (g : Guard) (node : NodeId)
(** the brush of [node] is written: a mutating call into [m_brush] or an
    assignment to it *)
| BrushWrite (node : NodeId).

Record World : Type := mkWorld {
  nodes : gmap NodeId BrushNode;
  log : list Event
}.

(** A method body: from a store to an outcome and the store left behind;
    [None] is a use of a pointer to no node, which gives a call no meaning. *)
Definition M (A : Type) : Type := World -> option (Outcome A * World).

Definition ret {A : Type} (a : A) : M A := fun w => Some (Ok a, w).

Definition bind {A B : Type} (m : M A) (k : A -> M B) : M B := fun w =>
  match m w with
  | None => None
  | Some (Ok a, w') => k a w'
  | Some (Throw e, w') => Some (Throw e, w')
  end.

Declare Scope node_scope.
Delimit Scope node_scope with node.
Notation "x <- m ;; k" := (bind m (fun x => k))
  (at level 100, m at next level, right associativity) : node_scope.
Notation "m ;; k" := (bind m (fun _ => k))
  (at level 100, right associativity) : node_scope.
Local Open Scope node_scope.

Definition throw {A : Type} (e : Exn) : M A := fun w => Some (Throw e, w).

Definition emit (ev : Event) (w : World) : World :=
  {| nodes := nodes w; log := log w ++ [ev] |}.

(** A local guard object: acquired where it is declared, released when the
    enclosing block is left, by a return or by an exception alike. *)
Definition scoped {A : Type} (g : Guard) (node : NodeId) (body : M A) : M A := fun w =>
  match body (emit (Acquire g node) w) with
  | None => None
  | Some (r, w') => Some (r, emit (Release g node) w')
  end.

(** [*node] *)
Definition deref (node : NodeId) : M BrushNode := fun w =>
  match nodes w !! node with
  | Some st => Some (Ok st, w)
  | None => None
  end.

Definition store (node : NodeId) (st : BrushNode) (w : World) : World :=
  {| nodes := <[node := st]> (nodes w); log := log w |}.

Definition with_brush (b : Brush) (st : BrushNode) : BrushNode :=
  {| m_brush := b; m_vertexCacheValid := m_vertexCacheValid st;
     m_issuesValid := m_issuesValid st |}.

Section Methods.
Context `{K : BrushKernel}.

(** [node->m_brush.op(...)] for a mutating [op] *)
Definition mutateBrush {A : Type} (node : NodeId) (op : BrushMutation A) : M A := fun w =>
  match nodes w !! node with
  | None => None
  | Some st =>
      let '(b, r) := brush_mutate op (m_brush st) in
      Some (r, store node (with_brush b st) (emit (BrushWrite node) w))
  end.

(** [node->m_brush.q(...)] for a [const] member function [q] *)
Definition queryBrush {A : Type} (node : NodeId) (q : BrushQuery A) : M A := fun w =>
  match nodes w !! node with
  | None => None
  | Some st => Some (brush_query q (m_brush st), w)
  end.

(** [node->m_brush = std::move(brush)] *)
Definition assignBrush (node : NodeId) (brush : Brush) : M unit := fun w =>
  match nodes w !! node with
  | None => None
  | Some st => Some (Ok tt, store node (with_brush brush st) (emit (BrushWrite node) w))
  end.

(** [node->m_brush.setNode(target)] *)
Definition setNode (node target : NodeId) : M unit := fun w =>
  match nodes w !! node with
  | None => None
  | Some st => Some (Ok tt, store node (with_brush (Brush_setNode target (m_brush st)) st) w)
  end.

(** [Node::invalidateIssues] *)
Definition invalidateIssues (this : NodeId) : M unit := fun w =>
  match nodes w !! this with
  | None => None
  | Some st =>
      Some (Ok tt, store this {| m_brush := m_brush st;
                                 m_vertexCacheValid := m_vertexCacheValid st;
                                 m_issuesValid := false |} w)
  end.

(** [BrushNode::invalidateVertexCache] *)
Definition invalidateVertexCache (this : NodeId) : M unit := fun w =>
  match nodes w !! this with
  | None => None
  | Some st =>
      Some (Ok tt, store this {| m_brush := m_brush st;
                                 m_vertexCacheValid := false;
                                 m_issuesValid := m_issuesValid st |} w)
  end.

(** [new BrushNode(brush)]: a node at a fresh address, owning [brush] with
    the back-pointer set, and a new, not yet valid, renderer cache. *)
Definition newBrushNode (brush : Brush) : M NodeId := fun w =>
  let this := fresh (dom (nodes w)) in
  Some (Ok this,
        store this {| m_brush := Brush_setNode this brush;
                      m_vertexCacheValid := false;
                      m_issuesValid := false |} w).

(** [BrushNode::brush] *)
Definition brush (this : NodeId) : M Brush :=
  st <- deref this ;; ret (m_brush st).

(** [BrushNode::setBrush] *)
Definition setBrush (this : NodeId) (brush : Brush) : M unit :=
  scoped NodeChange this
    (scoped PhysicalBoundsChange this
       (assignBrush this brush ;;
        setNode this this ;;
        invalidateIssues this ;;
        invalidateVertexCache this)).

(** [BrushNode::setFaces] *)
Definition setFaces (this : NodeId) (worldBounds : bbox3) (faces : list BrushFace) : M unit :=
  scoped NodeChange this
    (scoped PhysicalBoundsChange this
       (mutateBrush this (Brush_setFaces worldBounds faces) ;;
        invalidateIssues this ;;
        invalidateVertexCache this)).


(** The [const] accessors [faces], [vertices] and [edges] hand out the
    brush's own containers. *)
Definition faces (this : NodeId) : M (list BrushFace) :=
  st <- deref this ;; ret (m_faces (m_brush st)).

Definition vertices (this : NodeId) : M (list BrushVertex) :=
  st <- deref this ;; ret (m_vertices (m_brush st)).

Definition edges (this : NodeId) : M (list BrushEdge) :=
  st <- deref this ;; ret (m_edges (m_brush st)).

(** The remaining [const] member functions forward to the brush. *)
Definition findFace_textureName (this : NodeId) (textureName : string) :=
  queryBrush this (Brush_findFace_textureName textureName).
Definition findFace_normal (this : NodeId) (normal : vec3) :=
  queryBrush this (Brush_findFace_normal normal).
Definition findFace_boundary (this : NodeId) (boundary : plane3) :=
  queryBrush this (Brush_findFace_boundary boundary).
Definition findFace_vertices (this : NodeId) (vs : polygon3) (epsilon : FloatType) :=
  queryBrush this (Brush_findFace_vertices vs epsilon).
Definition findFace_candidates (this : NodeId) (cs : list polygon3) (epsilon : FloatType) :=
  queryBrush this (Brush_findFace_candidates cs epsilon).
Definition faceCount (this : NodeId) := queryBrush this Brush_faceCount.
Definition closed (this : NodeId) := queryBrush this Brush_closed.
Definition fullySpecified (this : NodeId) := queryBrush this Brush_fullySpecified.
Definition vertexCount (this : NodeId) := queryBrush this Brush_vertexCount.
Definition vertexPositions (this : NodeId) := queryBrush this Brush_vertexPositions.
Definition hasVertex (this : NodeId) (position : vec3) (epsilon : FloatType) :=
  queryBrush this (Brush_hasVertex position epsilon).
Definition findClosestVertexPosition (this : NodeId) (position : vec3) :=
  queryBrush this (Brush_findClosestVertexPosition position).
Definition hasEdge (this : NodeId) (edge : segment3) (epsilon : FloatType) :=
  queryBrush this (Brush_hasEdge edge epsilon).
Definition hasFace (this : NodeId) (face : polygon3) (epsilon : FloatType) :=
  queryBrush this (Brush_hasFace face epsilon).
Definition hasFace3 (this : NodeId) (p1 p2 p3 : vec3) (epsilon : FloatType) :=
  queryBrush this (Brush_hasFace3 p1 p2 p3 epsilon).
Definition hasFace4 (this : NodeId) (p1 p2 p3 p4 : vec3) (epsilon : FloatType) :=
  queryBrush this (Brush_hasFace4 p1 p2 p3 p4 epsilon).
Definition hasFace5 (this : NodeId) (p1 p2 p3 p4 p5 : vec3) (epsilon : FloatType) :=
  queryBrush this (Brush_hasFace5 p1 p2 p3 p4 p5 epsilon).
Definition edgeCount (this : NodeId) := queryBrush this Brush_edgeCount.
Definition containsPoint (this : NodeId) (point : vec3) :=
  queryBrush this (Brush_containsPoint point).
Definition incidentFaces (this : NodeId) (vertex : BrushVertex) :=
  queryBrush this (Brush_incidentFaces vertex).
Definition canMoveVertices (this : NodeId) (worldBounds : bbox3) (vs : list vec3) (delta : vec3) :=
  queryBrush this (Brush_canMoveVertices worldBounds vs delta).
Definition canAddVertex (this : NodeId) (worldBounds : bbox3) (position : vec3) :=
  queryBrush this (Brush_canAddVertex worldBounds position).
Definition canRemoveVertices (this : NodeId) (worldBounds : bbox3) (vs : list vec3) :=
  queryBrush this (Brush_canRemoveVertices worldBounds vs).
Definition canSnapVertices (this : NodeId) (worldBounds : bbox3) (snapToF : FloatType) :=
  queryBrush this (Brush_canSnapVertices worldBounds snapToF).
Definition canMoveEdges (this : NodeId) (worldBounds : bbox3) (es : list segment3) (delta : vec3) :=
  queryBrush this (Brush_canMoveEdges worldBounds es delta).
Definition canMoveFaces (this : NodeId) (worldBounds : bbox3) (fs : list polygon3) (delta : vec3) :=
  queryBrush this (Brush_canMoveFaces worldBounds fs delta).
Definition canTransform (this : NodeId) (transformation : mat4x4) (worldBounds : bbox3) :=
  queryBrush this (Brush_canTransform transformation worldBounds).

(** [BrushNode::moveVertices] *)
Definition moveVertices (this : NodeId) (worldBounds : bbox3)
    (vertexPositions : list vec3) (delta : vec3) (uvLock : bool) : M (list vec3) :=
  scoped NodeChange this
    (scoped PhysicalBoundsChange this
       (mutateBrush this (Brush_moveVertices worldBounds vertexPositions delta uvLock))).

(** [BrushNode::addVertex] *)
Definition addVertex (this : NodeId) (worldBounds : bbox3) (position : vec3) : M BrushVertex :=
  scoped NodeChange this
    (scoped PhysicalBoundsChange this
       (mutateBrush this (Brush_addVertex worldBounds position))).

(** [BrushNode::removeVertices] *)
Definition removeVertices (this : NodeId) (worldBounds : bbox3)
    (vertexPositions : list vec3) : M unit :=
  scoped NodeChange this
    (scoped PhysicalBoundsChange this
       (mutateBrush this (Brush_removeVertices worldBounds vertexPositions))).

(** [BrushNode::snapVertices] *)
Definition snapVertices (this : NodeId) (worldBounds : bbox3) (snapToF : FloatType)
    (uvLock : bool) : M unit :=
  scoped NodeChange this
    (scoped PhysicalBoundsChange this
       (mutateBrush this (Brush_snapVertices worldBounds snapToF uvLock))).

(** [BrushNode::moveEdges] *)
Definition moveEdges (this : NodeId) (worldBounds : bbox3)
    (edgePositions : list segment3) (delta : vec3) (uvLock : bool) : M (list segment3) :=
  scoped NodeChange this
    (scoped PhysicalBoundsChange this
       (mutateBrush this (Brush_moveEdges worldBounds edgePositions delta uvLock))).

(** [BrushNode::moveFaces] *)
Definition moveFaces (this : NodeId) (worldBounds : bbox3)
    (facePositions : list polygon3) (delta : vec3) (uvLock : bool) : M (list polygon3) :=
  scoped NodeChange this
    (scoped PhysicalBoundsChange this
       (mutateBrush this (Brush_moveFaces worldBounds facePositions delta uvLock))).

(** [BrushNode::intersect]; [brush->m_brush] is read when the call into
    the brush is made. *)
Definition intersect (this : NodeId) (worldBounds : bbox3) (brushNode : NodeId) : M unit :=
  scoped NodeChange this
    (scoped PhysicalBoundsChange this
       (other <- deref brushNode ;;
        mutateBrush this (Brush_intersect worldBounds (m_brush other)))).

(** [BrushNode::findIntegerPlanePoints] *)
Definition findIntegerPlanePoints (this : NodeId) (worldBounds : bbox3) : M unit :=
  scoped NodeChange this
    (scoped PhysicalBoundsChange this
       (mutateBrush this (Brush_findIntegerPlanePoints worldBounds))).

(** [BrushNode::doTransform], the body of the public [transform] *)
Definition doTransform (this : NodeId) (transformation : mat4x4) (lockTextures : bool)
    (worldBounds : bbox3) : M unit :=
  scoped NodeChange this
    (scoped PhysicalBoundsChange this
       (mutateBrush this (Brush_transform transformation lockTextures worldBounds))).

(** [BrushNode::cloneFaceAttributesFrom] for one node, and its inverted
    sibling *)
Definition cloneFaceAttributesFrom (this brushNode : NodeId) : M unit :=
  other <- deref brushNode ;;
  mutateBrush this (Brush_cloneFaceAttributesFrom (m_brush other)).

Definition cloneInvertedFaceAttributesFrom (this brushNode : NodeId) : M unit :=
  other <- deref brushNode ;;
  mutateBrush this (Brush_cloneInvertedFaceAttributesFrom (m_brush other)).

(** [kdl::vec_transform] with a function that runs in the store *)
Fixpoint vec_transform {A B : Type} (f : A -> M B) (v : list A) : M (list B) :=
  match v with
  | [] => ret []
  | x :: rest => y <- f x ;; ys <- vec_transform f rest ;; ret (y :: ys)
  end.

(** The capability of [ModelFactory] that [subtract] consumes. *)
Record ModelFactory : Type := mkModelFactory {
  createBrush : Brush -> M NodeId
}.

(** Modelled from the spec: the implementations of [ModelFactory] are not in
    these files; [createBrush] constructs a new owning node from the
    resulting brush, which is the constructor [BrushNode(Brush)]. *)
Definition nodeFactory : ModelFactory := {| createBrush := newBrushNode |}.

(** [BrushNode::subtract] with a vector of subtrahends *)
Definition subtract (this : NodeId) (factory : ModelFactory) (worldBounds : bbox3)
    (defaultTextureName : string) (subtrahends : list NodeId) : M (list NodeId) :=
  subtrahendBrushes <- vec_transform brush subtrahends ;;
  result <- queryBrush this (Brush_subtract worldBounds defaultTextureName subtrahendBrushes) ;;
  vec_transform (createBrush factory) result.

(** [BrushNode::subtract] with a single subtrahend; [Brush::subtract] with
    one brush is the call with the one-element vector. *)
Definition subtract1 (this : NodeId) (factory : ModelFactory) (worldBounds : bbox3)
    (defaultTextureName : string) (subtrahend : NodeId) : M (list NodeId) :=
  other <- deref subtrahend ;;
  result <- queryBrush this (Brush_subtract worldBounds defaultTextureName [m_brush other]) ;;
  vec_transform (createBrush factory) result.

(** [BrushNode::doClone]: [new BrushNode(m_brush)] copies the brush into
    the constructor's parameter. *)
Definition doClone (this : NodeId) (worldBounds : bbox3) : M NodeId :=
  st <- deref this ;; newBrushNode (m_brush st).

(** [BrushNode::clone]; [Node::clone] hands the work to [doClone]. *)
Definition clone (this : NodeId) (worldBounds : bbox3) : M NodeId :=
  doClone this worldBounds.


(** *** Picking *)

Record BrushFaceHit : Type := mkBrushFaceHit {
  hit_face : option BrushFace;
  hit_distance : FloatType
}.

(** [BrushFaceHit::BrushFaceHit()] *)
Definition BrushFaceHit_none : BrushFaceHit :=
  {| hit_face := None; hit_distance := PrimFloat.nan |}.

Inductive HitType : Type := BrushHitType.

Record BrushFaceHandle : Type := mkBrushFaceHandle {
  handle_node : NodeId;
  handle_face : BrushFace
}.

Record Hit : Type := mkHit {
  hit_type : HitType;
  hit_dist : FloatType;
  hit_point : vec3;
  hit_target : BrushFaceHandle
}.

(** Modelled from the spec: [PickResult] is not in these files; it is the
    collection of the hits found so far, and [addHit] adds one hit to it. *)
Definition PickResult : Type := list Hit.
Definition addHit (h : Hit) (pickResult : PickResult) : PickResult := pickResult ++ [h].

(** [BrushNode::doGetLogicalBounds] *)
Definition logicalBounds (st : BrushNode) : bbox3 := m_bounds (m_brush st).

(** The loop of [BrushNode::findFaceHit] over [m_brush.faces()]. *)
Fixpoint findFaceHit_faces (ray : ray3) (fs : list BrushFace) : BrushFaceHit :=
  match fs with
  | [] => BrushFaceHit_none
  | face :: rest =>
      let distance := face_intersectWithRay face ray in
      if negb (is_nan distance) then mkBrushFaceHit (Some face) distance
      else findFaceHit_faces ray rest
  end.

(** [BrushNode::findFaceHit] *)
Definition findFaceHit (st : BrushNode) (ray : ray3) : BrushFaceHit :=
  if is_nan (intersect_ray_bbox ray (logicalBounds st)) then BrushFaceHit_none
  else findFaceHit_faces ray (m_faces (m_brush st)).

(** [BrushNode::doPick]; [ensure] raises when its condition fails. *)
Definition doPick (this : NodeId) (ray : ray3) (pickResult : PickResult) : M PickResult :=
  st <- deref this ;;
  let hit := findFaceHit st ray in
  match hit_face hit with
  | Some face =>
      if is_nan (hit_distance hit) then throw AssertionFailed
      else
        let hitPoint := point_at_distance ray (hit_distance hit) in
        ret (addHit (mkHit BrushHitType (hit_distance hit) hitPoint
                       (mkBrushFaceHandle this face)) pickResult)
  | None => ret pickResult
  end.

(** *** Tags *)

(** [TagType::AnyType]: all bits of the type set to 1. *)
Definition AnyType : Z := Z.ones (Z.of_N tagBits).

(** [BrushNode::allFacesHaveAnyTagInMask] *)
Definition allFacesHaveAnyTagInMask (st : BrushNode) (tagMask : Z) : bool :=
  let sharedFaceTags :=
    fold_left (fun shared face => Z.land shared (face_tagMask face))
              (m_faces (m_brush st)) AnyType in
  negb (Z.land sharedFaceTags tagMask =? 0).

(** The loop of [BrushNode::anyFaceHasAnyTag]. *)
Fixpoint anyFaceHasAnyTag_faces (fs : list BrushFace) : bool :=
  match fs with
  | [] => false
  | face :: rest => if face_hasAnyTag face then true else anyFaceHasAnyTag_faces rest
  end.

(** [BrushNode::anyFaceHasAnyTag] *)
Definition anyFaceHasAnyTag (st : BrushNode) : bool :=
  anyFaceHasAnyTag_faces (m_faces (m_brush st)).

(** The loop of [BrushNode::anyFacesHaveAnyTagInMask]. *)
Fixpoint anyFacesHaveAnyTagInMask_faces (tagMask : Z) (fs : list BrushFace) : bool :=
  match fs with
  | [] => false
  | face :: rest =>
      if face_hasTag face tagMask then true else anyFacesHaveAnyTagInMask_faces tagMask rest
  end.

(** [BrushNode::anyFacesHaveAnyTagInMask] *)
Definition anyFacesHaveAnyTagInMask (st : BrushNode) (tagMask : Z) : bool :=
  anyFacesHaveAnyTagInMask_faces tagMask (m_faces (m_brush st)).

(** *** The public calls, by kind *)

Definition discard {A : Type} (m : M A) : M unit := (_ <- m ;; ret tt).

(** The public mutating operations with their arguments. *)
Inductive MutatingCall : Type :=
| Call_setBrush (brush : Brush)
| Call_setFaces (worldBounds : bbox3) (faces : list BrushFace)
| Call_moveVertices (worldBounds : bbox3) (vertexPositions : list vec3)
    (delta : vec3) (uvLock : bool)
| Call_addVertex (worldBounds : bbox3) (position : vec3)
| Call_removeVertices (worldBounds : bbox3) (vertexPositions : list vec3)
| Call_snapVertices (worldBounds : bbox3) (snapToF : FloatType) (uvLock : bool)
| Call_moveEdges (worldBounds : bbox3) (edgePositions : list segment3)
    (delta : vec3) (uvLock : bool)
| Call_moveFaces (worldBounds : bbox3) (facePositions : list polygon3)
    (delta : vec3) (uvLock : bool)
| Call_intersect (worldBounds : bbox3) (brushNode : NodeId)
| Call_findIntegerPlanePoints (worldBounds : bbox3)
| Call_transform (transformation : mat4x4) (lockTextures : bool) (worldBounds : bbox3).

Definition callMutating (this : NodeId) (c : MutatingCall) : M unit :=
  match c with
  | Call_setBrush b => setBrush this b
  | Call_setFaces wb fs => setFaces this wb fs
  | Call_moveVertices wb vs d uv => discard (moveVertices this wb vs d uv)
  | Call_addVertex wb p => discard (addVertex this wb p)
  | Call_removeVertices wb vs => removeVertices this wb vs
  | Call_snapVertices wb sn uv => snapVertices this wb sn uv
  | Call_moveEdges wb es d uv => discard (moveEdges this wb es d uv)
  | Call_moveFaces wb fs d uv => discard (moveFaces this wb fs d uv)
  | Call_intersect wb n => intersect this wb n
  | Call_findIntegerPlanePoints wb => findIntegerPlanePoints this wb
  | Call_transform t lock wb => doTransform this t lock wb
  end.

(** The node pointers among a call's arguments point to nodes. *)
Definition argumentsValid (c : MutatingCall) (w : World) : Prop :=
  match c with
  | Call_intersect _ n => is_Some (nodes w !! n)
  | _ => True
  end.

(** The read-only queries with their arguments. *)
Inductive ReadOnlyCall : Type :=
| Call_faceCount
| Call_faces
| Call_vertexCount
| Call_vertices
| Call_vertexPositions
| Call_edgeCount
| Call_edges
| Call_closed
| Call_fullySpecified
| Call_containsPoint (point : vec3)
| Call_hasVertex (position : vec3) (epsilon : FloatType)
| Call_hasEdge (edge : segment3) (epsilon : FloatType)
| Call_hasFace (face : polygon3) (epsilon : FloatType)
| Call_hasFace3 (p1 p2 p3 : vec3) (epsilon : FloatType)
| Call_hasFace4 (p1 p2 p3 p4 : vec3) (epsilon : FloatType)
| Call_hasFace5 (p1 p2 p3 p4 p5 : vec3) (epsilon : FloatType)
| Call_findFace_textureName (textureName : string)
| Call_findFace_normal (normal : vec3)
| Call_findFace_boundary (boundary : plane3)
| Call_findFace_vertices (vs : polygon3) (epsilon : FloatType)
| Call_findFace_candidates (cs : list polygon3) (epsilon : FloatType)
| Call_incidentFaces (vertex : BrushVertex)
| Call_canMoveVertices (worldBounds : bbox3) (vs : list vec3) (delta : vec3)
| Call_canMoveEdges (worldBounds : bbox3) (es : list segment3) (delta : vec3)
| Call_canMoveFaces (worldBounds : bbox3) (fs : list polygon3) (delta : vec3)
| Call_canAddVertex (worldBounds : bbox3) (position : vec3)
| Call_canRemoveVertices (worldBounds : bbox3) (vs : list vec3)
| Call_canTransform (transformation : mat4x4) (worldBounds : bbox3).

Definition callReadOnly (this : NodeId) (c : ReadOnlyCall) : M unit :=
  match c with
  | Call_faceCount => discard (faceCount this)
  | Call_faces => discard (faces this)
  | Call_vertexCount => discard (vertexCount this)
  | Call_vertices => discard (vertices this)
  | Call_vertexPositions => discard (vertexPositions this)
  | Call_edgeCount => discard (edgeCount this)
  | Call_edges => discard (edges this)
  | Call_closed => discard (closed this)
  | Call_fullySpecified => discard (fullySpecified this)
  | Call_containsPoint p => discard (containsPoint this p)
  | Call_hasVertex p e => discard (hasVertex this p e)
  | Call_hasEdge s e => discard (hasEdge this s e)
  | Call_hasFace f e => discard (hasFace this f e)
  | Call_hasFace3 p1 p2 p3 e => discard (hasFace3 this p1 p2 p3 e)
  | Call_hasFace4 p1 p2 p3 p4 e => discard (hasFace4 this p1 p2 p3 p4 e)
  | Call_hasFace5 p1 p2 p3 p4 p5 e => discard (hasFace5 this p1 p2 p3 p4 p5 e)
  | Call_findFace_textureName n => discard (findFace_textureName this n)
  | Call_findFace_normal n => discard (findFace_normal this n)
  | Call_findFace_boundary b => discard (findFace_boundary this b)
  | Call_findFace_vertices v e => discard (findFace_vertices this v e)
  | Call_findFace_candidates c e => discard (findFace_candidates this c e)
  | Call_incidentFaces v => discard (incidentFaces this v)
  | Call_canMoveVertices wb vs d => discard (canMoveVertices this wb vs d)
  | Call_canMoveEdges wb es d => discard (canMoveEdges this wb es d)
  | Call_canMoveFaces wb fs d => discard (canMoveFaces this wb fs d)
  | Call_canAddVertex wb p => discard (canAddVertex this wb p)
  | Call_canRemoveVertices wb vs => discard (canRemoveVertices this wb vs)
  | Call_canTransform t wb => discard (canTransform this t wb)
  end.

End Methods.


(** ** The owner of a brush node *)

Inductive NodeKind : Type :=
| WorldNode | LayerNode | GroupNode | EntityNode | BrushNodeKind.

(** A node of the scene graph as seen from below: its address, its kind,
    and, unless it is a root, the node its parent pointer refers to. *)
Inductive SceneNode : Type :=
| RootNode (addr : NodeId) (kind : NodeKind)
| ChildNode (addr : NodeId) (kind : NodeKind) (up : SceneNode).

Definition scene_addr (n : SceneNode) : NodeId :=
  match n with RootNode a _ | ChildNode a _ _ => a end.
Definition scene_kind (n : SceneNode) : NodeKind :=
  match n with RootNode _ k | ChildNode _ k _ => k end.
(** [Node::parent]; [None] is the null pointer. *)
Definition parent (n : SceneNode) : option SceneNode :=
  match n with RootNode _ _ => None | ChildNode _ _ p => Some p end.

(** The state of a [FindBrushOwner] object: the result slot of its
    [NodeQuery] base and the cancellation flag of its [NodeVisitor] base. *)
Record FindBrushOwner : Type := mkFindBrushOwner {
  m_hasResult : bool;
  m_result : option SceneNode;
  m_cancelled : bool
}.

Definition FindBrushOwner_new : FindBrushOwner :=
  {| m_hasResult := false; m_result := None; m_cancelled := false |}.

Definition setResult (n : SceneNode) (v : FindBrushOwner) : FindBrushOwner :=
  {| m_hasResult := true; m_result := Some n; m_cancelled := m_cancelled v |}.

Definition cancel (v : FindBrushOwner) : FindBrushOwner :=
  {| m_hasResult := m_hasResult v; m_result := m_result v; m_cancelled := true |}.

(** [FindBrushOwner::doVisit], one overload per node kind, reached through
    [Node::accept]. *)
Definition doVisit (n : SceneNode) (v : FindBrushOwner) : FindBrushOwner :=
  match scene_kind n with
  | WorldNode => cancel (setResult n v)
  | LayerNode => v
  | GroupNode => v
  | EntityNode => cancel (setResult n v)
  | BrushNodeKind => v
  end.

(** Modelled from the spec: [Node::acceptAndEscalate] and [Node::escalate]
    are not in these files; they are the walk up the ownership chain: the
    node accepts the visitor, then its parent does, and so on, until the
    visitor is cancelled or a node without parent is reached. *)
Fixpoint acceptAndEscalate (n : SceneNode) (v : FindBrushOwner) : FindBrushOwner :=
  let v' := doVisit n v in
  match n with
  | RootNode _ _ => v'
  | ChildNode _ _ p => if m_cancelled v' then v' else acceptAndEscalate p v'
  end.

(** [BrushNode::entity] *)
Definition entity (this : SceneNode) : option SceneNode :=
  match parent this with
  | None => None
  | Some p =>
      let visitor := acceptAndEscalate p FindBrushOwner_new in
      if negb (m_hasResult visitor) then None else m_result visitor
  end.

(** The chain of ancestors, nearest first. *)
Fixpoint ancestors (n : SceneNode) : list SceneNode :=
  match n with
  | RootNode _ _ => []
  | ChildNode _ _ p => p :: ancestors p
  end.

Definition isOwnerKind (n : SceneNode) : bool :=
  match scene_kind n with
  | WorldNode | EntityNode => true
  | LayerNode | GroupNode | BrushNodeKind => false
  end.

(** ** A small kernel to run the node on *)

Definition origin3 : vec3 := mkVec3 PrimFloat.zero PrimFloat.zero PrimFloat.zero.
Definition unitBounds : bbox3 := mkBBox3 origin3 (mkVec3 PrimFloat.one PrimFloat.one PrimFloat.one).

Definition with_faces (fs : list BrushFace) (b : Brush) : Brush :=
  {| m_node := m_node b; m_faces := fs; m_vertices := m_vertices b;
     m_edges := m_edges b; m_bounds := m_bounds b |}.

(** Faces are replaced or appended, vertices are added, and removing
    vertices always fails with an exception; the rest leaves the brush. *)
Definition sample_mutate (A : Type) (op : BrushMutation A) (b : Brush) : Brush * Outcome A :=
  match op in BrushMutation T return Brush * Outcome T with
  | Brush_setFaces _ fs => (with_faces fs b, Ok tt)
  | Brush_moveVertices _ vs _ _ => (b, Ok vs)
  | Brush_addVertex _ p =>
      ({| m_node := m_node b; m_faces := m_faces b;
          m_vertices := m_vertices b ++ [mkBrushVertex p];
          m_edges := m_edges b; m_bounds := m_bounds b |}, Ok (mkBrushVertex p))
  | Brush_removeVertices _ _ => (b, Throw GeometryException)
  | Brush_snapVertices _ _ _ => (b, Ok tt)
  | Brush_moveEdges _ es _ _ => (b, Ok es)
  | Brush_moveFaces _ fs _ _ => (b, Ok fs)
  | Brush_intersect _ other => (with_faces (m_faces b ++ m_faces other) b, Ok tt)
  | Brush_findIntegerPlanePoints _ => (b, Ok tt)
  | Brush_transform _ _ _ => (b, Ok tt)
  | Brush_cloneFaceAttributesFrom _ => (b, Ok tt)
  | Brush_cloneInvertedFaceAttributesFrom _ => (b, Ok tt)
  end.

(** [subtract] yields one fragment per face of the minuend. *)
Definition sample_query (A : Type) (q : BrushQuery A) (b : Brush) : Outcome A :=
  match q in BrushQuery T return Outcome T with
  | Brush_findFace_textureName _ | Brush_findFace_normal _ | Brush_findFace_boundary _
  | Brush_findFace_vertices _ _ | Brush_findFace_candidates _ _ => Ok (head (m_faces b))
  | Brush_faceCount => Ok (Z.of_nat (length (m_faces b)))
  | Brush_vertexCount => Ok (Z.of_nat (length (m_vertices b)))
  | Brush_edgeCount => Ok (Z.of_nat (length (m_edges b)))
  | Brush_vertexPositions => Ok (map vertex_position (m_vertices b))
  | Brush_findClosestVertexPosition p => Ok p
  | Brush_incidentFaces _ => Ok (m_faces b)
  | Brush_subtract _ _ _ => Ok (map (fun f => with_faces [f] b) (m_faces b))
  | Brush_closed | Brush_fullySpecified | Brush_hasVertex _ _ | Brush_hasEdge _ _
  | Brush_hasFace _ _ | Brush_hasFace3 _ _ _ _ | Brush_hasFace4 _ _ _ _ _
  | Brush_hasFace5 _ _ _ _ _ _ | Brush_containsPoint _ | Brush_canMoveVertices _ _ _
  | Brush_canAddVertex _ _ | Brush_canRemoveVertices _ _ | Brush_canSnapVertices _ _
  | Brush_canMoveEdges _ _ _ | Brush_canMoveFaces _ _ _ | Brush_canTransform _ _
  | Brush_contains_bounds _ | Brush_contains_brush _ | Brush_intersects_bounds _
  | Brush_intersects_brush _ => Ok true
  end.

(** A ray hits the box unless its origin has no defined first coordinate;
    the face named 1 is never hit, every other face is hit at
    distance one. *)
#[local] Instance sampleKernel : BrushKernel := {|
  brush_mutate := sample_mutate;
  brush_query := sample_query;
  tagBits := 8%N;
  face_hasAnyTag := fun f => negb (face_tagMask f =? 0);
  face_hasTag := fun f mask => negb (Z.land (face_tagMask f) mask =? 0);
  face_intersectWithRay := fun f _ =>
    if Pos.eqb (face_name f) 1 then PrimFloat.nan else PrimFloat.one;
  intersect_ray_bbox := fun r _ => vx (ray_origin r);
  point_at_distance := fun r _ => ray_origin r
|}.

Definition sampleBrush (fs : list BrushFace) : Brush :=
  {| m_node := None; m_faces := fs; m_vertices := []; m_edges := [];
     m_bounds := unitBounds |}.

Definition sampleNode (this : NodeId) (fs : list BrushFace) (cacheValid : bool) : BrushNode :=
  {| m_brush := Brush_setNode this (sampleBrush fs);
     m_vertexCacheValid := cacheValid; m_issuesValid := true |}.

Definition faceA : BrushFace := mkBrushFace 1%positive 5.
Definition faceB : BrushFace := mkBrushFace 2%positive 6.

(** Two brush nodes, at addresses 1 and 2, both with a valid renderer
    cache, and an empty log. *)
Definition sampleWorld : World :=
  {| nodes := <[2%positive := sampleNode 2%positive [faceB] true]>
                (<[1%positive := sampleNode 1%positive [faceA; faceB] true]> ∅);
     log := [] |}.

(** ** Facts about the tag queries *)

Section TagFacts.
Context `{K : BrushKernel}.

Lemma shared_tags_testbit (fs : list BrushFace) (acc i : Z) :
  Z.testbit (fold_left (fun shared face => Z.land shared (face_tagMask face)) fs acc) i
  = Z.testbit acc i && forallb (fun face => Z.testbit (face_tagMask face) i) fs.
Proof.
  revert acc. induction fs as [|f fs IH]; intros acc; simpl.
  - now rewrite andb_true_r.
  - rewrite IH, Z.land_spec. now rewrite andb_assoc.
Qed.

Lemma nonneg_nonzero_has_bit (z : Z) :
  0 <= z -> z <> 0 -> exists i, 0 <= i /\ Z.testbit z i = true.
Proof.
  intros Hz Hne. exists (Z.log2 z). split.
  - apply Z.log2_nonneg.
  - apply Z.bit_log2. lia.
Qed.

Lemma bit_set_nonzero (z i : Z) : Z.testbit z i = true -> z <> 0.
Proof. intros Hb ->. now rewrite Z.bits_0 in Hb. Qed.

(** A set bit of a value of the tag type lies below the type's width. *)
Lemma bit_of_tag_value_in_range (mask i : Z) :
  0 <= mask < 2 ^ Z.of_N tagBits -> Z.testbit mask i = true ->
  Z.testbit AnyType i = true.
Proof.
  intros Hr Hb. unfold AnyType.
  assert (Hlow : Z.land mask (Z.ones (Z.of_N tagBits)) = mask).
  { rewrite Z.land_ones by lia. apply Z.mod_small. exact Hr. }
  rewrite <- Hlow, Z.land_spec in Hb.
  now apply andb_true_iff in Hb.
Qed.

Lemma allFaces_true_iff_shared_bit (st : BrushNode) (tagMask : Z) :
  0 <= tagMask < 2 ^ Z.of_N tagBits ->
  allFacesHaveAnyTagInMask st tagMask = true <->
  exists i, Z.testbit tagMask i = true /\
            forall face, In face (m_faces (m_brush st)) ->
                         Z.testbit (face_tagMask face) i = true.
Proof.
  intros Hr. unfold allFacesHaveAnyTagInMask.
  set (shared := fold_left _ _ _).
  rewrite negb_true_iff, Z.eqb_neq. split.
  - intros Hne.
    destruct (nonneg_nonzero_has_bit (Z.land shared tagMask)) as (i & Hi & Hb).
    + apply Z.land_nonneg. right. lia.
    + exact Hne.
    + rewrite Z.land_spec in Hb. apply andb_true_iff in Hb as [Hs Hm].
      unfold shared in Hs. rewrite shared_tags_testbit in Hs.
      apply andb_true_iff in Hs as [_ Hall].
      exists i. split; [exact Hm|].
      intros face Hin. rewrite forallb_forall in Hall. now apply Hall.
  - intros (i & Hm & Hall).
    apply (bit_set_nonzero _ i).
    rewrite Z.land_spec, Hm, andb_true_r.
    unfold shared. rewrite shared_tags_testbit.
    rewrite (bit_of_tag_value_in_range tagMask i Hr Hm). simpl.
    apply forallb_forall. exact Hall.
Qed.

(** C9.  On a brush without faces [allFacesHaveAnyTagInMask] is true for
    every non-zero mask of the tag type, while [anyFaceHasAnyTag] and
    [anyFacesHaveAnyTagInMask] are false; on a brush with at least one face
    [allFacesHaveAnyTagInMask] is true exactly when some bit of the mask is
    set in the tag mask of every face. *)
Theorem tag_queries_over_faces (st : BrushNode) (tagMask : Z) :
  0 <= tagMask < 2 ^ Z.of_N tagBits ->
  (m_faces (m_brush st) = [] ->
     (tagMask <> 0 -> allFacesHaveAnyTagInMask st tagMask = true) /\
     anyFaceHasAnyTag st = false /\
     anyFacesHaveAnyTagInMask st tagMask = false) /\
  (m_faces (m_brush st) <> [] ->
     (allFacesHaveAnyTagInMask st tagMask = true <->
      exists i, Z.testbit tagMask i = true /\
                forall face, In face (m_faces (m_brush st)) ->
                             Z.testbit (face_tagMask face) i = true)).
Proof.
  intros Hr. split.
  - intros Hnil. repeat split.
    + intros Hne. apply allFaces_true_iff_shared_bit; [exact Hr|].
      destruct (nonneg_nonzero_has_bit tagMask) as (i & _ & Hb); [lia|exact Hne|].
      exists i. split; [exact Hb|]. rewrite Hnil. intros face [].
    + unfold anyFaceHasAnyTag. now rewrite Hnil.
    + unfold anyFacesHaveAnyTagInMask. now rewrite Hnil.
  - intros _. now apply allFaces_true_iff_shared_bit.
Qed.

End TagFacts.

(** The sample node with faces of masks 5 and 6 shares bit 2 with the mask
    4, and a node without faces accepts that mask as well. *)
Lemma tag_queries_over_faces_witness :
  allFacesHaveAnyTagInMask (sampleNode 1%positive [] true) 4 = true /\
  (allFacesHaveAnyTagInMask (sampleNode 1%positive [faceA; faceB] true) 4 = true <->
   exists i, Z.testbit 4 i = true /\
             forall face, In face [faceA; faceB] -> Z.testbit (face_tagMask face) i = true).
Proof.
  assert (Hr : 0 <= 4 < 2 ^ Z.of_N (@tagBits sampleKernel)) by (vm_compute; split; congruence).
  split.
  - destruct (tag_queries_over_faces (sampleNode 1%positive [] true) 4 Hr) as [Hnone _].
    destruct (Hnone eq_refl) as [Hall _]. apply Hall. discriminate.
  - destruct (tag_queries_over_faces (sampleNode 1%positive [faceA; faceB] true) 4 Hr)
      as [_ Hsome].
    apply Hsome. discriminate.
Defined.

(** ** Facts about the owner lookup *)

Definition notOwner (n : SceneNode) : Prop := isOwnerKind n = false.

Lemma doVisit_not_owner (n : SceneNode) (v : FindBrushOwner) :
  isOwnerKind n = false -> doVisit n v = v.
Proof. unfold isOwnerKind, doVisit. now destruct (scene_kind n). Qed.

Lemma doVisit_owner (n : SceneNode) (v : FindBrushOwner) :
  isOwnerKind n = true -> doVisit n v = cancel (setResult n v).
Proof. unfold isOwnerKind, doVisit. now destruct (scene_kind n). Qed.

(** The walk from [p] upwards with a visitor that has not been cancelled
    leaves it untouched when no node on the way is an owner. *)
Lemma walk_without_owner (p : SceneNode) (v : FindBrushOwner) :
  m_cancelled v = false ->
  Forall notOwner (p :: ancestors p) ->
  acceptAndEscalate p v = v.
Proof.
  induction p as [a k|a k up IH]; intros Hc Hall; simpl.
  - apply doVisit_not_owner. now inversion Hall.
  - inversion Hall as [|? ? Hp Hrest]; subst.
    rewrite (doVisit_not_owner _ v Hp), Hc. now apply IH.
Qed.

(** The walk stops at the first owner on the way and reports it. *)
Lemma walk_to_first_owner (p : SceneNode) (v : FindBrushOwner)
    (before after : list SceneNode) (a : SceneNode) :
  m_cancelled v = false ->
  p :: ancestors p = before ++ a :: after ->
  Forall notOwner before ->
  isOwnerKind a = true ->
  acceptAndEscalate p v = cancel (setResult a v).
Proof.
  revert before. induction p as [ad k|ad k up IH]; intros before Hc Hsplit Hbefore Ha.
  - destruct before as [|b before]; simpl in Hsplit.
    + injection Hsplit as <- _. simpl. now apply doVisit_owner.
    + injection Hsplit as _ Hnil. now destruct before.
  - destruct before as [|b before]; simpl in Hsplit.
    + injection Hsplit as <- _. simpl.
      now rewrite (doVisit_owner _ v Ha).
    + injection Hsplit as <- Hrest.
      inversion Hbefore as [|? ? Hb Hbefore']; subst.
      simpl. rewrite (doVisit_not_owner _ v Hb), Hc.
      now apply (IH before).
Qed.

(** C7.  [entity] returns null for a node without parent and when no
    ancestor is an entity or world node; otherwise it returns the nearest
    ancestor that is an entity or world node, the layer, group and brush
    nodes before it being skipped. *)
Theorem entity_is_nearest_owner (this : SceneNode) :
  (parent this = None -> entity this = None) /\
  (Forall notOwner (ancestors this) -> entity this = None) /\
  (forall before a after,
     ancestors this = before ++ a :: after ->
     Forall notOwner before ->
     isOwnerKind a = true ->
     entity this = Some a) /\
  (forall n, isOwnerKind n = true <->
             scene_kind n = EntityNode \/ scene_kind n = WorldNode).
Proof.
  split; [|split; [|split]].
  - intros Hp. unfold entity. now rewrite Hp.
  - intros Hall. unfold entity. destruct this as [a k|a k up]; simpl; [reflexivity|].
    simpl in Hall. now rewrite walk_without_owner.
  - intros before a after Hsplit Hbefore Ha. unfold entity.
    destruct this as [ad k|ad k up]; simpl in *.
    + now destruct before.
    + now rewrite (walk_to_first_owner up _ before after a).
  - intros n. unfold isOwnerKind. split.
    + destruct (scene_kind n); intros; auto; discriminate.
    + intros [-> | ->]; reflexivity.
Qed.

(** ** Facts about picking *)

Section PickFacts.
Context `{K : BrushKernel}.

Definition missedBy (ray : ray3) (face : BrushFace) : Prop :=
  is_nan (face_intersectWithRay face ray) = true.

Lemma findFaceHit_faces_all_missed (ray : ray3) (fs : list BrushFace) :
  Forall (missedBy ray) fs -> findFaceHit_faces ray fs = BrushFaceHit_none.
Proof.
  induction 1 as [|f fs Hf _ IH]; simpl; [reflexivity|].
  unfold missedBy in Hf. now rewrite Hf.
Qed.

Lemma findFaceHit_faces_first (ray : ray3) (before after : list BrushFace) (face : BrushFace) :
  Forall (missedBy ray) before ->
  is_nan (face_intersectWithRay face ray) = false ->
  findFaceHit_faces ray (before ++ face :: after)
  = mkBrushFaceHit (Some face) (face_intersectWithRay face ray).
Proof.
  intros Hbefore Hface. induction Hbefore as [|f fs Hf _ IH]; simpl.
  - now rewrite Hface.
  - unfold missedBy in Hf. now rewrite Hf.
Qed.

(** A reported face always comes with a defined distance, so the [ensure]
    of [doPick] cannot fail. *)
Lemma findFaceHit_faces_defined (ray : ray3) (fs : list BrushFace) (face : BrushFace) :
  hit_face (findFaceHit_faces ray fs) = Some face ->
  is_nan (hit_distance (findFaceHit_faces ray fs)) = false.
Proof.
  induction fs as [|f fs IH]; simpl; [discriminate|].
  destruct (is_nan (face_intersectWithRay f ray)) eqn:Hf; simpl; auto.
Qed.

(** C8.  [doPick] returns normally, leaves the store alone and adds at most
    one hit: none when the ray misses the bounding box, whatever the faces
    say, and otherwise the first face in face order whose intersection
    distance is defined, with the point at that distance along the ray. *)
Theorem doPick_reports_first_face (this : NodeId) (st : BrushNode) (ray : ray3)
    (pickResult : PickResult) (w : World) :
  nodes w !! this = Some st ->
  exists pickResult',
    doPick this ray pickResult w = Some (Ok pickResult', w) /\
    (pickResult' = pickResult \/ exists h, pickResult' = addHit h pickResult) /\
    (is_nan (intersect_ray_bbox ray (logicalBounds st)) = true ->
       pickResult' = pickResult) /\
    (is_nan (intersect_ray_bbox ray (logicalBounds st)) = false ->
       (Forall (missedBy ray) (m_faces (m_brush st)) -> pickResult' = pickResult) /\
       (forall before face after,
          m_faces (m_brush st) = before ++ face :: after ->
          Forall (missedBy ray) before ->
          is_nan (face_intersectWithRay face ray) = false ->
          pickResult' =
            addHit (mkHit BrushHitType (face_intersectWithRay face ray)
                      (point_at_distance ray (face_intersectWithRay face ray))
                      (mkBrushFaceHandle this face)) pickResult)).
Proof.
  intros Hst. unfold doPick, bind, deref. rewrite Hst. unfold findFaceHit.
  destruct (is_nan (intersect_ray_bbox ray (logicalBounds st))) eqn:Hbox.
  - exists pickResult. simpl. repeat split; auto. discriminate.
  - destruct (hit_face (findFaceHit_faces ray (m_faces (m_brush st)))) as [face|] eqn:Hhit.
    + rewrite (findFaceHit_faces_defined _ _ _ Hhit).
      eexists. split; [reflexivity|]. split; [right; eauto|]. split; [discriminate|].
      intros _. split.
      * intros Hall. rewrite (findFaceHit_faces_all_missed _ _ Hall) in Hhit. discriminate.
      * intros before face' after Hsplit Hbefore Hface.
        rewrite Hsplit, (findFaceHit_faces_first _ _ _ _ Hbefore Hface) in *.
        simpl in Hhit. now injection Hhit as <-.
    + exists pickResult. split; [reflexivity|]. split; [now left|]. split; [auto|].
      intros _. split; [auto|].
      intros before face' after Hsplit Hbefore Hface.
      rewrite Hsplit, (findFaceHit_faces_first _ _ _ _ Hbefore Hface) in Hhit.
      discriminate.
Qed.

End PickFacts.

(** ** Facts about the notifications and the store *)

Section NodeFacts.
Context `{K : BrushKernel}.

(** The five events of a guarded mutation, in the order they happen. *)
Definition guardedWrite (this : NodeId) : list Event :=
  [Acquire NodeChange this; Acquire PhysicalBoundsChange this;
   BrushWrite this;
   Release PhysicalBoundsChange this; Release NodeChange this].

(** A block that, run where [P] holds of the nodes, ends (with whatever
    outcome), writes the brush of [this] once and notifies nothing. *)
Definition writesBrushOnce {A : Type} (this : NodeId)
    (P : gmap NodeId BrushNode -> Prop) (body : M A) : Prop :=
  forall w, P (nodes w) ->
    exists r w', body w = Some (r, w') /\ log w' = log w ++ [BrushWrite this].

Lemma scoped_pair_brackets {A : Type} (this : NodeId)
    (P : gmap NodeId BrushNode -> Prop) (body : M A) :
  writesBrushOnce this P body ->
  forall w, P (nodes w) ->
    exists r w',
      scoped NodeChange this (scoped PhysicalBoundsChange this body) w = Some (r, w') /\
      log w' = log w ++ guardedWrite this.
Proof.
  intros Hbody w HP. unfold scoped.
  destruct (Hbody (emit (Acquire PhysicalBoundsChange this)
                     (emit (Acquire NodeChange this) w)) HP) as (r & w' & Hrun & Hlog).
  rewrite Hrun. eexists _, _. split; [reflexivity|].
  simpl. rewrite Hlog. simpl. rewrite <- !app_assoc. reflexivity.
Qed.

Lemma discard_runs {A : Type} (m : M A) (w w' : World) (r : Outcome A) :
  m w = Some (r, w') -> exists r', discard m w = Some (r', w').
Proof. intros Hm. unfold discard, bind. rewrite Hm. destruct r; eauto. Qed.

Lemma mutateBrush_writes_once {A : Type} (this : NodeId) (op : BrushMutation A) :
  writesBrushOnce this (fun m => is_Some (m !! this)) (mutateBrush this op).
Proof.
  intros w [st Hst]. unfold mutateBrush. simpl in Hst. rewrite Hst.
  destruct (brush_mutate op (m_brush st)) as [b r]. eauto.
Qed.

Lemma setFaces_body_writes_once (this : NodeId) (worldBounds : bbox3) (fs : list BrushFace) :
  writesBrushOnce this (fun m => is_Some (m !! this))
    (mutateBrush this (Brush_setFaces worldBounds fs) ;;
     invalidateIssues this ;; invalidateVertexCache this).
Proof.
  intros w [st Hst]. unfold bind, mutateBrush, invalidateIssues, invalidateVertexCache.
  simpl in Hst. rewrite Hst.
  destruct (brush_mutate (Brush_setFaces worldBounds fs) (m_brush st)) as [b [[]|e]];
    simpl; rewrite ?lookup_insert_eq; simpl; rewrite ?lookup_insert_eq; eauto.
Qed.

Lemma setBrush_body_writes_once (this : NodeId) (b : Brush) :
  writesBrushOnce this (fun m => is_Some (m !! this))
    (assignBrush this b ;; setNode this this ;;
     invalidateIssues this ;; invalidateVertexCache this).
Proof.
  intros w [st Hst].
  unfold bind, assignBrush, setNode, invalidateIssues, invalidateVertexCache.
  simpl in Hst. rewrite Hst. simpl.
  rewrite lookup_insert_eq. simpl. rewrite lookup_insert_eq. simpl.
  rewrite lookup_insert_eq. eauto.
Qed.

Lemma intersect_body_writes_once (this brushNode : NodeId) (worldBounds : bbox3) :
  writesBrushOnce this (fun m => is_Some (m !! this) /\ is_Some (m !! brushNode))
    (other <- deref brushNode ;;
     mutateBrush this (Brush_intersect worldBounds (m_brush other))).
Proof.
  intros w [Hthis [st Hother]]. unfold bind, deref. simpl in Hother. rewrite Hother.
  now apply (mutateBrush_writes_once this _ w).
Qed.

(** C1.  Every public mutating operation, whatever the brush does and
    whether it returns or throws, ends having logged exactly: node-change
    acquired, bounds-change acquired, the write of the brush, bounds-change
    released, node-change released.  So each notification fires once per
    call, is acquired before the mutation and released after it on every
    exit path. *)
Theorem notifications_bracket_every_mutation (this : NodeId) (c : MutatingCall) (w : World) :
  is_Some (nodes w !! this) ->
  argumentsValid c w ->
  exists r w',
    callMutating this c w = Some (r, w') /\
    log w' = log w ++ guardedWrite this.
Proof.
  intros Hthis Hargs.
  pose proof (fun A op => scoped_pair_brackets (A:=A) this _ _
                            (mutateBrush_writes_once this op) w Hthis) as Hdelegate.
  destruct c as [b|wb fs|wb vs d uv|wb p|wb vs|wb sn uv|wb es d uv|wb fs d uv|wb n|wb|t lock wb];
    simpl in *.
  - apply (scoped_pair_brackets this _ _ (setBrush_body_writes_once this b) w Hthis).
  - apply (scoped_pair_brackets this _ _ (setFaces_body_writes_once this wb fs) w Hthis).
  - destruct (Hdelegate _ (Brush_moveVertices wb vs d uv)) as (r & w' & Hrun & Hlog).
    destruct (discard_runs _ _ _ _ Hrun) as [r' Hrun']. eauto.
  - destruct (Hdelegate _ (Brush_addVertex wb p)) as (r & w' & Hrun & Hlog).
    destruct (discard_runs _ _ _ _ Hrun) as [r' Hrun']. eauto.
  - apply Hdelegate.
  - apply Hdelegate.
  - destruct (Hdelegate _ (Brush_moveEdges wb es d uv)) as (r & w' & Hrun & Hlog).
    destruct (discard_runs _ _ _ _ Hrun) as [r' Hrun']. eauto.
  - destruct (Hdelegate _ (Brush_moveFaces wb fs d uv)) as (r & w' & Hrun & Hlog).
    destruct (discard_runs _ _ _ _ Hrun) as [r' Hrun']. eauto.
  - apply (scoped_pair_brackets this _ _
             (intersect_body_writes_once this n wb) w (conj Hthis Hargs)).
  - apply Hdelegate.
  - apply Hdelegate.
Qed.

(** A [const] query returns in the store it was called in. *)
Lemma queryBrush_frame {A : Type} (this : NodeId) (q : BrushQuery A) (w : World) (st : BrushNode) :
  nodes w !! this = Some st ->
  queryBrush this q w = Some (brush_query q (m_brush st), w).
Proof. intros Hst. unfold queryBrush. now rewrite Hst. Qed.

Lemma discard_query_frame {A : Type} (this : NodeId) (q : BrushQuery A) (w : World) :
  is_Some (nodes w !! this) ->
  exists r, discard (queryBrush this q) w = Some (r, w).
Proof.
  intros [st Hst]. apply (discard_runs _ w w (brush_query q (m_brush st))).
  now apply queryBrush_frame.
Qed.

Lemma discard_accessor_frame {A : Type} (this : NodeId) (f : BrushNode -> A) (w : World) :
  is_Some (nodes w !! this) ->
  exists r, discard (st <- deref this ;; ret (f st)) w = Some (r, w).
Proof.
  intros [st Hst]. exists (Ok tt). unfold discard, bind, deref. now rewrite Hst.
Qed.

Lemma readOnly_frame (this : NodeId) (c : ReadOnlyCall) (w : World) :
  is_Some (nodes w !! this) ->
  exists r, callReadOnly this c w = Some (r, w).
Proof.
  intros Hthis.
  destruct c; simpl;
    first [ now apply discard_query_frame
          | now apply (discard_accessor_frame this (fun st => m_faces (m_brush st)))
          | now apply (discard_accessor_frame this (fun st => m_vertices (m_brush st)))
          | now apply (discard_accessor_frame this (fun st => m_edges (m_brush st))) ].
Qed.

(** C3.  Every read-only query returns in exactly the store it was called
    in: the log of notifications has gained nothing and no node, its
    renderer cache included, has changed. *)
Theorem queries_change_nothing (this : NodeId) (c : ReadOnlyCall) (w : World) :
  is_Some (nodes w !! this) ->
  exists r w',
    callReadOnly this c w = Some (r, w') /\
    log w' = log w /\ nodes w' = nodes w.
Proof.
  intros Hthis. destruct (readOnly_frame this c w Hthis) as [r Hrun]. eauto.
Qed.

(** *** What a call can touch *)

(** A block that changes no node other than [this]. *)
Definition touchesOnly {A : Type} (this : NodeId) (body : M A) : Prop :=
  forall w r w', body w = Some (r, w') ->
    forall n, n <> this -> nodes w' !! n = nodes w !! n.

Lemma touchesOnly_ret {A : Type} (this : NodeId) (a : A) : touchesOnly this (ret a).
Proof. intros w r w' [= _ <-] n _. reflexivity. Qed.

Lemma touchesOnly_deref (this node : NodeId) : touchesOnly this (deref node).
Proof.
  intros w r w' Hrun n _. unfold deref in Hrun.
  destruct (nodes w !! node); [|discriminate]. now injection Hrun as _ <-.
Qed.

Lemma touchesOnly_bind {A B : Type} (this : NodeId) (m : M A) (k : A -> M B) :
  touchesOnly this m -> (forall a, touchesOnly this (k a)) -> touchesOnly this (bind m k).
Proof.
  intros Hm Hk w r w' Hrun n Hn. unfold bind in Hrun.
  destruct (m w) as [[[a|e] w1]|] eqn:Hmw; [| |discriminate].
  - rewrite (Hk a _ _ _ Hrun n Hn). exact (Hm _ _ _ Hmw n Hn).
  - injection Hrun as _ <-. exact (Hm _ _ _ Hmw n Hn).
Qed.

Lemma touchesOnly_scoped {A : Type} (this : NodeId) (g : Guard) (node : NodeId) (body : M A) :
  touchesOnly this body -> touchesOnly this (scoped g node body).
Proof.
  intros Hbody w r w' Hrun n Hn. unfold scoped in Hrun.
  destruct (body (emit (Acquire g node) w)) as [[r1 w1]|] eqn:Hb; [|discriminate].
  injection Hrun as _ <-. simpl. exact (Hbody _ _ _ Hb n Hn).
Qed.

Lemma touchesOnly_discard {A : Type} (this : NodeId) (m : M A) :
  touchesOnly this m -> touchesOnly this (discard m).
Proof.
  intros Hm. apply touchesOnly_bind; [exact Hm|]. intros a. apply touchesOnly_ret.
Qed.

Lemma touchesOnly_mutateBrush {A : Type} (this : NodeId) (op : BrushMutation A) :
  touchesOnly this (mutateBrush this op).
Proof.
  intros w r w' Hrun n Hn. unfold mutateBrush in Hrun.
  destruct (nodes w !! this) as [st|]; [|discriminate].
  destruct (brush_mutate op (m_brush st)) as [b r1].
  injection Hrun as _ <-. simpl. now apply lookup_insert_ne.
Qed.

Lemma touchesOnly_assignBrush (this : NodeId) (b : Brush) :
  touchesOnly this (assignBrush this b).
Proof.
  intros w r w' Hrun n Hn. unfold assignBrush in Hrun.
  destruct (nodes w !! this) as [st|]; [|discriminate].
  injection Hrun as _ <-. simpl. now apply lookup_insert_ne.
Qed.

Lemma touchesOnly_setNode (this target : NodeId) : touchesOnly this (setNode this target).
Proof.
  intros w r w' Hrun n Hn. unfold setNode in Hrun.
  destruct (nodes w !! this) as [st|]; [|discriminate].
  injection Hrun as _ <-. simpl. now apply lookup_insert_ne.
Qed.

Lemma touchesOnly_invalidateIssues (this : NodeId) : touchesOnly this (invalidateIssues this).
Proof.
  intros w r w' Hrun n Hn. unfold invalidateIssues in Hrun.
  destruct (nodes w !! this) as [st|]; [|discriminate].
  injection Hrun as _ <-. simpl. now apply lookup_insert_ne.
Qed.

Lemma touchesOnly_invalidateVertexCache (this : NodeId) :
  touchesOnly this (invalidateVertexCache this).
Proof.
  intros w r w' Hrun n Hn. unfold invalidateVertexCache in Hrun.
  destruct (nodes w !! this) as [st|]; [|discriminate].
  injection Hrun as _ <-. simpl. now apply lookup_insert_ne.
Qed.

Create HintDb touches discriminated.
#[local] Hint Resolve touchesOnly_ret touchesOnly_deref touchesOnly_bind touchesOnly_scoped
  touchesOnly_discard touchesOnly_mutateBrush touchesOnly_assignBrush touchesOnly_setNode
  touchesOnly_invalidateIssues touchesOnly_invalidateVertexCache : touches.


(** *** The renderer cache *)

Definition cacheInvalidAt (this : NodeId) (w : World) : Prop :=
  exists st, nodes w !! this = Some st /\ m_vertexCacheValid st = false.

Lemma setBrush_runs (this : NodeId) (b : Brush) (w : World) (st : BrushNode) :
  nodes w !! this = Some st ->
  exists w',
    setBrush this b w = Some (Ok tt, w') /\
    nodes w' !! this = Some {| m_brush := Brush_setNode this b;
                               m_vertexCacheValid := false;
                               m_issuesValid := false |}.
Proof.
  intros Hst.
  unfold setBrush, scoped, bind, assignBrush, setNode, invalidateIssues, invalidateVertexCache.
  simpl. rewrite Hst. simpl.
  rewrite lookup_insert_eq. simpl. rewrite lookup_insert_eq. simpl.
  rewrite lookup_insert_eq. simpl.
  eexists. split; [reflexivity|]. simpl. now rewrite lookup_insert_eq.
Qed.

Lemma setFaces_returns_invalid (this : NodeId) (wb : bbox3) (fs : list BrushFace)
    (w w' : World) :
  setFaces this wb fs w = Some (Ok tt, w') -> cacheInvalidAt this w'.
Proof.
  unfold setFaces, scoped, bind, mutateBrush, invalidateIssues, invalidateVertexCache.
  simpl. destruct (nodes w !! this) as [st|]; [|discriminate].
  destruct (brush_mutate (Brush_setFaces wb fs) (m_brush st)) as [b [[]|e]]; simpl.
  - rewrite lookup_insert_eq. simpl. rewrite lookup_insert_eq. simpl.
    intros [= <-]. eexists. simpl. rewrite lookup_insert_eq. split; reflexivity.
  - discriminate.
Qed.

(** The wrappers that only delegate leave the cache flag as the brush call
    found it. *)
Lemma delegating_wrapper_keeps_flag {A : Type} (this : NodeId) (op : BrushMutation A)
    (w : World) (st : BrushNode) :
  nodes w !! this = Some st ->
  exists r w' st',
    scoped NodeChange this (scoped PhysicalBoundsChange this (mutateBrush this op)) w
      = Some (r, w') /\
    nodes w' !! this = Some st' /\
    m_vertexCacheValid st' = m_vertexCacheValid st.
Proof.
  intros Hst. unfold scoped, mutateBrush. simpl. rewrite Hst.
  destruct (brush_mutate op (m_brush st)) as [b r].
  eexists _, _, _. split; [reflexivity|]. simpl. rewrite lookup_insert_eq. split; reflexivity.
Qed.

(** What the wrapper itself does for the renderer cache: [setBrush] always,
    and [setFaces] whenever it returns, leave the cache of the node invalid;
    and no read-only query changes the store, so none invalidates it. *)
Theorem cache_invalidated_by_setBrush_and_setFaces (this : NodeId) (w : World) :
  is_Some (nodes w !! this) ->
  (forall b, exists w', setBrush this b w = Some (Ok tt, w') /\ cacheInvalidAt this w') /\
  (forall wb fs w', setFaces this wb fs w = Some (Ok tt, w') -> cacheInvalidAt this w') /\
  (forall c, exists r, callReadOnly this c w = Some (r, w)).
Proof.
  intros Hthis. split; [|split].
  - intros b. destruct Hthis as [st Hst].
    destruct (setBrush_runs this b w st Hst) as (w' & Hrun & Hnode).
    exists w'. split; [exact Hrun|]. eexists. split; [exact Hnode|reflexivity].
  - intros wb fs w'. apply setFaces_returns_invalid.
  - intros c. now apply readOnly_frame.
Qed.


(** *** Construction of nodes *)

Definition freshNode (b : Brush) (this : NodeId) : BrushNode :=
  {| m_brush := Brush_setNode this b; m_vertexCacheValid := false; m_issuesValid := false |}.

Lemma fresh_is_unused (w : World) : nodes w !! fresh (dom (nodes w)) = None.
Proof. apply not_elem_of_dom. apply is_fresh. Qed.

Lemma newBrushNode_runs (b : Brush) (w : World) :
  exists this w',
    newBrushNode b w = Some (Ok this, w') /\
    nodes w !! this = None /\
    nodes w' = <[this := freshNode b this]> (nodes w) /\
    log w' = log w.
Proof.
  eexists _, _. split; [reflexivity|]. split; [apply fresh_is_unused|]. split; reflexivity.
Qed.

(** *** Subtraction *)

Definition createdFrom (w w' : World) (id : NodeId) (fragment : Brush) : Prop :=
  nodes w !! id = None /\
  exists st, nodes w' !! id = Some st /\ m_brush st = Brush_setNode id fragment.

(** A factory whose [createBrush] constructs a new owning node: it
    returns the address, unused so far, of a node that holds the brush
    with the back-pointer set, and changes nothing else. *)
Definition constructsOwningNodes (factory : ModelFactory) : Prop :=
  forall b w, exists id st w',
    createBrush factory b w = Some (Ok id, w') /\
    nodes w !! id = None /\
    m_brush st = Brush_setNode id b /\
    nodes w' = <[id := st]> (nodes w) /\
    log w' = log w.

Lemma nodeFactory_constructsOwningNodes : constructsOwningNodes nodeFactory.
Proof.
  intros b w. destruct (newBrushNode_runs b w) as (id & w' & Hrun & Hnew & Hnodes & Hlog).
  exists id, (freshNode b id), w'. repeat split; assumption.
Qed.

Lemma vec_transform_createBrush (factory : ModelFactory) (fragments : list Brush) (w : World) :
  constructsOwningNodes factory ->
  exists ids w',
    vec_transform (createBrush factory) fragments w = Some (Ok ids, w') /\
    Forall2 (createdFrom w w') ids fragments /\
    NoDup ids /\
    (forall n, is_Some (nodes w !! n) -> nodes w' !! n = nodes w !! n) /\
    log w' = log w.
Proof.
  intros Hfactory. revert w. induction fragments as [|b rest IH]; intros w.
  - exists [], w. simpl. repeat split; auto using NoDup_nil_2.
  - destruct (Hfactory b w) as (id & st & w1 & Hrun & Hnew & Hst & Hnodes & Hlog1).
    destruct (IH w1) as (ids & w' & Hrest & Hcreated & Hnodup & Hkept & Hlog).
    assert (Hid1 : nodes w1 !! id = Some st).
    { rewrite Hnodes. apply lookup_insert_eq. }
    exists (id :: ids), w'. split; [|split; [|split; [|split]]].
    + simpl. unfold bind. rewrite Hrun, Hrest. reflexivity.
    + constructor.
      * split; [exact Hnew|]. exists st.
        rewrite (Hkept id) by (rewrite Hid1; eauto). split; [exact Hid1|exact Hst].
      * eapply Forall2_impl; [exact Hcreated|].
        intros id' frag [Hnone Hsome]. split; [|exact Hsome].
        rewrite Hnodes in Hnone. now apply lookup_insert_None in Hnone.
    + apply NoDup_cons_2; [|exact Hnodup].
      intros Hin. apply list_elem_of_lookup in Hin as [i Hi].
      destruct (Forall2_lookup_l _ _ _ _ _ Hcreated Hi) as (frag & _ & Hnone & _).
      congruence.
    + intros n Hn. rewrite Hkept.
      * rewrite Hnodes. apply lookup_insert_ne. intros <-. rewrite Hnew in Hn.
        now destruct Hn.
      * rewrite Hnodes. destruct (decide (id = n)) as [->|Hne].
        -- rewrite lookup_insert_eq. eauto.
        -- now rewrite lookup_insert_ne.
    + congruence.
Qed.

Definition holdsBrush (w : World) (n : NodeId) (b : Brush) : Prop :=
  exists st, nodes w !! n = Some st /\ m_brush st = b.

Lemma bind_ok {A B : Type} (m : M A) (k : A -> M B) (w w1 : World) (a : A) :
  m w = Some (Ok a, w1) -> bind m k w = k a w1.
Proof. intros Hm. unfold bind. now rewrite Hm. Qed.

Lemma brush_reads (n : NodeId) (b : Brush) (w : World) :
  holdsBrush w n b -> brush n w = Some (Ok b, w).
Proof.
  intros (st & Hst & <-). unfold brush, bind, deref. now rewrite Hst.
Qed.

Lemma vec_transform_brush (ns : list NodeId) (bs : list Brush) (w : World) :
  Forall2 (holdsBrush w) ns bs ->
  vec_transform brush ns w = Some (Ok bs, w).
Proof.
  induction 1 as [|n b ns bs Hn _ IH]; simpl; [reflexivity|].
  rewrite (bind_ok _ _ w w b (brush_reads n b w Hn)).
  now rewrite (bind_ok _ _ w w bs IH).
Qed.

(** C4.  Given a factory that constructs owning nodes, [subtract] returns
    one node per fragment brush that the brush's [subtract] yields (none
    for no fragment), each the result of the factory's [createBrush] on
    that fragment, at an address unused before and holding the fragment;
    the minuend node, every other earlier node and the log are as they
    were. *)
Theorem subtract_creates_one_node_per_fragment (this : NodeId) (factory : ModelFactory)
    (worldBounds : bbox3) (defaultTextureName : string) (subtrahends : list NodeId)
    (subtrahendBrushes fragments : list Brush) (w : World) (st : BrushNode) :
  constructsOwningNodes factory ->
  nodes w !! this = Some st ->
  Forall2 (holdsBrush w) subtrahends subtrahendBrushes ->
  brush_query (Brush_subtract worldBounds defaultTextureName subtrahendBrushes) (m_brush st)
    = Ok fragments ->
  exists ids w',
    subtract this factory worldBounds defaultTextureName subtrahends w
      = Some (Ok ids, w') /\
    vec_transform (createBrush factory) fragments w = Some (Ok ids, w') /\
    Forall2 (createdFrom w w') ids fragments /\
    NoDup ids /\
    nodes w' !! this = Some st /\
    (forall n, is_Some (nodes w !! n) -> nodes w' !! n = nodes w !! n) /\
    log w' = log w.
Proof.
  intros Hfactory Hst Hsubs Hquery.
  destruct (vec_transform_createBrush factory fragments w Hfactory)
    as (ids & w' & Hrun & Hcreated & Hnodup & Hkept & Hlog).
  exists ids, w'. split; [|split; [exact Hrun|]].
  - unfold subtract, bind. rewrite (vec_transform_brush _ _ _ Hsubs).
    rewrite (queryBrush_frame this _ w st Hst), Hquery. exact Hrun.
  - repeat split; auto. rewrite Hkept; eauto.
Qed.

(** The overload with one subtrahend is the call with the one-element
    vector. *)
Lemma subtract1_is_subtract (this : NodeId) (factory : ModelFactory) (worldBounds : bbox3)
    (defaultTextureName : string) (subtrahend : NodeId) (w : World) :
  subtract1 this factory worldBounds defaultTextureName subtrahend w
  = subtract this factory worldBounds defaultTextureName [subtrahend] w.
Proof.
  unfold subtract1, subtract, vec_transform, brush, bind, deref, ret.
  now destruct (nodes w !! subtrahend).
Qed.

End NodeFacts.

(** ** The theorems on the sample store *)

Definition sampleRay : ray3 := mkRay3 origin3 (mkVec3 PrimFloat.one PrimFloat.zero PrimFloat.zero).

Example sampleWorld_node1 :
  nodes sampleWorld !! 1%positive = Some (sampleNode 1%positive [faceA; faceB] true).
Proof. reflexivity. Qed.

Example sampleWorld_node2 :
  nodes sampleWorld !! 2%positive = Some (sampleNode 2%positive [faceB] true).
Proof. reflexivity. Qed.

(** A mutation that throws is bracketed like one that returns. *)
Example removeVertices_throws_between_notifications :
  (let r := callMutating 1%positive (Call_removeVertices unitBounds []) sampleWorld in
   option_map fst r = Some (Throw GeometryException) /\
   option_map (fun x => log (snd x)) r = Some (guardedWrite 1%positive)).
Proof. split; reflexivity. Qed.

Lemma notifications_bracket_every_mutation_witness :
  exists r w',
    callMutating 1%positive (Call_removeVertices unitBounds []) sampleWorld = Some (r, w') /\
    log w' = log sampleWorld ++ guardedWrite 1%positive.
Proof.
  apply (notifications_bracket_every_mutation 1%positive
           (Call_removeVertices unitBounds []) sampleWorld).
  - exists (sampleNode 1%positive [faceA; faceB] true). reflexivity.
  - exact I.
Defined.

Lemma queries_change_nothing_witness :
  exists r w',
    callReadOnly 1%positive (Call_containsPoint origin3) sampleWorld = Some (r, w') /\
    log w' = log sampleWorld /\ nodes w' = nodes sampleWorld.
Proof.
  apply (queries_change_nothing 1%positive (Call_containsPoint origin3) sampleWorld).
  exists (sampleNode 1%positive [faceA; faceB] true). reflexivity.
Defined.

(** The wrapper of [moveVertices] holds no call of [invalidateVertexCache]:
    with a kernel that works on the brush alone, the call returns with the
    cache as valid as it found it. *)
Example moveVertices_keeps_cache_valid :
  (let r := moveVertices 1%positive unitBounds [] origin3 false sampleWorld in
   option_map fst r = Some (Ok []) /\
   option_map (fun x => m_vertexCacheValid <$> nodes (snd x) !! 1%positive) r
     = Some (Some true)).
Proof. split; reflexivity. Qed.

(** A kernel whose every operation throws.  With it [setFaces] skips the
    calls that follow the brush call. *)
Definition throwingKernel : BrushKernel := {|
  brush_mutate := fun A _ b => (b, Throw GeometryException);
  brush_query := sample_query;
  tagBits := 8%N;
  face_hasAnyTag := fun _ => false;
  face_hasTag := fun _ _ => false;
  face_intersectWithRay := fun _ _ => PrimFloat.nan;
  intersect_ray_bbox := fun _ _ => PrimFloat.nan;
  point_at_distance := fun r _ => ray_origin r
|}.

Example setFaces_throwing_keeps_cache_valid :
  (let r := setFaces (K:=throwingKernel) 1%positive unitBounds [] sampleWorld in
   option_map fst r = Some (Throw GeometryException) /\
   option_map (fun x => m_vertexCacheValid <$> nodes (snd x) !! 1%positive) r
     = Some (Some true)).
Proof. split; reflexivity. Qed.

Lemma cache_invalidated_by_setBrush_and_setFaces_witness :
  (forall b, exists w',
      setBrush 1%positive b sampleWorld = Some (Ok tt, w') /\ cacheInvalidAt 1%positive w') /\
  (forall wb fs w',
      setFaces 1%positive wb fs sampleWorld = Some (Ok tt, w') -> cacheInvalidAt 1%positive w') /\
  (forall c, exists r, callReadOnly 1%positive c sampleWorld = Some (r, sampleWorld)).
Proof.
  apply (cache_invalidated_by_setBrush_and_setFaces 1%positive sampleWorld).
  exists (sampleNode 1%positive [faceA; faceB] true). reflexivity.
Defined.


(** Called with the node itself as argument, [intersect] changes that
    node: here its faces are doubled. *)
Example intersect_with_itself_changes_the_node :
  option_map (fun x => (m_faces ∘ m_brush) <$> nodes (snd x) !! 1%positive)
             (intersect 1%positive unitBounds 1%positive sampleWorld)
  = Some (Some [faceA; faceB; faceA; faceB]).
Proof. reflexivity. Qed.

Lemma subtract_creates_one_node_per_fragment_witness :
  exists ids w',
    subtract 1%positive nodeFactory unitBounds EmptyString [2%positive] sampleWorld
      = Some (Ok ids, w') /\
    length ids = 2%nat /\
    nodes w' !! 1%positive = Some (sampleNode 1%positive [faceA; faceB] true) /\
    log w' = [].
Proof.
  destruct (subtract_creates_one_node_per_fragment 1%positive nodeFactory unitBounds EmptyString
              [2%positive] [m_brush (sampleNode 2%positive [faceB] true)]
              (map (fun f => with_faces [f] (m_brush (sampleNode 1%positive [faceA; faceB] true)))
                   [faceA; faceB])
              sampleWorld (sampleNode 1%positive [faceA; faceB] true))
    as (ids & w' & Hrun & _ & Hcreated & _ & Hthis & _ & Hlog).
  - apply nodeFactory_constructsOwningNodes.
  - reflexivity.
  - constructor; [|constructor]. eexists. split; reflexivity.
  - reflexivity.
  - exists ids, w'. split; [exact Hrun|]. split; [|split; [exact Hthis|exact Hlog]].
    apply Forall2_length in Hcreated. exact Hcreated.
Defined.

Lemma doPick_reports_first_face_witness :
  doPick 1%positive sampleRay [] sampleWorld
  = Some (Ok [mkHit BrushHitType PrimFloat.one origin3 (mkBrushFaceHandle 1%positive faceB)],
          sampleWorld).
Proof.
  destruct (doPick_reports_first_face 1%positive (sampleNode 1%positive [faceA; faceB] true)
              sampleRay [] sampleWorld) as (pr & Hrun & _ & _ & Hhit).
  - reflexivity.
  - destruct (Hhit eq_refl) as [_ Hfirst].
    rewrite Hrun, (Hfirst [faceA] faceB []); [reflexivity|reflexivity| |reflexivity].
    constructor; [reflexivity|constructor].
Defined.

(** A brush in a group in an entity in a layer of the world belongs to the
    entity; a brush directly in a layer belongs to the world; a brush
    without parent has no owner. *)
Definition worldRoot : SceneNode := RootNode 10%positive WorldNode.
Definition defaultLayer : SceneNode := ChildNode 11%positive LayerNode worldRoot.
Definition anEntity : SceneNode := ChildNode 12%positive EntityNode defaultLayer.
Definition aGroup : SceneNode := ChildNode 13%positive GroupNode anEntity.

Example entity_of_grouped_brush :
  entity (ChildNode 14%positive BrushNodeKind aGroup) = Some anEntity.
Proof. reflexivity. Qed.

Example entity_of_world_brush :
  entity (ChildNode 14%positive BrushNodeKind defaultLayer) = Some worldRoot.
Proof. reflexivity. Qed.

Example entity_of_detached_brush :
  entity (RootNode 14%positive BrushNodeKind) = None.
Proof. reflexivity. Qed.

Lemma entity_is_nearest_owner_witness :
  entity (ChildNode 14%positive BrushNodeKind aGroup) = Some anEntity.
Proof.
  destruct (entity_is_nearest_owner (ChildNode 14%positive BrushNodeKind aGroup))
    as (_ & _ & Hfirst & _).
  apply (Hfirst [aGroup] anEntity [defaultLayer; worldRoot]).
  - reflexivity.
  - constructor; [reflexivity|constructor].
  - reflexivity.
Defined.

Example entity_without_owner :
  entity (ChildNode 14%positive BrushNodeKind (RootNode 11%positive LayerNode)) = None.
Proof. reflexivity. Qed.

End Model.

(** * The faces of a brush as objects

    [Model] keeps the faces of a brush as values.  In the code a brush
    holds its faces through pointers (a [std::vector<BrushFace*>], as
    [BrushNode::faces] returns it), so that two brushes can refer to one
    face object.  Here the face objects live in a heap of their own next to
    the nodes, and a brush holds their addresses, to say which node reaches
    which face.  [Brush] and [BrushFace] are not part of these files: what a
    face object holds, what a brush holds besides its faces, and the
    operations of the brush with their arguments are the parameters
    [Face], [Geometry] and [Operation]. *)

Module BrushOwnership.

#[local] Abbreviation NodeId := Model.NodeId.
#[local] Abbreviation Outcome := Model.Outcome.
#[local] Abbreviation Ok := Model.Ok.
#[local] Abbreviation Throw := Model.Throw.
#[local] Abbreviation Event := Model.Event.
#[local] Abbreviation Guard := Model.Guard.
#[local] Abbreviation NodeChange := Model.NodeChange.
#[local] Abbreviation PhysicalBoundsChange := Model.PhysicalBoundsChange.
#[local] Abbreviation Acquire := Model.Acquire.
#[local] Abbreviation Release := Model.Release.
#[local] Abbreviation BrushWrite := Model.BrushWrite.

(** The address of a face object ([BrushFace*]). *)
Definition FaceId : Type := positive.

Section Heap.
Context {Face Geometry : Type} {Operation : Type -> Type}.

(** The brush: its back-pointer [m_node], the addresses of its faces in
    their order, and the rest of it. *)
Record Brush : Type := mkBrush {
  m_node : option NodeId;
  m_faces : list FaceId;
  m_geometry : Geometry
}.

(** Modelled from the spec: [Brush::setNode] is not in these files; the
    brush's back-pointer is made to refer to the given node. *)
Definition Brush_setNode (node : NodeId) (b : Brush) : Brush :=
  {| m_node := Some node; m_faces := m_faces b; m_geometry := m_geometry b |}.

(** The operations of [Brush] and [BrushFace::clone].  An operation works
    on the brush and on the face objects; [handedOver] are the faces an
    operation takes as an argument to keep, as [Brush::setFaces] does. *)
Class FaceKernel : Type := {
  brush_apply : forall A : Type,
    Operation A -> Brush -> gmap FaceId Face -> Brush * gmap FaceId Face * Outcome A;
  handedOver : forall A : Type, Operation A -> list FaceId;
  face_clone : Face -> Face
}.

(** The node: the brush it holds by value and the state of what it derives
    from the brush. *)
Record BrushNode : Type := mkBrushNode {
  m_brush : Brush;
  m_vertexCacheValid : bool;
  m_issuesValid : bool
}.

Record Heap : Type := mkHeap {
  nodes : gmap NodeId BrushNode;
  faces : gmap FaceId Face;
  log : list Event
}.

(** A method body, as in [Model]: [None] is a use of a pointer to no
    object. *)
Definition M (A : Type) : Type := Heap -> option (Outcome A * Heap).

Definition ret {A : Type} (a : A) : M A := fun h => Some (Ok a, h).

Definition bind {A B : Type} (m : M A) (k : A -> M B) : M B := fun h =>
  match m h with
  | None => None
  | Some (Model.Ok a, h') => k a h'
  | Some (Model.Throw e, h') => Some (Throw e, h')
  end.

Declare Scope heap_scope.
Delimit Scope heap_scope with heap.
Notation "x <- m ;; k" := (bind m (fun x => k))
  (at level 100, m at next level, right associativity) : heap_scope.
Notation "m ;; k" := (bind m (fun _ => k))
  (at level 100, right associativity) : heap_scope.
Local Open Scope heap_scope.

Definition emit (ev : Event) (h : Heap) : Heap :=
  {| nodes := nodes h; faces := faces h; log := log h ++ [ev] |}.

Definition scoped {A : Type} (g : Guard) (node : NodeId) (body : M A) : M A := fun h =>
  match body (emit (Acquire g node) h) with
  | None => None
  | Some (r, h') => Some (r, emit (Release g node) h')
  end.

Definition store (node : NodeId) (st : BrushNode) (h : Heap) : Heap :=
  {| nodes := <[node := st]> (nodes h); faces := faces h; log := log h |}.

Definition with_brush (b : Brush) (st : BrushNode) : BrushNode :=
  {| m_brush := b; m_vertexCacheValid := m_vertexCacheValid st;
     m_issuesValid := m_issuesValid st |}.

(** Modelled from the spec: the copy constructor of [Brush] is not in these
    files.  A brush owns its faces and is constructed from a prior brush as
    a copy: for each face of the original, in their order, the copy gets a
    face object of its own, made by [BrushFace::clone] at an address not in
    use. *)
Fixpoint copyFaces `{K : FaceKernel} (fs : list FaceId) (heap : gmap FaceId Face)
    : option (list FaceId * gmap FaceId Face) :=
  match fs with
  | [] => Some ([], heap)
  | f :: rest =>
      match heap !! f with
      | None => None
      | Some face =>
          let f' := fresh (dom heap) in
          match copyFaces rest (<[f' := face_clone face]> heap) with
          | None => None
          | Some (fs', heap') => Some (f' :: fs', heap')
          end
      end
  end.

(** Modelled from the spec: [Brush(const Brush&)], not in these files; the
    copy has faces of its own, see [copyFaces], and the rest of the
    original. *)
Definition Brush_copy `{K : FaceKernel} (other : Brush) (heap : gmap FaceId Face)
    : option (Brush * gmap FaceId Face) :=
  match copyFaces (m_faces other) heap with
  | None => None
  | Some (fs, heap') =>
      Some ({| m_node := m_node other; m_faces := fs; m_geometry := m_geometry other |}, heap')
  end.

Section Methods.
Context `{K : FaceKernel}.

(** [node->m_brush.op(...)] for a mutating [op] *)
Definition mutateBrush {A : Type} (node : NodeId) (op : Operation A) : M A := fun h =>
  match nodes h !! node with
  | None => None
  | Some st =>
      let '(b, heap, r) := brush_apply A op (m_brush st) (faces h) in
      Some (r, {| nodes := <[node := with_brush b st]> (nodes h);
                  faces := heap;
                  log := log h ++ [BrushWrite node] |})
  end.

(** [node->m_brush = std::move(brush)]: the node takes the brush over with
    the faces it refers to.  What becomes of the faces of the brush it held
    is up to [Brush]; they stay in the heap. *)
Definition assignBrush (node : NodeId) (brush : Brush) : M unit := fun h =>
  match nodes h !! node with
  | None => None
  | Some st => Some (Ok tt, store node (with_brush brush st) (emit (BrushWrite node) h))
  end.

(** [node->m_brush.setNode(target)] *)
Definition setNode (node target : NodeId) : M unit := fun h =>
  match nodes h !! node with
  | None => None
  | Some st => Some (Ok tt, store node (with_brush (Brush_setNode target (m_brush st)) st) h)
  end.

(** [Node::invalidateIssues] *)
Definition invalidateIssues (this : NodeId) : M unit := fun h =>
  match nodes h !! this with
  | None => None
  | Some st =>
      Some (Ok tt, store this {| m_brush := m_brush st;
                                 m_vertexCacheValid := m_vertexCacheValid st;
                                 m_issuesValid := false |} h)
  end.

(** [BrushNode::invalidateVertexCache] *)
Definition invalidateVertexCache (this : NodeId) : M unit := fun h =>
  match nodes h !! this with
  | None => None
  | Some st =>
      Some (Ok tt, store this {| m_brush := m_brush st;
                                 m_vertexCacheValid := false;
                                 m_issuesValid := m_issuesValid st |} h)
  end.

(** [BrushNode::BrushNode(Brush brush)]: a node at a fresh address that
    takes [brush] over, [m_brush(std::move(brush))], and sets the
    back-pointer; its renderer cache is new and not yet valid. *)
Definition newBrushNode (brush : Brush) : M NodeId := fun h =>
  let this := fresh (dom (nodes h)) in
  Some (Ok this,
        store this {| m_brush := Brush_setNode this brush;
                      m_vertexCacheValid := false;
                      m_issuesValid := false |} h).

(** [BrushNode::setBrush] *)
Definition setBrush (this : NodeId) (brush : Brush) : M unit :=
  scoped NodeChange this
    (scoped PhysicalBoundsChange this
       (assignBrush this brush ;;
        setNode this this ;;
        invalidateIssues this ;;
        invalidateVertexCache this)).

(** [BrushNode::setFaces], with [op] the brush's [setFaces] and its
    arguments *)
Definition setFaces (this : NodeId) (op : Operation unit) : M unit :=
  scoped NodeChange this
    (scoped PhysicalBoundsChange this
       (mutateBrush this op ;;
        invalidateIssues this ;;
        invalidateVertexCache this)).

(** [BrushNode::moveVertices], [addVertex], [removeVertices],
    [snapVertices], [moveEdges], [moveFaces], [intersect],
    [findIntegerPlanePoints] and [doTransform]: the two guards around one
    operation [op] of the brush. *)
Definition delegate {A : Type} (this : NodeId) (op : Operation A) : M A :=
  scoped NodeChange this (scoped PhysicalBoundsChange this (mutateBrush this op)).

(** [BrushNode::doClone]: [new BrushNode(m_brush)] copies the brush into
    the constructor's parameter. *)
Definition doClone (this : NodeId) (worldBounds : Model.bbox3) : M NodeId := fun h =>
  match nodes h !! this with
  | None => None
  | Some st =>
      match Brush_copy (m_brush st) (faces h) with
      | None => None
      | Some (copy, heap) =>
          newBrushNode copy {| nodes := nodes h; faces := heap; log := log h |}
      end
  end.

(** [BrushNode::clone]; [Node::clone] hands the work to [doClone]. *)
Definition clone (this : NodeId) (worldBounds : Model.bbox3) : M NodeId :=
  doClone this worldBounds.

(** The mutating entry points of a node. *)
Inductive MutatingCall : Type :=
| Call_setBrush (brush : Brush)
| Call_setFaces (op : Operation unit)
| Call_delegate {A : Type} (op : Operation A).

Definition discard {A : Type} (m : M A) : M unit := _ <- m ;; ret tt.

Definition callMutating (this : NodeId) (c : MutatingCall) : M unit :=
  match c with
  | Call_setBrush brush => setBrush this brush
  | Call_setFaces op => setFaces this op
  | Call_delegate op => discard (delegate this op)
  end.

(** The faces a call brings along. *)
Definition handedFaces (c : MutatingCall) : list FaceId :=
  match c with
  | Call_setBrush brush => m_faces brush
  | Call_setFaces op => handedOver unit op
  | @Call_delegate A op => handedOver A op
  end.

(** Calls made one after the other on a node, by a caller that goes on
    after an exception. *)
Fixpoint callAll (this : NodeId) (calls : list MutatingCall) (h : Heap) : option Heap :=
  match calls with
  | [] => Some h
  | c :: rest =>
      match callMutating this c h with
      | None => None
      | Some (_, h') => callAll this rest h'
      end
  end.

(** *** Who owns which face *)

Definition allocated (heap : gmap FaceId Face) (fs : list FaceId) : Prop :=
  forall f, f ∈ fs -> is_Some (heap !! f).

Definition apart (fs gs : list FaceId) : Prop :=
  forall f, f ∈ fs -> f ∉ gs.

(** Every node is the owner its brush names, the faces of its brush exist,
    and no face belongs to the brushes of two nodes. *)
Definition ownedExclusively (h : Heap) : Prop :=
  (forall n st, nodes h !! n = Some st -> m_node (m_brush st) = Some n) /\
  (forall n st, nodes h !! n = Some st -> allocated (faces h) (m_faces (m_brush st))) /\
  (forall n1 n2 st1 st2, n1 <> n2 ->
     nodes h !! n1 = Some st1 -> nodes h !! n2 = Some st2 ->
     apart (m_faces (m_brush st1)) (m_faces (m_brush st2))).

(** A brush that is handed to a node: its faces exist and belong to the
    brush of no node. *)
Definition unowned (h : Heap) (brush : Brush) : Prop :=
  allocated (faces h) (m_faces brush) /\
  forall n st, nodes h !! n = Some st -> apart (m_faces brush) (m_faces (m_brush st)).

(** What [Brush] owes the faces of other brushes: an operation writes no
    face object but those of its brush and those it is handed, and the
    faces it leaves its brush with are among these or new. *)
Definition keepsToItsFaces : Prop :=
  forall (A : Type) (op : Operation A) (b b' : Brush) (heap heap' : gmap FaceId Face)
         (r : Outcome A),
    brush_apply A op b heap = (b', heap', r) ->
    (forall f, is_Some (heap !! f) -> f ∉ m_faces b -> f ∉ handedOver A op ->
               heap' !! f = heap !! f) /\
    (forall f, f ∈ m_faces b' -> f ∈ m_faces b \/ f ∈ handedOver A op \/ heap !! f = None).

(** What a call leaves of the brush and the faces. *)
Definition leaves (this : NodeId) (c : MutatingCall) (b : Brush) (heap : gmap FaceId Face)
    (b' : Brush) (heap' : gmap FaceId Face) : Prop :=
  match c with
  | Call_setBrush brush => b' = Brush_setNode this brush /\ heap' = heap
  | Call_setFaces op => fst (brush_apply unit op b heap) = (b', heap')
  | @Call_delegate A op => fst (brush_apply A op b heap) = (b', heap')
  end.

(** *** Facts *)

Lemma apart_sym (fs gs : list FaceId) : apart fs gs -> apart gs fs.
Proof. intros H f Hg Hf. exact (H f Hf Hg). Qed.

Lemma Forall2_among {A B : Type} (P Q : A -> B -> Prop) (xs : list A) (ys : list B) :
  Forall2 P xs ys ->
  (forall x y, x ∈ xs -> y ∈ ys -> P x y -> Q x y) ->
  Forall2 Q xs ys.
Proof.
  induction 1 as [|x y xs ys Hxy _ IH]; intros HPQ; constructor.
  - apply HPQ; [apply elem_of_cons; now left|apply elem_of_cons; now left|exact Hxy].
  - apply IH. intros x0 y0 Hx Hy. apply HPQ; apply elem_of_cons; now right.
Qed.

Lemma fresh_node_is_unused (h : Heap) : nodes h !! fresh (dom (nodes h)) = None.
Proof. apply not_elem_of_dom. apply is_fresh. Qed.

(** The copy of a list of faces: as many new face objects, each the clone
    of the face at its place, at addresses that were not in use and differ
    from each other; what was in the heap stays as it was. *)
Lemma copyFaces_runs (fs : list FaceId) :
  forall heap, allocated heap fs ->
  exists fs' heap',
    copyFaces fs heap = Some (fs', heap') /\
    Forall2 (fun f f' => heap' !! f' = face_clone <$> heap' !! f) fs fs' /\
    (forall g, is_Some (heap !! g) -> heap' !! g = heap !! g) /\
    (forall f', f' ∈ fs' -> heap !! f' = None /\ is_Some (heap' !! f')) /\
    NoDup fs'.
Proof.
  induction fs as [|f rest IH]; intros heap Halloc.
  - exists [], heap. simpl. split; [reflexivity|]. split; [constructor|].
    split; [reflexivity|]. split; [|constructor].
    intros f' Hin. now apply elem_of_nil in Hin.
  - destruct (Halloc f) as [face Hf]; [apply elem_of_cons; now left|].
    simpl. rewrite Hf.
    set (f' := fresh (dom heap)).
    assert (Hfresh : heap !! f' = None) by (apply not_elem_of_dom, is_fresh).
    assert (Hkept : forall g, is_Some (heap !! g) ->
                             <[f' := face_clone face]> heap !! g = heap !! g).
    { intros g Hg. apply lookup_insert_ne. intros <-. rewrite Hfresh in Hg.
      now destruct Hg. }
    destruct (IH (<[f' := face_clone face]> heap))
      as (fs' & heap' & Hcopy & Hall & Hframe & Hnew & Hdup).
    { intros g Hg. rewrite Hkept; apply Halloc, elem_of_cons; now right. }
    assert (Hf' : heap' !! f' = Some (face_clone face)).
    { rewrite Hframe; rewrite lookup_insert_eq; eauto. }
    rewrite Hcopy. exists (f' :: fs'), heap'. split; [reflexivity|].
    split; [|split; [|split]].
    + constructor; [|exact Hall].
      rewrite Hf', Hframe, Hkept, Hf by (rewrite ?Hkept, Hf; eauto). reflexivity.
    + intros g Hg. rewrite Hframe by (rewrite Hkept; exact Hg). now apply Hkept.
    + intros g Hg. apply elem_of_cons in Hg as [->|Hg].
      * split; [exact Hfresh|]. rewrite Hf'. eauto.
      * destruct (Hnew g Hg) as [Hnone Hsome]. split; [|exact Hsome].
        now apply lookup_insert_None in Hnone.
    + apply NoDup_cons. split; [|exact Hdup].
      intros Hin. destruct (Hnew f' Hin) as [Hnone _].
      now rewrite lookup_insert_eq in Hnone.
Qed.

Lemma newBrushNode_takes_over (brush : Brush) (h : Heap) :
  exists this,
    newBrushNode brush h
      = Some (Ok this,
              store this {| m_brush := Brush_setNode this brush;
                            m_vertexCacheValid := false;
                            m_issuesValid := false |} h) /\
    nodes h !! this = None.
Proof. eexists. split; [reflexivity|]. apply fresh_node_is_unused. Qed.

Lemma setBrush_takes_over (this : NodeId) (brush : Brush) (h : Heap) (st : BrushNode) :
  nodes h !! this = Some st ->
  exists h',
    setBrush this brush h = Some (Ok tt, h') /\
    nodes h' = <[this := {| m_brush := Brush_setNode this brush;
                            m_vertexCacheValid := false;
                            m_issuesValid := false |}]> (nodes h) /\
    faces h' = faces h.
Proof.
  intros Hst.
  unfold setBrush, scoped, bind, assignBrush, setNode, invalidateIssues, invalidateVertexCache.
  simpl. rewrite Hst. simpl.
  rewrite lookup_insert_eq. simpl. rewrite lookup_insert_eq. simpl.
  rewrite lookup_insert_eq. simpl.
  eexists. split; [reflexivity|]. simpl. rewrite !insert_insert_eq. split; reflexivity.
Qed.

(** Every mutating call on a node that exists runs, writes that node only,
    and leaves of the brush and the faces what [leaves] says. *)
Lemma callMutating_runs (this : NodeId) (c : MutatingCall) (h : Heap) (st : BrushNode) :
  nodes h !! this = Some st ->
  exists r h' st',
    callMutating this c h = Some (r, h') /\
    nodes h' = <[this := st']> (nodes h) /\
    leaves this c (m_brush st) (faces h) (m_brush st') (faces h').
Proof.
  intros Hst. destruct c as [brush|op|A op].
  - destruct (setBrush_takes_over this brush h st Hst) as (h' & Hrun & Hnodes & Hfaces).
    exists (Ok tt), h'. eexists. split; [exact Hrun|]. split; [exact Hnodes|].
    split; [reflexivity|exact Hfaces].
  - unfold callMutating, setFaces, scoped, bind, mutateBrush, invalidateIssues,
      invalidateVertexCache, leaves.
    simpl. rewrite Hst.
    destruct (brush_apply unit op (m_brush st) (faces h)) as [[b heap] [[]|e]]; simpl.
    + rewrite lookup_insert_eq. simpl. rewrite lookup_insert_eq. simpl.
      eexists _, _, _. split; [reflexivity|]. simpl. rewrite !insert_insert_eq.
      split; reflexivity.
    + eexists _, _, _. split; [reflexivity|]. simpl. split; reflexivity.
  - unfold callMutating, discard, delegate, scoped, bind, mutateBrush, leaves.
    simpl. rewrite Hst.
    destruct (brush_apply A op (m_brush st) (faces h)) as [[b heap] [a|e]]; simpl;
      (eexists _, _, _; split; [reflexivity|]; simpl; split; reflexivity).
Qed.

(** The original and its copy, as long as no face of the one is a face of
    the other: the original is the node it was, and its faces are the
    objects they were. *)
Definition keptApart (this copy : NodeId) (st : BrushNode) (before : gmap FaceId Face)
    (h : Heap) : Prop :=
  nodes h !! this = Some st /\
  (forall f, f ∈ m_faces (m_brush st) -> is_Some (before !! f) /\ faces h !! f = before !! f) /\
  exists stc, nodes h !! copy = Some stc /\
              apart (m_faces (m_brush st)) (m_faces (m_brush stc)).

Lemma callMutating_keptApart (this copy : NodeId) (st : BrushNode)
    (before : gmap FaceId Face) (c : MutatingCall) (h : Heap) :
  keepsToItsFaces ->
  this <> copy ->
  apart (m_faces (m_brush st)) (handedFaces c) ->
  keptApart this copy st before h ->
  exists r h', callMutating copy c h = Some (r, h') /\ keptApart this copy st before h'.
Proof.
  intros Hkernel Hne Hhanded (Hthis & Hfaces & stc & Hcopy & Hapart).
  destruct (callMutating_runs copy c h stc Hcopy) as (r & h' & stc' & Hrun & Hnodes & Hleft).
  exists r, h'. split; [exact Hrun|].
  assert (Hstep : (forall f, f ∈ m_faces (m_brush st) -> faces h' !! f = faces h !! f) /\
                  apart (m_faces (m_brush st)) (m_faces (m_brush stc'))).
  { destruct c as [brush|op|A op]; simpl in Hleft, Hhanded.
    - destruct Hleft as [-> ->]. split; [reflexivity|exact Hhanded].
    - destruct (brush_apply unit op (m_brush stc) (faces h)) as [[b heap] r0] eqn:Happly.
      simpl in Hleft. injection Hleft as -> ->.
      destruct (Hkernel _ _ _ _ _ _ _ Happly) as [Hwrites Hholds]. split.
      + intros f Hf. destruct (Hfaces f Hf) as [Hsome Hsame].
        apply Hwrites; [now rewrite Hsame|now apply Hapart|now apply Hhanded].
      + intros f Hf Hin. destruct (Hfaces f Hf) as [Hsome Hsame].
        destruct (Hholds f Hin) as [Hown|[Hgiven|Hnew]].
        * exact (Hapart f Hf Hown).
        * exact (Hhanded f Hf Hgiven).
        * rewrite <- Hsame, Hnew in Hsome. now destruct Hsome.
    - destruct (brush_apply A op (m_brush stc) (faces h)) as [[b heap] r0] eqn:Happly.
      simpl in Hleft. injection Hleft as -> ->.
      destruct (Hkernel _ _ _ _ _ _ _ Happly) as [Hwrites Hholds]. split.
      + intros f Hf. destruct (Hfaces f Hf) as [Hsome Hsame].
        apply Hwrites; [now rewrite Hsame|now apply Hapart|now apply Hhanded].
      + intros f Hf Hin. destruct (Hfaces f Hf) as [Hsome Hsame].
        destruct (Hholds f Hin) as [Hown|[Hgiven|Hnew]].
        * exact (Hapart f Hf Hown).
        * exact (Hhanded f Hf Hgiven).
        * rewrite <- Hsame, Hnew in Hsome. now destruct Hsome. }
  destruct Hstep as [Hsame Hapart'].
  split; [|split].
  - rewrite Hnodes, lookup_insert_ne by congruence. exact Hthis.
  - intros f Hf. destruct (Hfaces f Hf) as [Hsome Heq]. split; [exact Hsome|].
    now rewrite (Hsame f Hf).
  - exists stc'. split; [|exact Hapart']. rewrite Hnodes. apply lookup_insert_eq.
Qed.

Lemma callAll_keptApart (this copy : NodeId) (st : BrushNode) (before : gmap FaceId Face)
    (calls : list MutatingCall) :
  keepsToItsFaces ->
  this <> copy ->
  Forall (fun c => apart (m_faces (m_brush st)) (handedFaces c)) calls ->
  forall h, keptApart this copy st before h ->
  exists h', callAll copy calls h = Some h' /\ keptApart this copy st before h'.
Proof.
  intros Hkernel Hne Hcalls. induction Hcalls as [|c rest Hc _ IH]; intros h Hkept.
  - exists h. split; [reflexivity|exact Hkept].
  - destruct (callMutating_keptApart this copy st before c h Hkernel Hne Hc Hkept)
      as (r & h1 & Hrun & Hkept1).
    destruct (IH h1 Hkept1) as (h' & Hrest & Hkept').
    exists h'. split; [|exact Hkept']. simpl. now rewrite Hrun.
Qed.

(** A node that is put into the store, or put in the place of one, with a
    brush that names it and whose faces belong to no other node. *)
Lemma ownedExclusively_store (h h' : Heap) (this : NodeId) (st' : BrushNode) :
  ownedExclusively h ->
  nodes h' = <[this := st']> (nodes h) ->
  (forall g, is_Some (faces h !! g) -> is_Some (faces h' !! g)) ->
  m_node (m_brush st') = Some this ->
  allocated (faces h') (m_faces (m_brush st')) ->
  (forall n st, n <> this -> nodes h !! n = Some st ->
                apart (m_faces (m_brush st')) (m_faces (m_brush st))) ->
  ownedExclusively h'.
Proof.
  intros (Hnode & Halloc & Hapart) Hnodes Hkept Hback Hnew Hfresh.
  assert (Hcases : forall n st, nodes h' !! n = Some st ->
            (n = this /\ st = st') \/ (n <> this /\ nodes h !! n = Some st)).
  { intros n st. rewrite Hnodes. destruct (decide (this = n)) as [<-|Hn].
    - rewrite lookup_insert_eq. intros [= <-]. now left.
    - rewrite lookup_insert_ne by exact Hn. intros Hst. right. split; congruence. }
  split; [|split].
  - intros n st Hst. destruct (Hcases n st Hst) as [[-> ->]|[_ Hold]]; [exact Hback|].
    now apply Hnode.
  - intros n st Hst. destruct (Hcases n st Hst) as [[-> ->]|[_ Hold]]; [exact Hnew|].
    intros f Hf. apply Hkept. exact (Halloc n st Hold f Hf).
  - intros n1 n2 st1 st2 Hne H1 H2.
    destruct (Hcases n1 st1 H1) as [[-> ->]|[Hn1 Hold1]];
      destruct (Hcases n2 st2 H2) as [[-> ->]|[Hn2 Hold2]].
    + congruence.
    + now apply (Hfresh n2).
    + apply apart_sym. now apply (Hfresh n1).
    + now apply (Hapart n1 n2).
Qed.

(** C6.  A node holds one brush, by value, and the brush names the node:
    the constructor from a brush and [setBrush] take the brush over with
    its faces and make its back-pointer refer to the node, and keep every
    face with one node only when the brush they are handed shares none.
    [clone] makes a node at an unused address whose brush names it and has
    a face object of its own, the clone of the original's, for each face of
    the original; the original and its faces are as they were, and still no
    two nodes share a face.  Afterwards the mutating calls on the clone,
    whatever faces of other origin they bring along, run and leave the
    original node and its face objects as they were, provided the brush's
    operations write no faces but their own. *)
Theorem clone_owns_a_brush_of_its_own :
  (forall brush h, exists this h' st,
      newBrushNode brush h = Some (Ok this, h') /\
      nodes h !! this = None /\
      nodes h' = <[this := st]> (nodes h) /\
      m_brush st = Brush_setNode this brush /\
      faces h' = faces h /\
      (ownedExclusively h -> unowned h brush -> ownedExclusively h')) /\
  (forall this brush h, is_Some (nodes h !! this) ->
    exists h' st,
      setBrush this brush h = Some (Ok tt, h') /\
      nodes h' = <[this := st]> (nodes h) /\
      m_brush st = Brush_setNode this brush /\
      faces h' = faces h /\
      (ownedExclusively h -> unowned h brush -> ownedExclusively h')) /\
  (forall this st worldBounds h,
    nodes h !! this = Some st ->
    allocated (faces h) (m_faces (m_brush st)) ->
    exists copy h' stc,
      clone this worldBounds h = Some (Ok copy, h') /\
      copy <> this /\
      nodes h !! copy = None /\
      nodes h' = <[copy := stc]> (nodes h) /\
      m_node (m_brush stc) = Some copy /\
      m_geometry (m_brush stc) = m_geometry (m_brush st) /\
      Forall2 (fun f f' => faces h !! f' = None /\
                           faces h' !! f' = face_clone <$> faces h !! f)
        (m_faces (m_brush st)) (m_faces (m_brush stc)) /\
      NoDup (m_faces (m_brush stc)) /\
      (forall g, is_Some (faces h !! g) -> faces h' !! g = faces h !! g) /\
      (ownedExclusively h -> ownedExclusively h') /\
      (keepsToItsFaces ->
       forall calls,
         Forall (fun c => apart (m_faces (m_brush st)) (handedFaces c)) calls ->
         exists h'',
           callAll copy calls h' = Some h'' /\
           nodes h'' !! this = Some st /\
           (forall f, f ∈ m_faces (m_brush st) -> faces h'' !! f = faces h !! f))).
Proof.
  split; [|split].
  - intros brush h. destruct (newBrushNode_takes_over brush h) as (this & Hrun & Hnew).
    eexists this, _, _. split; [exact Hrun|]. split; [exact Hnew|].
    split; [reflexivity|]. split; [reflexivity|]. split; [reflexivity|].
    intros Hown [Halloc Hapart].
    eapply (ownedExclusively_store h _ this); [exact Hown|reflexivity|auto|reflexivity| |].
    + exact Halloc.
    + intros n st _ Hst. now apply (Hapart n).
  - intros this brush h [st Hst].
    destruct (setBrush_takes_over this brush h st Hst) as (h' & Hrun & Hnodes & Hfaces).
    eexists h', _. split; [exact Hrun|]. split; [exact Hnodes|].
    split; [reflexivity|]. split; [exact Hfaces|].
    intros Hown [Halloc Hapart].
    apply (ownedExclusively_store h h' this _ Hown Hnodes).
    + intros g. now rewrite Hfaces.
    + reflexivity.
    + now rewrite Hfaces.
    + intros n stn _ Hstn. now apply (Hapart n).
  - intros this st worldBounds h Hst Halloc.
    destruct (copyFaces_runs (m_faces (m_brush st)) (faces h) Halloc)
      as (fs' & heap' & Hcopy & Hall & Hframe & Hnew & Hdup).
    set (copied := {| m_node := m_node (m_brush st); m_faces := fs';
                      m_geometry := m_geometry (m_brush st) |}).
    set (h1 := {| nodes := nodes h; faces := heap'; log := log h |}).
    destruct (newBrushNode_takes_over copied h1) as (copy & Hrun & Hunused).
    assert (Hne : copy <> this) by (intros ->; simpl in Hunused; congruence).
    eexists copy, _, _. split.
    { unfold clone, doClone, Brush_copy. rewrite Hst, Hcopy. exact Hrun. }
    split; [exact Hne|]. split; [exact Hunused|].
    split; [reflexivity|]. split; [reflexivity|]. split; [reflexivity|].
    assert (Hother : forall n stn f, nodes h !! n = Some stn ->
              (forall g, g ∈ m_faces (m_brush stn) -> is_Some (faces h !! g)) ->
              f ∈ fs' -> f ∉ m_faces (m_brush stn)).
    { intros n stn f _ Hthere Hf Hin. destruct (Hnew f Hf) as [Hnone _].
      destruct (Hthere f Hin) as [x Hx]. congruence. }
    split; [|split; [exact Hdup|split; [exact Hframe|split]]].
    + simpl. apply (Forall2_among _ _ _ _ Hall). intros f f' Hf Hf' Hclone.
      split; [now apply (Hnew f')|].
      now rewrite Hclone, Hframe by now apply Halloc.
    + intros Hown.
      eapply (ownedExclusively_store h1 _ copy); [|reflexivity|auto|reflexivity| |].
      * destruct Hown as (Hnode & Hfaces & Hapart). split; [exact Hnode|]. split; [|exact Hapart].
        intros n stn Hstn f Hf. simpl. rewrite Hframe; now apply (Hfaces n stn).
      * intros f Hf. simpl. now apply (Hnew f).
      * intros n stn _ Hstn f Hf. simpl in Hf, Hstn. apply (Hother n stn f Hstn); [|exact Hf].
        destruct Hown as (_ & Hfaces & _). now apply (Hfaces n stn).
    + intros Hkernel calls Hcalls.
      destruct (callAll_keptApart this copy st (faces h) calls Hkernel
                  (fun H => Hne (eq_sym H)) Hcalls
                  (store copy {| m_brush := Brush_setNode copy copied;
                                 m_vertexCacheValid := false;
                                 m_issuesValid := false |} h1))
        as (h'' & Hrest & Hthis & Hfaces & _).
      { split; [|split].
        - simpl. rewrite lookup_insert_ne by exact Hne. exact Hst.
        - intros f Hf. split; [now apply Halloc|]. simpl. now apply Hframe, Halloc.
        - eexists. split; [apply lookup_insert_eq|]. simpl.
          apply apart_sym. intros f Hf. now apply (Hother this st f Hst). }
      exists h''. split; [exact Hrest|]. split; [exact Hthis|].
      intros f Hf. now destruct (Hfaces f Hf).
Qed.

End Methods.
End Heap.

(** ** A sample: faces that hold a tag mask *)

(** [Retag] writes a mask into every face of the brush; [TakeFaces] stands
    for the brush's [setFaces] and leaves the brush with the faces it is
    handed. *)
Inductive SampleOperation : Type -> Type :=
| Retag (mask : Z) : SampleOperation unit
| TakeFaces (fs : list FaceId) : SampleOperation unit.

Fixpoint retag (mask : Z) (fs : list FaceId) (heap : gmap FaceId Z) : gmap FaceId Z :=
  match fs with
  | [] => heap
  | f :: rest => <[f := mask]> (retag mask rest heap)
  end.

Definition sample_apply (A : Type) (op : SampleOperation A) (b : Brush (Geometry:=unit))
    (heap : gmap FaceId Z) : Brush (Geometry:=unit) * gmap FaceId Z * Outcome A :=
  match op in SampleOperation T return Brush (Geometry:=unit) * gmap FaceId Z * Outcome T with
  | Retag mask => (b, retag mask (m_faces b) heap, Ok tt)
  | TakeFaces fs =>
      ({| m_node := m_node b; m_faces := fs; m_geometry := m_geometry b |}, heap, Ok tt)
  end.

Definition sample_handedOver (A : Type) (op : SampleOperation A) : list FaceId :=
  match op with
  | Retag _ => []
  | TakeFaces fs => fs
  end.

#[local] Instance sampleKernel : FaceKernel (Face:=Z) (Geometry:=unit)
                                   (Operation:=SampleOperation) := {|
  brush_apply := sample_apply;
  handedOver := sample_handedOver;
  face_clone := fun face => face
|}.

Definition sampleNode (this : NodeId) (fs : list FaceId) : BrushNode (Geometry:=unit) :=
  {| m_brush := {| m_node := Some this; m_faces := fs; m_geometry := tt |};
     m_vertexCacheValid := true;
     m_issuesValid := true |}.

(** One node, with two faces. *)
Definition sampleHeap : Heap (Face:=Z) (Geometry:=unit) :=
  {| nodes := {[ 1%positive := sampleNode 1%positive [1%positive; 2%positive] ]};
     faces := {[ 1%positive := 5; 2%positive := 6 ]};
     log := [] |}.

(** Two nodes whose brushes refer to one face object. *)
Definition sharingHeap : Heap (Face:=Z) (Geometry:=unit) :=
  {| nodes := {[ 1%positive := sampleNode 1%positive [1%positive];
                 2%positive := sampleNode 2%positive [1%positive] ]};
     faces := {[ 1%positive := 5 ]};
     log := [] |}.

Lemma retag_elsewhere (mask : Z) (fs : list FaceId) (heap : gmap FaceId Z) (f : FaceId) :
  f ∉ fs -> retag mask fs heap !! f = heap !! f.
Proof.
  induction fs as [|g rest IH]; intros Hf; [reflexivity|]. simpl.
  rewrite lookup_insert_ne by (intros ->; apply Hf, elem_of_cons; now left).
  apply IH. intros Hin. apply Hf, elem_of_cons. now right.
Qed.

Lemma sampleKernel_keepsToItsFaces : keepsToItsFaces (K:=sampleKernel).
Proof.
  intros A op b b' heap heap' r. destruct op as [mask|fs]; simpl; intros [= <- <- <-].
  - split; [|auto]. intros f _ Hf _. now apply retag_elsewhere.
  - split; [reflexivity|]. intros f Hf. right. now left.
Qed.

(** The clone of the sample node is node 2, with the faces 3 and 4, and
    face 3 holds what face 1 holds. *)
Example clone_of_the_sample_node :
  option_map (fun x => (fst x,
                        m_faces <$> (m_brush <$> nodes (snd x) !! 2%positive),
                        faces (snd x) !! 3%positive))
    (clone (K:=sampleKernel) 1%positive Model.unitBounds sampleHeap)
  = Some (Ok 2%positive, Some [3%positive; 4%positive], Some 5).
Proof. vm_compute. reflexivity. Qed.

(** Where two nodes do share a face, a mutation of the one shows in the
    other: the face of node 1 after node 2 was retagged. *)
Example shared_face_is_written_through :
  option_map (fun x => faces (snd x) !! 1%positive)
    (delegate (K:=sampleKernel) 2%positive (Retag 9) sharingHeap)
  = Some (Some 9).
Proof. vm_compute. reflexivity. Qed.

(** The sample node cloned, and its clone retagged and then given no
    faces: node 1 and its first face are as they were. *)
Lemma clone_owns_a_brush_of_its_own_witness :
  exists copy h' h'',
    clone (K:=sampleKernel) 1%positive Model.unitBounds sampleHeap = Some (Ok copy, h') /\
    copy <> 1%positive /\
    callAll copy [Call_delegate (Retag 9); Call_setFaces (TakeFaces [])] h' = Some h'' /\
    nodes h'' !! 1%positive = Some (sampleNode 1%positive [1%positive; 2%positive]) /\
    faces h'' !! 1%positive = Some 5.
Proof.
  destruct (clone_owns_a_brush_of_its_own (K:=sampleKernel)) as (_ & _ & Hclone).
  destruct (Hclone 1%positive (sampleNode 1%positive [1%positive; 2%positive])
              Model.unitBounds sampleHeap eq_refl)
    as (copy & h' & stc & Hrun & Hne & _ & _ & _ & _ & _ & _ & _ & _ & Hcalls).
  { intros f Hf. apply elem_of_cons in Hf as [->|Hf]; [now exists 5|].
    apply elem_of_cons in Hf as [->|Hf]; [now exists 6|]. now apply elem_of_nil in Hf. }
  destruct (Hcalls sampleKernel_keepsToItsFaces
              [Call_delegate (Retag 9); Call_setFaces (TakeFaces [])])
    as (h'' & Hall & Hthis & Hfaces).
  { repeat constructor; intros f _ Hin; now apply elem_of_nil in Hin. }
  exists copy, h', h''. split; [exact Hrun|]. split; [exact Hne|]. split; [exact Hall|].
  split; [exact Hthis|]. rewrite Hfaces; [reflexivity|]. apply elem_of_cons. now left.
Defined.

End BrushOwnership.

(** * The cell layout: cells and rows *)

Module View.

(** The arithmetic of the layout's [float] values: the operations the code
    uses, with [lt] the comparison [<] (false on a NaN operand). *)
Class Scalar (R : Type) : Type := {
  zero : R;
  two : R;
  add : R -> R -> R;
  sub : R -> R -> R;
  mul : R -> R -> R;
  div : R -> R -> R;
  lt : R -> R -> bool
}.

(** [std::size_t], 64 bits wide, with the wrap-around of its subtraction. *)
Definition size_max : Z := 2 ^ 64.
Definition size_sub (a b : Z) : Z := (a - b) mod size_max.

Section Layout.
Context {R : Type} `{Scalar R} {Item : Type}.

(** [a > b] *)
Definition gt (a b : R) : bool := lt b a.
(** [std::min] and [std::max], which return their first argument unless
    the comparison picks the second. *)
Definition std_min (a b : R) : R := if lt b a then b else a.
Definition std_max (a b : R) : R := if lt a b then b else a.

Record LayoutBounds : Type := mkLayoutBounds {
  x : R;
  y : R;
  width : R;
  height : R
}.

Definition left (b : LayoutBounds) : R := x b.
Definition top (b : LayoutBounds) : R := y b.
Definition right (b : LayoutBounds) : R := add (x b) (width b).
Definition bottom (b : LayoutBounds) : R := add (y b) (height b).

Record LayoutCell : Type := mkLayoutCell {
  m_item : option Item;
  m_x : R;
  m_y : R;
  m_itemWidth : R;
  m_itemHeight : R;
  m_titleWidth : R;
  m_titleHeight : R;
  m_titleMargin : R;
  m_scale : R;
  m_cellBounds : LayoutBounds;
  m_itemBounds : LayoutBounds;
  m_titleBounds : LayoutBounds
}.

Definition cellBounds (c : LayoutCell) : LayoutBounds := m_cellBounds c.
Definition titleBounds (c : LayoutCell) : LayoutBounds := m_titleBounds c.
Definition itemBounds (c : LayoutCell) : LayoutBounds := m_itemBounds c.

(** [LayoutCell::doLayout]; its [assert]s check the arguments in debug
    builds and compute nothing. *)
Definition doLayout (maxUpScale minWidth maxWidth minHeight maxHeight : R)
    (c : LayoutCell) : LayoutCell :=
  let scale :=
    std_min (std_min (div maxWidth (m_itemWidth c)) (div maxHeight (m_itemHeight c)))
            maxUpScale in
  let scaledItemWidth := mul scale (m_itemWidth c) in
  let scaledItemHeight := mul scale (m_itemHeight c) in
  let clippedTitleWidth := std_min (m_titleWidth c) maxWidth in
  let cellWidth := std_max minWidth (std_max scaledItemWidth clippedTitleWidth) in
  let cellHeight :=
    std_max minHeight
      (add (add (std_max minHeight scaledItemHeight) (m_titleHeight c)) (m_titleMargin c)) in
  let itemY :=
    add (m_y c)
        (std_max zero
           (sub (sub (sub cellHeight (m_titleHeight c)) scaledItemHeight) (m_titleMargin c))) in
  let newCellBounds := mkLayoutBounds (m_x c) (m_y c) cellWidth cellHeight in
  let newItemBounds :=
    mkLayoutBounds (add (m_x c) (div (sub (width newCellBounds) scaledItemWidth) two))
                   itemY scaledItemWidth scaledItemHeight in
  let newTitleBounds :=
    mkLayoutBounds (add (m_x c) (div (sub (width newCellBounds) clippedTitleWidth) two))
                   (add (bottom newItemBounds) (m_titleMargin c))
                   clippedTitleWidth (m_titleHeight c) in
  {| m_item := m_item c;
     m_x := m_x c; m_y := m_y c;
     m_itemWidth := m_itemWidth c; m_itemHeight := m_itemHeight c;
     m_titleWidth := m_titleWidth c; m_titleHeight := m_titleHeight c;
     m_titleMargin := m_titleMargin c;
     m_scale := scale;
     m_cellBounds := newCellBounds;
     m_itemBounds := newItemBounds;
     m_titleBounds := newTitleBounds |}.

(** The constructor of [LayoutCell]: the members it does not initialise
    are all written by [doLayout] before anything reads them. *)
Definition LayoutCell_new (cx cy itemWidth itemHeight titleWidth titleHeight titleMargin
    maxUpScale minWidth maxWidth minHeight maxHeight : R) : LayoutCell :=
  let blank := mkLayoutBounds zero zero zero zero in
  doLayout maxUpScale minWidth maxWidth minHeight maxHeight
    {| m_item := None;
       m_x := cx; m_y := cy;
       m_itemWidth := itemWidth; m_itemHeight := itemHeight;
       m_titleWidth := titleWidth; m_titleHeight := titleHeight;
       m_titleMargin := titleMargin;
       m_scale := zero;
       m_cellBounds := blank; m_itemBounds := blank; m_titleBounds := blank |}.

(** [LayoutCell::updateLayout] *)
Definition updateLayout (maxUpScale minWidth maxWidth minHeight maxHeight : R)
    (c : LayoutCell) : LayoutCell :=
  doLayout maxUpScale minWidth maxWidth minHeight maxHeight c.

(** [LayoutCell::setItem] *)
Definition setItem (item : Item) (c : LayoutCell) : LayoutCell :=
  {| m_item := Some item;
     m_x := m_x c; m_y := m_y c;
     m_itemWidth := m_itemWidth c; m_itemHeight := m_itemHeight c;
     m_titleWidth := m_titleWidth c; m_titleHeight := m_titleHeight c;
     m_titleMargin := m_titleMargin c;
     m_scale := m_scale c;
     m_cellBounds := m_cellBounds c;
     m_itemBounds := m_itemBounds c;
     m_titleBounds := m_titleBounds c |}.

(** The row; its [m_titleMargin] is spelled [m_rowTitleMargin] here, the
    cell having a member of the same name. *)
Record LayoutRow : Type := mkLayoutRow {
  m_cellMargin : R;
  m_rowTitleMargin : R;
  m_maxWidth : R;
  m_maxCells : Z;
  m_maxUpScale : R;
  m_minCellWidth : R;
  m_maxCellWidth : R;
  m_minCellHeight : R;
  m_maxCellHeight : R;
  m_bounds : LayoutBounds;
  m_cells : list LayoutCell
}.

(** The constructor of [LayoutRow]. *)
Definition LayoutRow_new (rx ry cellMargin titleMargin maxWidth : R) (maxCells : Z)
    (maxUpScale minCellWidth maxCellWidth minCellHeight maxCellHeight : R) : LayoutRow :=
  {| m_cellMargin := cellMargin;
     m_rowTitleMargin := titleMargin;
     m_maxWidth := maxWidth;
     m_maxCells := maxCells;
     m_maxUpScale := maxUpScale;
     m_minCellWidth := minCellWidth;
     m_maxCellWidth := maxCellWidth;
     m_minCellHeight := minCellHeight;
     m_maxCellHeight := maxCellHeight;
     m_bounds := mkLayoutBounds rx ry zero zero;
     m_cells := [] |}.

(** [m_cells.empty()] and [m_cells.size()] *)
Definition cells_empty (row : LayoutRow) : bool :=
  match m_cells row with [] => true | _ :: _ => false end.
Definition cells_size (row : LayoutRow) : Z := Z.of_nat (length (m_cells row)).

(** The cell that [canAddItem] and [addItem] lay out for a new item, and
    the width of the row with it: the cell margin is added once the row has
    a cell. *)
Definition nextCell (row : LayoutRow) (itemWidth itemHeight titleWidth titleHeight : R)
    : LayoutCell * R :=
  let x0 := right (m_bounds row) in
  let width0 := width (m_bounds row) in
  let '(x1, width1) :=
    if negb (cells_empty row)
    then (add x0 (m_cellMargin row), add width0 (m_cellMargin row))
    else (x0, width0) in
  let cell :=
    LayoutCell_new x1 (top (m_bounds row)) itemWidth itemHeight titleWidth titleHeight
      (m_rowTitleMargin row) (m_maxUpScale row) (m_minCellWidth row) (m_maxCellWidth row)
      (m_minCellHeight row) (m_maxCellHeight row) in
  (cell, add width1 (width (cellBounds cell))).

(** [LayoutRow::canAddItem] *)
Definition canAddItem (row : LayoutRow) (itemWidth itemHeight titleWidth titleHeight : R)
    : bool :=
  let '(cell, newWidth) := nextCell row itemWidth itemHeight titleWidth titleHeight in
  if (m_maxCells row =? 0) && gt newWidth (m_maxWidth row) && negb (cells_empty row)
  then false
  else if (0 <? m_maxCells row) && (size_sub (m_maxCells row) 1 <=? cells_size row)
  then false
  else true.

(** [LayoutRow::readjustItems] *)
Definition readjustItems (row : LayoutRow) : LayoutRow :=
  {| m_cellMargin := m_cellMargin row;
     m_rowTitleMargin := m_rowTitleMargin row;
     m_maxWidth := m_maxWidth row;
     m_maxCells := m_maxCells row;
     m_maxUpScale := m_maxUpScale row;
     m_minCellWidth := m_minCellWidth row;
     m_maxCellWidth := m_maxCellWidth row;
     m_minCellHeight := m_minCellHeight row;
     m_maxCellHeight := m_maxCellHeight row;
     m_bounds := m_bounds row;
     m_cells :=
       map (updateLayout (m_maxUpScale row) (m_minCellWidth row) (m_maxCellWidth row)
              (m_minCellHeight row) (m_maxCellHeight row)) (m_cells row) |}.

Definition with_minCellHeight (h : R) (row : LayoutRow) : LayoutRow :=
  {| m_cellMargin := m_cellMargin row;
     m_rowTitleMargin := m_rowTitleMargin row;
     m_maxWidth := m_maxWidth row;
     m_maxCells := m_maxCells row;
     m_maxUpScale := m_maxUpScale row;
     m_minCellWidth := m_minCellWidth row;
     m_maxCellWidth := m_maxCellWidth row;
     m_minCellHeight := h;
     m_maxCellHeight := m_maxCellHeight row;
     m_bounds := m_bounds row;
     m_cells := m_cells row |}.

(** [LayoutRow::addItem] *)
Definition addItem (item : Item) (itemWidth itemHeight titleWidth titleHeight : R)
    (row : LayoutRow) : LayoutRow :=
  let '(cell, newWidth) := nextCell row itemWidth itemHeight titleWidth titleHeight in
  let newItemRowHeight :=
    sub (sub (height (cellBounds cell)) (height (titleBounds cell))) (m_rowTitleMargin row) in
  let readjust := gt newItemRowHeight (m_minCellHeight row) in
  let row1 :=
    if readjust then readjustItems (with_minCellHeight newItemRowHeight row) else row in
  {| m_cellMargin := m_cellMargin row1;
     m_rowTitleMargin := m_rowTitleMargin row1;
     m_maxWidth := m_maxWidth row1;
     m_maxCells := m_maxCells row1;
     m_maxUpScale := m_maxUpScale row1;
     m_minCellWidth := m_minCellWidth row1;
     m_maxCellWidth := m_maxCellWidth row1;
     m_minCellHeight := m_minCellHeight row1;
     m_maxCellHeight := m_maxCellHeight row1;
     m_bounds :=
       mkLayoutBounds (left (m_bounds row1)) (top (m_bounds row1)) newWidth
                      (std_max (height (m_bounds row1)) (height (cellBounds cell)));
     m_cells := m_cells row1 ++ [setItem item cell] |}.

(** The rows a caller can build from the constructor when it adds an item
    only after [canAddItem] has said yes. *)
Inductive protocolRow : LayoutRow -> Prop :=
| protocol_new (rx ry cellMargin titleMargin maxWidth : R) (maxCells : Z)
    (maxUpScale minCellWidth maxCellWidth minCellHeight maxCellHeight : R) :
    protocolRow (LayoutRow_new rx ry cellMargin titleMargin maxWidth maxCells
                   maxUpScale minCellWidth maxCellWidth minCellHeight maxCellHeight)
| protocol_add (row : LayoutRow) (item : Item)
    (itemWidth itemHeight titleWidth titleHeight : R) :
    protocolRow row ->
    canAddItem row itemWidth itemHeight titleWidth titleHeight = true ->
    protocolRow (addItem item itemWidth itemHeight titleWidth titleHeight row).

End Layout.

Arguments LayoutBounds R : clear implicits.
Arguments LayoutCell R Item : clear implicits.
Arguments LayoutRow R Item : clear implicits.

(** ** Facts about the rows *)

Section LayoutFacts.
Context {R : Type} `{Scalar R} {Item : Type}.

#[local] Abbreviation Row := (LayoutRow R Item).

Lemma size_sub_one (n : Z) : 0 < n < size_max -> size_sub n 1 = n - 1.
Proof. intros Hn. unfold size_sub. apply Z.mod_small. lia. Qed.

Lemma readjustItems_size (row : Row) : cells_size (readjustItems row) = cells_size row.
Proof. unfold cells_size, readjustItems. simpl. now rewrite length_map. Qed.

Lemma addItem_maxCells (item : Item) (iw ih tw th : R) (row : Row) :
  m_maxCells (addItem item iw ih tw th row) = m_maxCells row.
Proof.
  unfold addItem. destruct (nextCell row iw ih tw th) as [cell newWidth].
  now destruct (gt _ _).
Qed.

Lemma addItem_size (item : Item) (iw ih tw th : R) (row : Row) :
  cells_size (addItem item iw ih tw th row) = cells_size row + 1.
Proof.
  unfold addItem. destruct (nextCell row iw ih tw th) as [cell newWidth].
  unfold cells_size. simpl. rewrite length_app. simpl.
  destruct (gt _ _); simpl; rewrite ?length_map; lia.
Qed.

Lemma canAddItem_limited (row : Row) (iw ih tw th : R) :
  0 < m_maxCells row < size_max ->
  canAddItem row iw ih tw th = negb (m_maxCells row - 1 <=? cells_size row).
Proof.
  intros Hmax. unfold canAddItem. destruct (nextCell row iw ih tw th) as [cell newWidth].
  assert (Hz : (m_maxCells row =? 0) = false) by (apply Z.eqb_neq; lia).
  assert (Hp : (0 <? m_maxCells row) = true) by (apply Z.ltb_lt; lia).
  rewrite Hz, Hp, (size_sub_one _ Hmax). simpl. now destruct (_ <=? _).
Qed.

Lemma canAddItem_unlimited (row : Row) (iw ih tw th : R) :
  m_maxCells row = 0 ->
  canAddItem row iw ih tw th
  = negb (gt (snd (nextCell row iw ih tw th)) (m_maxWidth row) && negb (cells_empty row)).
Proof.
  intros Hmax. unfold canAddItem. destruct (nextCell row iw ih tw th) as [cell newWidth].
  rewrite Hmax. simpl. now destruct (gt _ _ && negb _).
Qed.

Lemma protocolRow_below_limit (row : Row) :
  protocolRow row ->
  0 < m_maxCells row < size_max ->
  cells_size row <= m_maxCells row - 1.
Proof.
  induction 1 as [|row item iw ih tw th Hrow IH Hcan]; intros Hmax.
  - unfold cells_size. simpl in *. lia.
  - rewrite addItem_maxCells in *. rewrite addItem_size.
    rewrite (canAddItem_limited row iw ih tw th Hmax) in Hcan.
    apply negb_true_iff, Z.leb_gt in Hcan. lia.
Qed.

(** C10.  With a positive cell limit [canAddItem] refuses as soon as the row
    holds [maxCells - 1] cells, so a row filled under the
    [canAddItem]/[addItem] protocol never holds more than [maxCells - 1]
    cells; with the limit zero only the width decides, and not even the
    width for the first cell of a row. *)
Theorem row_cell_limit_is_maxCells_minus_one :
  (forall (row : Row) (iw ih tw th : R),
     0 < m_maxCells row < size_max ->
     m_maxCells row - 1 <= cells_size row ->
     canAddItem row iw ih tw th = false) /\
  (forall row : Row,
     protocolRow row ->
     0 < m_maxCells row < size_max ->
     cells_size row <= m_maxCells row - 1) /\
  (forall (row : Row) (iw ih tw th : R),
     m_maxCells row = 0 ->
     canAddItem row iw ih tw th
     = negb (gt (snd (nextCell row iw ih tw th)) (m_maxWidth row) && negb (cells_empty row))) /\
  (forall (row : Row) (iw ih tw th : R),
     m_maxCells row = 0 ->
     m_cells row = [] ->
     canAddItem row iw ih tw th = true).
Proof.
  split; [|split; [|split]].
  - intros row iw ih tw th Hmax Hfull.
    rewrite (canAddItem_limited row iw ih tw th Hmax).
    apply negb_false_iff, Z.leb_le. exact Hfull.
  - exact protocolRow_below_limit.
  - exact canAddItem_unlimited.
  - intros row iw ih tw th Hmax Hempty.
    rewrite (canAddItem_unlimited row iw ih tw th Hmax).
    unfold cells_empty. rewrite Hempty. simpl. now rewrite andb_false_r.
Qed.

End LayoutFacts.

(** ** Rows over binary64 floats *)

#[local] Instance floatScalar : Scalar float := {|
  zero := 0%float;
  two := 2%float;
  add := PrimFloat.add;
  sub := PrimFloat.sub;
  mul := PrimFloat.mul;
  div := PrimFloat.div;
  lt := PrimFloat.ltb
|}.

(** A row of square cells 100 wide, with cell margin 5, limited to
    [maxCells] cells and to the width [maxWidth]. *)
Definition sampleRow (maxWidth : float) (maxCells : Z) : LayoutRow float nat :=
  LayoutRow_new 0%float 0%float 5%float 2%float maxWidth maxCells 1%float
    100%float 100%float 100%float 100%float.

Definition addSample (item : nat) (row : LayoutRow float nat) : LayoutRow float nat :=
  addItem item 64%float 64%float 40%float 10%float row.

Definition canAddSample (row : LayoutRow float nat) : bool :=
  canAddItem row 64%float 64%float 40%float 10%float.

(** With the limit 3 the row takes two cells and refuses the third. *)
Example row_of_limit_three_takes_two :
  canAddSample (sampleRow 1000%float 3) = true /\
  canAddSample (addSample 1%nat (sampleRow 1000%float 3)) = true /\
  canAddSample (addSample 2%nat (addSample 1%nat (sampleRow 1000%float 3))) = false /\
  length (m_cells (addSample 2%nat (addSample 1%nat (sampleRow 1000%float 3)))) = 2%nat.
Proof. repeat split; reflexivity. Qed.

(** With the limit 1 the row takes no cell at all. *)
Example row_of_limit_one_takes_none :
  canAddSample (sampleRow 1000%float 1) = false.
Proof. reflexivity. Qed.

(** Without a limit, a row 50 wide takes a first cell 100 wide and refuses
    a second; a row 1000 wide takes the second as well. *)
Example unlimited_row_ignores_first_overflow :
  canAddSample (sampleRow 50%float 0) = true /\
  width (m_bounds (addSample 1%nat (sampleRow 50%float 0))) = 100%float /\
  canAddSample (addSample 1%nat (sampleRow 50%float 0)) = false /\
  canAddSample (addSample 1%nat (sampleRow 1000%float 0)) = true.
Proof. repeat split; reflexivity. Qed.

Lemma sampleRow_protocol :
  protocolRow (addSample 2%nat (addSample 1%nat (sampleRow 1000%float 3))).
Proof.
  apply protocol_add; [apply protocol_add; [apply protocol_new|]|]; reflexivity.
Qed.

Lemma row_cell_limit_is_maxCells_minus_one_witness :
  canAddSample (addSample 2%nat (addSample 1%nat (sampleRow 1000%float 3))) = false /\
  cells_size (addSample 2%nat (addSample 1%nat (sampleRow 1000%float 3))) <= 3 - 1 /\
  canAddSample (sampleRow 50%float 0) = true.
Proof.
  destruct (row_cell_limit_is_maxCells_minus_one (R:=float) (Item:=nat))
    as (Hfull & Hprotocol & _ & Hfirst).
  split; [|split].
  - apply Hfull; [vm_compute; split; reflexivity | vm_compute; discriminate].
  - apply (Hprotocol _ sampleRow_protocol). vm_compute. split; reflexivity.
  - apply Hfirst; reflexivity.
Defined.

End View.

(** * The cell layout: hit tests, groups and the layout itself *)

Module CellLayout.
Import View.

(** The comparisons and constants of [float] that the rest of
    [CellLayout.cpp] needs beside those of [Scalar]: [<=], [==] and the
    literals [1.0f] and [100.0f]. *)
Class ScalarOrder (R : Type) : Type := {
  le : R -> R -> bool;
  eqb : R -> R -> bool;
  one : R;
  hundred : R
}.

Section Groups.
Context {R : Type} `{Scalar R} `{ScalarOrder R} {Item : Type}.
(** The value of a default-constructed [std::any]. *)
Variable emptyItem : Item.

#[local] Abbreviation Bounds := (LayoutBounds R).
#[local] Abbreviation Cell := (LayoutCell R Item).
#[local] Abbreviation Row := (LayoutRow R Item).

(** [a >= b] and [a != b] *)
Definition ge (a b : R) : bool := le b a.
Definition neq (a b : R) : bool := negb (eqb a b).

(** [LayoutBounds::containsPoint] *)
Definition containsPoint (b : Bounds) (pointX pointY : R) : bool :=
  ge pointX (left b) && le pointX (right b) && ge pointY (top b) && le pointY (bottom b).

(** [LayoutBounds::intersectsY] *)
Definition intersectsY (b : Bounds) (rangeY rangeHeight : R) : bool :=
  ge (bottom b) rangeY && le (top b) (add rangeY rangeHeight).

(** [LayoutCell::item]: the stored [std::any], empty until [setItem]. *)
Definition item (c : Cell) : Item :=
  match m_item c with Some i => i | None => emptyItem end.

(** [LayoutCell::bounds] and [LayoutCell::hitTest] *)
Definition bounds (c : Cell) : Bounds := cellBounds c.
Definition hitTest (c : Cell) (px py : R) : bool := containsPoint (bounds c) px py.

(** The loop of [LayoutRow::cellAt]: a cell left of the point is passed
    over, a cell right of it ends the search. *)
Fixpoint cellAt_cells (px py : R) (cells : list Cell) : option Cell :=
  match cells with
  | [] => None
  | cell :: rest =>
      if gt px (right (cellBounds cell)) then cellAt_cells px py rest
      else if lt px (left (cellBounds cell)) then None
      else if hitTest cell px py then Some cell
      else cellAt_cells px py rest
  end.

(** [LayoutRow::cellAt] *)
Definition row_cellAt (row : Row) (px py : R) : option Cell :=
  cellAt_cells px py (m_cells row).

(** [LayoutRow::intersectsY] *)
Definition row_intersectsY (row : Row) (ry rheight : R) : bool :=
  intersectsY (m_bounds row) ry rheight.

(** [LayoutGroup]; its members carry the prefix [g_] here, the row having
    members of the same names. *)
Record LayoutGroup : Type := mkLayoutGroup {
  g_item : string;
  g_cellMargin : R;
  g_titleMargin : R;
  g_rowMargin : R;
  g_maxCellsPerRow : Z;
  g_maxUpScale : R;
  g_minCellWidth : R;
  g_maxCellWidth : R;
  g_minCellHeight : R;
  g_maxCellHeight : R;
  g_titleBounds : Bounds;
  g_contentBounds : Bounds;
  g_rows : list Row
}.

(** The constructor of [LayoutGroup] with a title item. *)
Definition LayoutGroup_new (groupItem : string) (gx gy cellMargin titleMargin rowMargin
    titleHeight gwidth : R) (maxCellsPerRow : Z)
    (maxUpScale minCellWidth maxCellWidth minCellHeight maxCellHeight : R) : LayoutGroup :=
  {| g_item := groupItem;
     g_cellMargin := cellMargin; g_titleMargin := titleMargin; g_rowMargin := rowMargin;
     g_maxCellsPerRow := maxCellsPerRow; g_maxUpScale := maxUpScale;
     g_minCellWidth := minCellWidth; g_maxCellWidth := maxCellWidth;
     g_minCellHeight := minCellHeight; g_maxCellHeight := maxCellHeight;
     g_titleBounds := mkLayoutBounds zero gy (add gwidth (mul two gx)) titleHeight;
     g_contentBounds := mkLayoutBounds gx (add (add gy titleHeight) rowMargin) gwidth zero;
     g_rows := [] |}.

(** The constructor of [LayoutGroup] without a title. *)
Definition LayoutGroup_untitled (gx gy cellMargin titleMargin rowMargin gwidth : R)
    (maxCellsPerRow : Z)
    (maxUpScale minCellWidth maxCellWidth minCellHeight maxCellHeight : R) : LayoutGroup :=
  {| g_item := EmptyString;
     g_cellMargin := cellMargin; g_titleMargin := titleMargin; g_rowMargin := rowMargin;
     g_maxCellsPerRow := maxCellsPerRow; g_maxUpScale := maxUpScale;
     g_minCellWidth := minCellWidth; g_maxCellWidth := maxCellWidth;
     g_minCellHeight := minCellHeight; g_maxCellHeight := maxCellHeight;
     g_titleBounds := mkLayoutBounds gx gy gwidth zero;
     g_contentBounds := mkLayoutBounds gx gy gwidth zero;
     g_rows := [] |}.

(** [LayoutGroup::bounds] *)
Definition group_bounds (g : LayoutGroup) : Bounds :=
  mkLayoutBounds (left (g_titleBounds g)) (top (g_titleBounds g)) (width (g_titleBounds g))
                 (sub (bottom (g_contentBounds g)) (top (g_titleBounds g))).

(** [LayoutGroup::intersectsY] *)
Definition group_intersectsY (g : LayoutGroup) (gy gheight : R) : bool :=
  intersectsY (group_bounds g) gy gheight.

(** [LayoutGroup::titleBoundsForVisibleRect] *)
Definition titleBoundsForVisibleRect (g : LayoutGroup) (vy vheight groupMargin : R) : Bounds :=
  if group_intersectsY g vy vheight && lt (top (g_titleBounds g)) vy then
    if gt vy (add (sub (bottom (g_contentBounds g)) (height (g_titleBounds g))) groupMargin)
    then mkLayoutBounds (left (g_titleBounds g))
           (add (sub (bottom (g_contentBounds g)) (height (g_titleBounds g))) groupMargin)
           (width (g_titleBounds g)) (height (g_titleBounds g))
    else mkLayoutBounds (left (g_titleBounds g)) vy
           (width (g_titleBounds g)) (height (g_titleBounds g))
  else g_titleBounds g.

(** The loop of [LayoutGroup::indexOfRowAt], counting from [i]. *)
Fixpoint indexOfRowAt_rows (py : R) (i : Z) (rows : list Row) : Z :=
  match rows with
  | [] => i
  | row :: rest =>
      if lt py (bottom (m_bounds row)) then i else indexOfRowAt_rows py (i + 1) rest
  end.

(** [LayoutGroup::indexOfRowAt] *)
Definition indexOfRowAt (g : LayoutGroup) (py : R) : Z :=
  indexOfRowAt_rows py 0 (g_rows g).

(** The loop of [LayoutGroup::cellAt]. *)
Fixpoint cellAt_rows (px py : R) (rows : list Row) : option Cell :=
  match rows with
  | [] => None
  | row :: rest =>
      if gt py (bottom (m_bounds row)) then cellAt_rows px py rest
      else if lt py (top (m_bounds row)) then None
      else match row_cellAt row px py with
           | Some cell => Some cell
           | None => cellAt_rows px py rest
           end
  end.

(** [LayoutGroup::cellAt] and [LayoutGroup::hitTest] *)
Definition group_cellAt (g : LayoutGroup) (px py : R) : option Cell :=
  cellAt_rows px py (g_rows g).
Definition group_hitTest (g : LayoutGroup) (px py : R) : bool :=
  containsPoint (group_bounds g) px py.

(** A vector with its last element apart; [None] for the empty vector. *)
Definition splitBack {A : Type} (v : list A) : option (list A * A) :=
  match rev v with
  | [] => None
  | b :: front => Some (rev front, b)
  end.

(** The row that [LayoutGroup::addItem] emplaces at height [ry]. *)
Definition emplaceRow (g : LayoutGroup) (ry : R) : Row :=
  LayoutRow_new (left (g_contentBounds g)) ry (g_cellMargin g) (g_titleMargin g)
    (width (g_contentBounds g)) (g_maxCellsPerRow g) (g_maxUpScale g)
    (g_minCellWidth g) (g_maxCellWidth g) (g_minCellHeight g) (g_maxCellHeight g).

(** The rows and the content bounds of [LayoutGroup::addItem] at the point
    of its [assert]: a first row has been made if there was none, and a
    further row if the last one refused the item. *)
Definition rowsForItem (g : LayoutGroup) (itemWidth itemHeight titleWidth titleHeight : R)
    : list Row * Row * Bounds :=
  let '(front1, back1) :=
    match splitBack (g_rows g) with
    | None => ([], emplaceRow g (top (g_contentBounds g)))
    | Some p => p
    end in
  if negb (canAddItem back1 itemWidth itemHeight titleWidth titleHeight) then
    let oldBounds := m_bounds back1 in
    let ry := add (bottom oldBounds) (g_rowMargin g) in
    let back2 := emplaceRow g ry in
    let newRowHeight := height (m_bounds back2) in
    (front1 ++ [back1], back2,
     mkLayoutBounds (left (g_contentBounds g)) (top (g_contentBounds g))
       (width (g_contentBounds g))
       (add (add (height (g_contentBounds g)) newRowHeight) (g_rowMargin g)))
  else (front1, back1, g_contentBounds g).

(** The condition that [LayoutGroup::addItem] asserts before it adds the
    item to the last row. *)
Definition addItem_asserted (g : LayoutGroup) (itemWidth itemHeight titleWidth titleHeight : R)
    : bool :=
  let '(_, back, _) := rowsForItem g itemWidth itemHeight titleWidth titleHeight in
  canAddItem back itemWidth itemHeight titleWidth titleHeight.

(** [LayoutGroup::addItem], as a build without assertions runs it. *)
Definition group_addItem (newItem : Item) (itemWidth itemHeight titleWidth titleHeight : R)
    (g : LayoutGroup) : LayoutGroup :=
  let '(front, back, content) := rowsForItem g itemWidth itemHeight titleWidth titleHeight in
  let oldRowHeight := height (m_bounds back) in
  let back' := addItem newItem itemWidth itemHeight titleWidth titleHeight back in
  let newRowHeight := height (m_bounds back') in
  {| g_item := g_item g;
     g_cellMargin := g_cellMargin g; g_titleMargin := g_titleMargin g;
     g_rowMargin := g_rowMargin g;
     g_maxCellsPerRow := g_maxCellsPerRow g; g_maxUpScale := g_maxUpScale g;
     g_minCellWidth := g_minCellWidth g; g_maxCellWidth := g_maxCellWidth g;
     g_minCellHeight := g_minCellHeight g; g_maxCellHeight := g_maxCellHeight g;
     g_titleBounds := g_titleBounds g;
     g_contentBounds :=
       mkLayoutBounds (left content) (top content) (width content)
                      (add (height content) (sub newRowHeight oldRowHeight));
     g_rows := front ++ [back'] |}.

(** [CellLayout]; its members carry the prefix [l_] here. *)
Record Layout : Type := mkLayout {
  l_width : R;
  l_cellMargin : R;
  l_titleMargin : R;
  l_rowMargin : R;
  l_groupMargin : R;
  l_outerMargin : R;
  l_maxCellsPerRow : Z;
  l_maxUpScale : R;
  l_minCellWidth : R;
  l_maxCellWidth : R;
  l_minCellHeight : R;
  l_maxCellHeight : R;
  l_groups : list LayoutGroup;
  l_valid : bool;
  l_height : R
}.

(** The constructor of [CellLayout]; [invalidate] in its body finds the
    layout invalid already. *)
Definition CellLayout_new (maxCellsPerRow : Z) : Layout :=
  {| l_width := one;
     l_cellMargin := zero; l_titleMargin := zero; l_rowMargin := zero;
     l_groupMargin := zero; l_outerMargin := zero;
     l_maxCellsPerRow := maxCellsPerRow;
     l_maxUpScale := one;
     l_minCellWidth := hundred; l_maxCellWidth := hundred;
     l_minCellHeight := hundred; l_maxCellHeight := hundred;
     l_groups := [];
     l_valid := false;
     l_height := zero |}.

Definition with_state (gs : list LayoutGroup) (valid : bool) (h : R) (l : Layout) : Layout :=
  {| l_width := l_width l;
     l_cellMargin := l_cellMargin l; l_titleMargin := l_titleMargin l;
     l_rowMargin := l_rowMargin l; l_groupMargin := l_groupMargin l;
     l_outerMargin := l_outerMargin l;
     l_maxCellsPerRow := l_maxCellsPerRow l;
     l_maxUpScale := l_maxUpScale l;
     l_minCellWidth := l_minCellWidth l; l_maxCellWidth := l_maxCellWidth l;
     l_minCellHeight := l_minCellHeight l; l_maxCellHeight := l_maxCellHeight l;
     l_groups := gs;
     l_valid := valid;
     l_height := h |}.

(** [CellLayout::invalidate] *)
Definition invalidate (l : Layout) : Layout := with_state (l_groups l) false (l_height l) l.

(** [CellLayout::clear] *)
Definition clear (l : Layout) : Layout := invalidate (with_state [] (l_valid l) (l_height l) l).

(** [CellLayout::setWidth]; the other setters have the same shape. *)
Definition setWidth (w : R) (l : Layout) : Layout :=
  if neq (l_width l) w then
    invalidate
      {| l_width := w;
         l_cellMargin := l_cellMargin l; l_titleMargin := l_titleMargin l;
         l_rowMargin := l_rowMargin l; l_groupMargin := l_groupMargin l;
         l_outerMargin := l_outerMargin l;
         l_maxCellsPerRow := l_maxCellsPerRow l;
         l_maxUpScale := l_maxUpScale l;
         l_minCellWidth := l_minCellWidth l; l_maxCellWidth := l_maxCellWidth l;
         l_minCellHeight := l_minCellHeight l; l_maxCellHeight := l_maxCellHeight l;
         l_groups := l_groups l;
         l_valid := l_valid l;
         l_height := l_height l |}
  else l.

(** The body of [CellLayout::addGroup] after its check of [m_valid]. *)
Definition addGroup_body (groupItem : string) (titleHeight : R) (l : Layout) : Layout :=
  let '(gy, h1) :=
    match splitBack (l_groups l) with
    | None => (zero, l_height l)
    | Some (_, back) =>
        (add (bottom (group_bounds back)) (l_groupMargin l), add (l_height l) (l_groupMargin l))
    end in
  let g :=
    LayoutGroup_new groupItem (l_outerMargin l) gy (l_cellMargin l) (l_titleMargin l)
      (l_rowMargin l) titleHeight (sub (l_width l) (mul two (l_outerMargin l)))
      (l_maxCellsPerRow l) (l_maxUpScale l) (l_minCellWidth l) (l_maxCellWidth l)
      (l_minCellHeight l) (l_maxCellHeight l) in
  with_state (l_groups l ++ [g]) (l_valid l) (add h1 (height (group_bounds g))) l.

(** The body of [CellLayout::addItem] after its check of [m_valid]. *)
Definition addItem_body (newItem : Item) (itemWidth itemHeight titleWidth titleHeight : R)
    (l : Layout) : Layout :=
  let '(front, back, h1) :=
    match splitBack (l_groups l) with
    | None =>
        (@nil LayoutGroup,
         LayoutGroup_untitled (l_outerMargin l) (l_outerMargin l) (l_cellMargin l)
           (l_titleMargin l) (l_rowMargin l) (sub (l_width l) (mul two (l_outerMargin l)))
           (l_maxCellsPerRow l) (l_maxUpScale l) (l_minCellWidth l) (l_maxCellWidth l)
           (l_minCellHeight l) (l_maxCellHeight l),
         let h := add (l_height l) titleHeight in
         if gt titleHeight zero then add h (l_rowMargin l) else h)
    | Some (front, back) => (front, back, l_height l)
    end in
  let oldGroupHeight := height (group_bounds back) in
  let back' := group_addItem newItem itemWidth itemHeight titleWidth titleHeight back in
  let newGroupHeight := height (group_bounds back') in
  with_state (front ++ [back']) (l_valid l) (add h1 (sub newGroupHeight oldGroupHeight)) l.

(** What [CellLayout::validate] does with one cell, one row and one group
    of the copy it took.  The layout is valid while they run, so the
    [addGroup] and [addItem] it calls go straight to their bodies. *)
Definition readd_cell (l : Layout) (cell : Cell) : Layout :=
  let scale := m_scale cell in
  let itemWidth := div (width (itemBounds cell)) scale in
  let itemHeight := div (height (itemBounds cell)) scale in
  addItem_body (item cell) itemWidth itemHeight
    (width (titleBounds cell)) (height (titleBounds cell)) l.

Definition readd_row (l : Layout) (row : Row) : Layout :=
  fold_left readd_cell (m_cells row) l.

Definition readd_group (l : Layout) (g : LayoutGroup) : Layout :=
  fold_left readd_row (g_rows g) (addGroup_body (g_item g) (height (g_titleBounds g)) l).

(** [CellLayout::validate] *)
Definition validate (l : Layout) : Layout :=
  if le (l_width l) zero then l
  else
    let l1 := with_state (l_groups l) true (mul two (l_outerMargin l)) l in
    match l_groups l1 with
    | [] => l1
    | _ :: _ =>
        let copy := l_groups l1 in
        fold_left readd_group copy (with_state [] (l_valid l1) (l_height l1) l1)
    end.

(** [if (!m_valid) validate();] *)
Definition ensureValid (l : Layout) : Layout :=
  if negb (l_valid l) then validate l else l.

(** [CellLayout::addGroup] and [CellLayout::addItem] *)
Definition addGroup (groupItem : string) (titleHeight : R) (l : Layout) : Layout :=
  addGroup_body groupItem titleHeight (ensureValid l).

Definition layout_addItem (newItem : Item) (itemWidth itemHeight titleWidth titleHeight : R)
    (l : Layout) : Layout :=
  addItem_body newItem itemWidth itemHeight titleWidth titleHeight (ensureValid l).

(** [CellLayout::height] and [CellLayout::groups], with the layout they
    leave behind. *)
Definition layout_height (l : Layout) : R * Layout :=
  let l' := ensureValid l in (l_height l', l').

Definition groups (l : Layout) : list LayoutGroup * Layout :=
  let l' := ensureValid l in (l_groups l', l').

(** The loop of [CellLayout::cellAt]. *)
Fixpoint cellAt_groups (px py : R) (gs : list LayoutGroup) : option Cell :=
  match gs with
  | [] => None
  | g :: rest =>
      if gt py (bottom (group_bounds g)) then cellAt_groups px py rest
      else if lt py (top (group_bounds g)) then None
      else match group_cellAt g px py with
           | Some cell => Some cell
           | None => cellAt_groups px py rest
           end
  end.

(** [CellLayout::cellAt] *)
Definition layout_cellAt (l : Layout) (px py : R) : option Cell * Layout :=
  let l' := ensureValid l in (cellAt_groups px py (l_groups l'), l').

End Groups.

(** ** Facts about cells, rows and groups *)

Section GroupFacts.
Context {R : Type} `{Scalar R} `{ScalarOrder R} {Item : Type}.
Variable emptyItem : Item.

#[local] Abbreviation Cell := (LayoutCell R Item).
#[local] Abbreviation Row := (LayoutRow R Item).
#[local] Abbreviation Group := (@LayoutGroup R Item).
#[local] Abbreviation item' := (item emptyItem).

(** The items of a row, of a group (row after row) and of a layout (group
    by group), in the order the cells stand. *)
Definition rowItems (row : Row) : list Item := map item' (m_cells row).
Definition groupItems (g : Group) : list Item := concat (map rowItems (g_rows g)).
Definition layoutItems (l : @Layout R Item) : list (list Item) := map groupItems (l_groups l).

Lemma splitBack_nil {A : Type} (v : list A) : splitBack v = None -> v = [].
Proof.
  unfold splitBack. destruct (rev v) as [|b front] eqn:Hrev; [|discriminate].
  intros _. apply (f_equal (@rev A)) in Hrev. now rewrite rev_involutive in Hrev.
Qed.

Lemma splitBack_snoc {A : Type} (v front : list A) (b : A) :
  splitBack v = Some (front, b) -> v = front ++ [b].
Proof.
  unfold splitBack. destruct (rev v) as [|b' front'] eqn:Hrev; [discriminate|].
  intros [= <- <-]. apply (f_equal (@rev A)) in Hrev.
  now rewrite rev_involutive in Hrev.
Qed.

Lemma splitBack_app {A : Type} (front : list A) (b : A) :
  splitBack (front ++ [b]) = Some (front, b).
Proof. unfold splitBack. rewrite rev_app_distr. simpl. now rewrite rev_involutive. Qed.

(** A cell's layout is computed from its position and from the sizes
    of its item and title alone: laying it out again replaces what an
    earlier layout computed, so [updateLayout] with the same arguments is
    idempotent, and so is [readjustItems] on a row. *)
Lemma relayout_replaces_earlier_layout :
  (forall (s1 w1 W1 h1 H1 s2 w2 W2 h2 H2 : R) (c : Cell),
     updateLayout s2 w2 W2 h2 H2 (updateLayout s1 w1 W1 h1 H1 c)
     = updateLayout s2 w2 W2 h2 H2 c) /\
  (forall row : Row, readjustItems (readjustItems row) = readjustItems row).
Proof.
  assert (Hcell : forall (s1 w1 W1 h1 H1 s2 w2 W2 h2 H2 : R) (c : Cell),
             updateLayout s2 w2 W2 h2 H2 (updateLayout s1 w1 W1 h1 H1 c)
             = updateLayout s2 w2 W2 h2 H2 c) by reflexivity.
  split; [exact Hcell|].
  intros row. unfold readjustItems. simpl. f_equal.
  rewrite map_map. apply map_ext. intros c. apply Hcell.
Qed.

Lemma item_updateLayout (s w W h H' : R) (c : Cell) :
  item' (updateLayout s w W h H' c) = item' c.
Proof. reflexivity. Qed.

Lemma rowItems_nextCell (row : Row) (iw ih tw th : R) (i : Item) :
  item' (setItem i (fst (nextCell row iw ih tw th))) = i.
Proof. reflexivity. Qed.

Lemma rowItems_addItem (i : Item) (iw ih tw th : R) (row : Row) :
  rowItems (addItem i iw ih tw th row) = rowItems row ++ [i].
Proof.
  unfold addItem, rowItems. destruct (nextCell row iw ih tw th) as [cell newWidth].
  destruct (gt _ _); simpl.
  - rewrite map_app, map_map. simpl. f_equal.
  - now rewrite map_app.
Qed.

(** X1.  [LayoutRow::addItem] puts the new item behind the items the row
    holds and keeps those, in order, also when it lays the earlier cells
    out again; the row's left and top edge stay where they are. *)
Theorem row_addItem_appends (i : Item) (iw ih tw th : R) (row : Row) :
  rowItems (addItem i iw ih tw th row) = rowItems row ++ [i] /\
  left (m_bounds (addItem i iw ih tw th row)) = left (m_bounds row) /\
  top (m_bounds (addItem i iw ih tw th row)) = top (m_bounds row).
Proof.
  split; [apply rowItems_addItem|].
  unfold addItem. destruct (nextCell row iw ih tw th) as [cell newWidth].
  destruct (gt _ _); simpl; split; reflexivity.
Qed.

Lemma cellAt_cells_sound (px py : R) (cells : list Cell) (c : Cell) :
  cellAt_cells px py cells = Some c -> In c cells /\ hitTest c px py = true.
Proof.
  induction cells as [|cell rest IH]; cbn [cellAt_cells]; [discriminate|].
  destruct (gt px (right (cellBounds cell))).
  - intros Hc. destruct (IH Hc) as [Hin Hhit]. split; [now right|exact Hhit].
  - destruct (lt px (left (cellBounds cell))); [discriminate|].
    destruct (hitTest cell px py) eqn:Hhit.
    + intros [= <-]. split; [now left|exact Hhit].
    + intros Hc. destruct (IH Hc) as [Hin Hhit']. split; [now right|exact Hhit'].
Qed.

Lemma cellAt_rows_sound (px py : R) (rows : list Row) (c : Cell) :
  cellAt_rows px py rows = Some c ->
  exists row, In row rows /\ In c (m_cells row) /\ hitTest c px py = true.
Proof.
  induction rows as [|row rest IH]; cbn [cellAt_rows]; [discriminate|].
  destruct (gt py (bottom (m_bounds row))).
  - intros Hc. destruct (IH Hc) as (r & Hr & Hrest). exists r. split; [now right|exact Hrest].
  - destruct (lt py (top (m_bounds row))); [discriminate|].
    destruct (row_cellAt row px py) as [c'|] eqn:Hrow.
    + intros [= <-]. destruct (cellAt_cells_sound _ _ _ _ Hrow) as [Hin Hhit].
      exists row. split; [now left|]. split; assumption.
    + intros Hc. destruct (IH Hc) as (r & Hr & Hrest). exists r. split; [now right|exact Hrest].
Qed.

(** X2.  A cell that [cellAt] reports, at the level of the layout's groups,
    is a cell of a row of one of the groups, and its bounds contain the
    point; a layout without groups, a group without rows and a row without
    cells report none. *)
Theorem cellAt_reports_a_cell_under_the_point (px py : R) (gs : list Group) :
  (forall c, cellAt_groups px py gs = Some c ->
     exists g row, In g gs /\ In row (g_rows g) /\ In c (m_cells row) /\
                   containsPoint (cellBounds c) px py = true) /\
  cellAt_groups px py (@nil Group) = None /\
  cellAt_rows px py (@nil Row) = None /\
  cellAt_cells px py (@nil Cell) = None.
Proof.
  split; [|repeat split].
  induction gs as [|g rest IH]; cbn [cellAt_groups]; [discriminate|].
  intros c. destruct (gt py (bottom (group_bounds g))).
  - intros Hc. destruct (IH c Hc) as (g' & row & Hg & Hrest).
    exists g', row. split; [now right|exact Hrest].
  - destruct (lt py (top (group_bounds g))); [discriminate|].
    destruct (group_cellAt g px py) as [c'|] eqn:Hgroup.
    + intros [= <-]. destruct (cellAt_rows_sound _ _ _ _ Hgroup) as (row & Hrow & Hc & Hhit).
      exists g, row. split; [now left|]. repeat split; assumption.
    + intros Hc. destruct (IH c Hc) as (g' & row & Hg & Hrest).
      exists g', row. split; [now right|exact Hrest].
Qed.

Lemma indexOfRowAt_rows_spec (py : R) (rows : list Row) (i : Z) :
  let k := indexOfRowAt_rows py i rows in
  i <= k <= i + Z.of_nat (length rows) /\
  (forall j row, rows !! j = Some row -> i + Z.of_nat j < k ->
                 lt py (bottom (m_bounds row)) = false) /\
  (forall row, rows !! Z.to_nat (k - i) = Some row -> lt py (bottom (m_bounds row)) = true).
Proof.
  revert i. induction rows as [|row rest IH]; intros i; simpl.
  - split; [lia|]. split; intros; discriminate.
  - destruct (lt py (bottom (m_bounds row))) eqn:Hlt.
    + split; [lia|]. split.
      * intros j r _ Hj. lia.
      * intros r. rewrite Z.sub_diag. simpl. now intros [= <-].
    + destruct (IH (i + 1)) as (Hrange & Hbefore & Hat). split; [lia|]. split.
      * intros [|j] r Hr Hj; simpl in Hr.
        -- now injection Hr as <-.
        -- apply (Hbefore j r Hr). lia.
      * intros r Hr. apply Hat.
        replace (Z.to_nat (indexOfRowAt_rows py (i + 1) rest - i))
          with (S (Z.to_nat (indexOfRowAt_rows py (i + 1) rest - (i + 1)))) in Hr by lia.
        exact Hr.
Qed.

(** X3.  [indexOfRowAt] returns an index from 0 to the number of rows: the
    index of the first row whose bottom lies below the given height, every
    row before it failing that test, and the number of rows when no row
    passes. *)
Theorem indexOfRowAt_is_first_row_below (g : Group) (py : R) :
  0 <= indexOfRowAt g py <= Z.of_nat (length (g_rows g)) /\
  (forall j row, g_rows g !! j = Some row -> Z.of_nat j < indexOfRowAt g py ->
                 lt py (bottom (m_bounds row)) = false) /\
  (forall row, g_rows g !! Z.to_nat (indexOfRowAt g py) = Some row ->
               lt py (bottom (m_bounds row)) = true).
Proof.
  destruct (indexOfRowAt_rows_spec py (g_rows g) 0) as (Hrange & Hbefore & Hat).
  unfold indexOfRowAt. split; [lia|]. split.
  - intros j row Hrow Hj. apply (Hbefore j row Hrow). lia.
  - intros row Hrow. apply Hat. now rewrite Z.sub_0_r.
Qed.

(** X4.  The title bounds that [titleBoundsForVisibleRect] returns differ
    from the group's title bounds in the vertical position at most; they
    are the title bounds themselves unless the group meets the visible
    range and its title starts above it. *)
Theorem titleBoundsForVisibleRect_moves_vertically (g : Group) (vy vheight groupMargin : R) :
  let b := titleBoundsForVisibleRect g vy vheight groupMargin in
  left b = left (g_titleBounds g) /\
  width b = width (g_titleBounds g) /\
  height b = height (g_titleBounds g) /\
  (group_intersectsY g vy vheight && lt (top (g_titleBounds g)) vy = false ->
   b = g_titleBounds g).
Proof.
  unfold titleBoundsForVisibleRect.
  destruct (group_intersectsY g vy vheight && lt (top (g_titleBounds g)) vy).
  - destruct (gt vy _); simpl; repeat split; discriminate.
  - simpl. repeat split.
Qed.

(** *** Adding to a group *)

Lemma rowItems_emplaceRow (g : Group) (ry : R) : rowItems (emplaceRow g ry) = [].
Proof. reflexivity. Qed.

Lemma groupItems_snoc (g : Group) (front : list Row) (back : Row) :
  g_rows g = front ++ [back] ->
  groupItems g = concat (map rowItems front) ++ rowItems back.
Proof.
  intros Hrows. unfold groupItems. rewrite Hrows, map_app, concat_app. simpl.
  now rewrite app_nil_r.
Qed.

(** The four ways [LayoutGroup::addItem] arrives at the row it adds to. *)
Inductive RowChoice (g : Group) (iw ih tw th : R) : list Row -> Row -> Prop :=
| choice_first (ry : R) :
    g_rows g = [] ->
    canAddItem (emplaceRow g ry) iw ih tw th = true ->
    RowChoice g iw ih tw th [] (emplaceRow g ry)
| choice_first_refused (ry ry' : R) :
    g_rows g = [] ->
    canAddItem (emplaceRow g ry) iw ih tw th = false ->
    RowChoice g iw ih tw th [emplaceRow g ry] (emplaceRow g ry')
| choice_last (front : list Row) (back : Row) :
    g_rows g = front ++ [back] ->
    canAddItem back iw ih tw th = true ->
    RowChoice g iw ih tw th front back
| choice_next (front : list Row) (back : Row) (ry : R) :
    g_rows g = front ++ [back] ->
    canAddItem back iw ih tw th = false ->
    RowChoice g iw ih tw th (g_rows g) (emplaceRow g ry).

Lemma rowsForItem_choice (g : Group) (iw ih tw th : R) :
  RowChoice g iw ih tw th (fst (fst (rowsForItem g iw ih tw th)))
                          (snd (fst (rowsForItem g iw ih tw th))).
Proof.
  unfold rowsForItem. destruct (splitBack (g_rows g)) as [[front back]|] eqn:Hsplit.
  - apply splitBack_snoc in Hsplit.
    destruct (canAddItem back iw ih tw th) eqn:Hcan; simpl.
    + now apply choice_last.
    + rewrite <- Hsplit. now apply (choice_next g iw ih tw th front back).
  - apply splitBack_nil in Hsplit.
    destruct (canAddItem (emplaceRow g (top (g_contentBounds g))) iw ih tw th) eqn:Hcan; simpl.
    + now apply choice_first.
    + now apply choice_first_refused.
Qed.

Lemma group_addItem_rows (i : Item) (iw ih tw th : R) (g : Group) :
  g_rows (group_addItem i iw ih tw th g)
  = fst (fst (rowsForItem g iw ih tw th))
    ++ [addItem i iw ih tw th (snd (fst (rowsForItem g iw ih tw th)))].
Proof.
  unfold group_addItem. now destruct (rowsForItem g iw ih tw th) as [[front back] content].
Qed.

Lemma group_addItem_maxCellsPerRow (i : Item) (iw ih tw th : R) (g : Group) :
  g_maxCellsPerRow (group_addItem i iw ih tw th g) = g_maxCellsPerRow g.
Proof.
  unfold group_addItem. now destruct (rowsForItem g iw ih tw th) as [[front back] content].
Qed.

Lemma groupItems_addItem (i : Item) (iw ih tw th : R) (g : Group) :
  groupItems (group_addItem i iw ih tw th g) = groupItems g ++ [i].
Proof.
  unfold groupItems at 1. rewrite group_addItem_rows, map_app, concat_app. simpl.
  rewrite rowItems_addItem, app_nil_r.
  destruct (rowsForItem_choice g iw ih tw th) as [ry Hrows _|ry ry' Hrows _
                                                 |front back Hrows _|front back ry Hrows _].
  - unfold groupItems. now rewrite Hrows.
  - unfold groupItems. now rewrite Hrows.
  - rewrite (groupItems_snoc g front back Hrows). now rewrite app_assoc.
  - fold (groupItems g). rewrite rowItems_emplaceRow. reflexivity.
Qed.

Lemma group_addItem_item (i : Item) (iw ih tw th : R) (g : Group) :
  g_item (group_addItem i iw ih tw th g) = g_item g.
Proof.
  unfold group_addItem. now destruct (rowsForItem g iw ih tw th) as [[front back] content].
Qed.

(** X5.  [LayoutGroup::addItem] puts the new item behind the items the
    group holds, which it keeps in order, whether it adds to the last row
    or opens a new one; the group's title item and its cell limit stay. *)
Theorem group_addItem_appends (i : Item) (iw ih tw th : R) (g : Group) :
  groupItems (group_addItem i iw ih tw th g) = groupItems g ++ [i] /\
  g_item (group_addItem i iw ih tw th g) = g_item g /\
  g_maxCellsPerRow (group_addItem i iw ih tw th g) = g_maxCellsPerRow g.
Proof.
  split; [apply groupItems_addItem|].
  split; [apply group_addItem_item|apply group_addItem_maxCellsPerRow].
Qed.

(** The groups a caller can build: made by a constructor and filled by
    [addItem]. *)
Inductive protocolGroup : Group -> Prop :=
| protocol_titled (groupItem : string) (gx gy cm tm rm th gw : R) (maxCells : Z)
    (s w W h H' : R) :
    protocolGroup (LayoutGroup_new groupItem gx gy cm tm rm th gw maxCells s w W h H')
| protocol_untitled (gx gy cm tm rm gw : R) (maxCells : Z) (s w W h H' : R) :
    protocolGroup (LayoutGroup_untitled gx gy cm tm rm gw maxCells s w W h H')
| protocol_item (g : Group) (i : Item) (iw ih tw th : R) :
    protocolGroup g -> protocolGroup (group_addItem i iw ih tw th g).

Definition rowWithinLimit (maxCells : Z) (row : Row) : Prop :=
  m_maxCells row = maxCells /\
  1 <= cells_size row /\
  (0 < maxCells -> cells_size row <= maxCells - 1).

Lemma canAddItem_empty_unlimited (row : Row) (iw ih tw th : R) :
  m_maxCells row = 0 -> m_cells row = [] -> canAddItem row iw ih tw th = true.
Proof.
  intros Hmax Hempty. rewrite (canAddItem_unlimited row iw ih tw th Hmax).
  unfold cells_empty. rewrite Hempty. simpl. now rewrite andb_false_r.
Qed.

Lemma emplaceRow_accepts (g : Group) (ry iw ih tw th : R) :
  0 <= g_maxCellsPerRow g < size_max ->
  g_maxCellsPerRow g <> 1 ->
  canAddItem (emplaceRow g ry) iw ih tw th = true.
Proof.
  intros Hrange Hne. destruct (Z.eq_dec (g_maxCellsPerRow g) 0) as [Hz|Hnz].
  - now apply canAddItem_empty_unlimited.
  - rewrite canAddItem_limited by (simpl; lia).
    apply negb_true_iff, Z.leb_gt. unfold cells_size. simpl. lia.
Qed.

Lemma emplaceRow_refuses (g : Group) (ry iw ih tw th : R) :
  g_maxCellsPerRow g = 1 ->
  canAddItem (emplaceRow g ry) iw ih tw th = false.
Proof.
  intros Hone. rewrite canAddItem_limited by (simpl; unfold size_max; lia).
  apply negb_false_iff, Z.leb_le. unfold cells_size. simpl. lia.
Qed.

Lemma addItem_withinLimit (maxCells : Z) (i : Item) (iw ih tw th : R) (row : Row) :
  0 <= maxCells < size_max ->
  m_maxCells row = maxCells ->
  (0 < maxCells -> cells_size row <= maxCells - 1) ->
  canAddItem row iw ih tw th = true ->
  rowWithinLimit maxCells (addItem i iw ih tw th row).
Proof.
  intros Hrange Hmax Hsize Hcan. unfold rowWithinLimit.
  rewrite addItem_maxCells, addItem_size. split; [exact Hmax|]. split.
  - unfold cells_size. lia.
  - intros Hpos. rewrite canAddItem_limited in Hcan by lia.
    apply negb_true_iff, Z.leb_gt in Hcan. lia.
Qed.

Lemma protocolGroup_rows_within (g : Group) :
  protocolGroup g ->
  0 <= g_maxCellsPerRow g < size_max ->
  g_maxCellsPerRow g <> 1 ->
  Forall (rowWithinLimit (g_maxCellsPerRow g)) (g_rows g).
Proof.
  induction 1 as [| |g i iw ih tw th Hg IH]; intros Hrange Hne; simpl; [constructor..|].
  rewrite group_addItem_maxCellsPerRow in *. specialize (IH Hrange Hne).
  rewrite group_addItem_rows.
  destruct (rowsForItem_choice g iw ih tw th) as [ry Hrows Hcan|ry ry' Hrows Hcan
                                                 |front back Hrows Hcan|front back ry Hrows Hcan].
  - simpl. constructor; [|constructor].
    apply addItem_withinLimit; try assumption; [reflexivity|].
    unfold cells_size. simpl. lia.
  - now rewrite emplaceRow_accepts in Hcan.
  - rewrite Hrows in IH. apply Forall_app in IH as [Hfront Hback].
    apply Forall_app. split; [exact Hfront|]. constructor; [|constructor].
    inversion Hback as [|? ? (Hmax & _ & Hsize) _]; subst.
    now apply addItem_withinLimit.
  - apply Forall_app. split; [exact IH|]. constructor; [|constructor].
    apply addItem_withinLimit; try assumption; [reflexivity| |].
    + unfold cells_size. simpl. lia.
    + now apply emplaceRow_accepts.
Qed.

(** X6.  In a group built by its constructor and [addItem], with a cell
    limit per row other than 1, the condition [addItem] asserts always
    holds, no row is empty, and with a positive limit no row holds more
    than [maxCellsPerRow - 1] cells. *)
Theorem group_rows_stay_within_limit (g : Group) (iw ih tw th : R) :
  protocolGroup g ->
  0 <= g_maxCellsPerRow g < size_max ->
  g_maxCellsPerRow g <> 1 ->
  addItem_asserted g iw ih tw th = true /\
  Forall (fun row : Row =>
            1 <= cells_size row /\
            (0 < g_maxCellsPerRow g -> cells_size row <= g_maxCellsPerRow g - 1))
         (g_rows g).
Proof.
  intros Hg Hrange Hne. split.
  - unfold addItem_asserted.
    pose proof (rowsForItem_choice g iw ih tw th) as Hchoice.
    destruct (rowsForItem g iw ih tw th) as [[front back] content]. simpl in Hchoice.
    destruct Hchoice as [ry Hrows Hcan|ry ry' Hrows Hcan
                        |front back Hrows Hcan|front back ry Hrows Hcan];
      try assumption; now apply emplaceRow_accepts.
  - eapply Forall_impl; [exact (protocolGroup_rows_within g Hg Hrange Hne)|].
    intros row (_ & Hone & Hmax). split; assumption.
Qed.

Lemma protocolGroup_rows_limit (g : Group) :
  protocolGroup g -> Forall (fun row : Row => m_maxCells row = g_maxCellsPerRow g) (g_rows g).
Proof.
  induction 1 as [| |g i iw ih tw th Hg IH]; simpl; [constructor..|].
  rewrite group_addItem_maxCellsPerRow, group_addItem_rows.
  assert (Hback : m_maxCells (snd (fst (rowsForItem g iw ih tw th))) = g_maxCellsPerRow g /\
                  Forall (fun row : Row => m_maxCells row = g_maxCellsPerRow g)
                         (fst (fst (rowsForItem g iw ih tw th)))).
  { destruct (rowsForItem_choice g iw ih tw th) as [ry Hrows Hcan|ry ry' Hrows Hcan
                                                   |front back Hrows Hcan|front back ry Hrows Hcan].
    - split; [reflexivity|constructor].
    - split; [reflexivity|]. constructor; [reflexivity|constructor].
    - rewrite Hrows in IH. apply Forall_app in IH as [Hfront Hb]. split; [|exact Hfront].
      now inversion Hb.
    - split; [reflexivity|exact IH]. }
  destruct Hback as [Hback Hfront].
  apply Forall_app. split; [exact Hfront|]. constructor; [|constructor].
  now rewrite addItem_maxCells.
Qed.

(** X7.  With the cell limit 1 no row accepts an item: in a group built by
    its constructor and [addItem] the condition that [addItem] asserts is
    false for every item, and the first item leaves the group with two
    rows, an empty one and one that holds the item. *)
Theorem group_of_limit_one_breaks_its_assertion (g : Group) (i : Item) (iw ih tw th : R) :
  protocolGroup g ->
  g_maxCellsPerRow g = 1 ->
  addItem_asserted g iw ih tw th = false /\
  (g_rows g = [] ->
   exists r0 r1, g_rows (group_addItem i iw ih tw th g) = [r0; r1] /\
                 m_cells r0 = [] /\ rowItems r1 = [i]).
Proof.
  intros Hg Hone.
  pose proof (protocolGroup_rows_limit g Hg) as Hlimit.
  pose proof (rowsForItem_choice g iw ih tw th) as Hchoice.
  split.
  - unfold addItem_asserted.
    destruct (rowsForItem g iw ih tw th) as [[front back] content]. simpl in Hchoice.
    destruct Hchoice as [ry Hrows Hcan|ry ry' Hrows Hcan
                        |front back Hrows Hcan|front back ry Hrows Hcan];
      try now apply emplaceRow_refuses.
    rewrite Hrows in Hlimit. apply Forall_app in Hlimit as [_ Hb].
    inversion Hb as [|? ? Hmax _]; subst.
    rewrite canAddItem_limited in Hcan by (rewrite Hmax, Hone; unfold size_max; lia).
    apply negb_true_iff, Z.leb_gt in Hcan. unfold cells_size in Hcan. lia.
  - intros Hempty. rewrite group_addItem_rows.
    destruct Hchoice as [ry Hrows Hcan|ry ry' Hrows Hcan
                        |front back Hrows Hcan|front back ry Hrows Hcan].
    + now rewrite emplaceRow_refuses in Hcan.
    + exists (emplaceRow g ry), (addItem i iw ih tw th (emplaceRow g ry')).
      split; [reflexivity|]. split; [reflexivity|].
      now rewrite rowItems_addItem.
    + rewrite Hempty in Hrows. now destruct front.
    + rewrite Hempty in Hrows. now destruct front.
Qed.

(** *** The layout *)

#[local] Abbreviation Layout' := (@Layout R Item).
#[local] Abbreviation validate' := (validate emptyItem).
#[local] Abbreviation ensureValid' := (ensureValid emptyItem).

(** What a layout shows: per group, in order, the title item and the
    items of the cells. *)
Definition summary (g : Group) : string * list Item := (g_item g, groupItems g).
Definition layoutSummary (l : Layout') : list (string * list Item) :=
  map summary (l_groups l).

(** The summary after an item has been added behind the last group's
    items, or to a first, untitled group. *)
Definition appendToLast (i : Item) (sm : list (string * list Item))
    : list (string * list Item) :=
  match splitBack sm with
  | None => [(EmptyString, [i])]
  | Some (front, (title, items)) => front ++ [(title, items ++ [i])]
  end.

Lemma addGroup_body_summary (title : string) (th : R) (l : Layout') :
  layoutSummary (addGroup_body title th l) = layoutSummary l ++ [(title, [])] /\
  l_valid (addGroup_body title th l) = l_valid l /\
  l_width (addGroup_body title th l) = l_width l.
Proof.
  unfold addGroup_body, layoutSummary.
  destruct (splitBack (l_groups l)) as [[front back]|]; simpl;
    now rewrite map_app.
Qed.

Lemma addItem_body_summary (i : Item) (iw ih tw th : R) (l : Layout') :
  layoutSummary (addItem_body i iw ih tw th l) = appendToLast i (layoutSummary l) /\
  l_valid (addItem_body i iw ih tw th l) = l_valid l /\
  l_width (addItem_body i iw ih tw th l) = l_width l.
Proof.
  unfold addItem_body, layoutSummary, appendToLast.
  destruct (splitBack (l_groups l)) as [[front back]|] eqn:Hsplit.
  - apply splitBack_snoc in Hsplit. rewrite Hsplit.
    rewrite map_app. simpl. rewrite splitBack_app. simpl.
    rewrite map_app. simpl. unfold summary at 2 3.
    now rewrite groupItems_addItem, group_addItem_item.
  - apply splitBack_nil in Hsplit. rewrite Hsplit. simpl. unfold summary.
    now rewrite groupItems_addItem, group_addItem_item.
Qed.

Lemma appendToLast_snoc (i : Item) (front : list (string * list Item)) (title : string)
    (items : list Item) :
  appendToLast i (front ++ [(title, items)]) = front ++ [(title, items ++ [i])].
Proof. unfold appendToLast. now rewrite splitBack_app. Qed.

Lemma readd_cells_summary (cells : list Cell) (l : Layout')
    (front : list (string * list Item)) (title : string) (items : list Item) :
  layoutSummary l = front ++ [(title, items)] ->
  layoutSummary (fold_left (readd_cell emptyItem) cells l)
    = front ++ [(title, items ++ map item' cells)] /\
  l_valid (fold_left (readd_cell emptyItem) cells l) = l_valid l /\
  l_width (fold_left (readd_cell emptyItem) cells l) = l_width l.
Proof.
  revert l items. induction cells as [|c rest IH]; intros l items Hl; simpl.
  - now rewrite app_nil_r.
  - unfold readd_cell at 2 4 6.
    destruct (addItem_body_summary (item' c) (div (width (itemBounds c)) (m_scale c))
                (div (height (itemBounds c)) (m_scale c))
                (width (titleBounds c)) (height (titleBounds c)) l) as (Hs & Hv & Hw).
    rewrite Hl, appendToLast_snoc in Hs.
    destruct (IH _ _ Hs) as (Hs' & Hv' & Hw').
    rewrite Hs', Hv', Hw', Hv, Hw, <- app_assoc. auto.
Qed.

Lemma readd_rows_summary (rows : list Row) (l : Layout')
    (front : list (string * list Item)) (title : string) (items : list Item) :
  layoutSummary l = front ++ [(title, items)] ->
  layoutSummary (fold_left (readd_row emptyItem) rows l)
    = front ++ [(title, items ++ concat (map rowItems rows))] /\
  l_valid (fold_left (readd_row emptyItem) rows l) = l_valid l /\
  l_width (fold_left (readd_row emptyItem) rows l) = l_width l.
Proof.
  revert l items. induction rows as [|row rest IH]; intros l items Hl; simpl.
  - now rewrite app_nil_r.
  - destruct (readd_cells_summary (m_cells row) l front title items Hl) as (Hs & Hv & Hw).
    destruct (IH _ _ Hs) as (Hs' & Hv' & Hw').
    unfold readd_row at 2 4 6. rewrite Hs', Hv', Hw', Hv, Hw, <- app_assoc. auto.
Qed.

Lemma readd_groups_summary (copy : list Group) (l : Layout') :
  layoutSummary (fold_left (readd_group emptyItem) copy l)
    = layoutSummary l ++ map summary copy /\
  l_valid (fold_left (readd_group emptyItem) copy l) = l_valid l /\
  l_width (fold_left (readd_group emptyItem) copy l) = l_width l.
Proof.
  revert l. induction copy as [|g rest IH]; intros l; simpl.
  - now rewrite app_nil_r.
  - destruct (addGroup_body_summary (g_item g) (height (g_titleBounds g)) l) as (Hs & Hv & Hw).
    destruct (readd_rows_summary (g_rows g) _ _ _ _ Hs) as (Hs' & Hv' & Hw').
    destruct (IH (readd_group emptyItem l g)) as (Hs'' & Hv'' & Hw'').
    rewrite Hs'', Hv'', Hw''. unfold readd_group. rewrite Hs', Hv', Hw', Hv, Hw.
    simpl. rewrite <- app_assoc. auto.
Qed.

Lemma validate_summary (l : Layout') : layoutSummary (validate' l) = layoutSummary l.
Proof.
  unfold validate. destruct (le (l_width l) zero); [reflexivity|].
  cbv zeta. cbn [l_groups with_state].
  destruct (l_groups l) as [|g gs] eqn:Hgroups.
  - unfold layoutSummary. cbn [l_groups with_state]. now rewrite Hgroups.
  - match goal with
    | |- context [fold_left ?f ?c ?a] =>
        destruct (readd_groups_summary c a) as (Hs & _)
    end.
    rewrite Hs. unfold layoutSummary at 2. now rewrite Hgroups.
Qed.

Lemma validate_nonpositive (l : Layout') : le (l_width l) zero = true -> validate' l = l.
Proof. intros Hw. unfold validate. now rewrite Hw. Qed.

Lemma validate_valid (l : Layout') :
  le (l_width l) zero = false -> l_valid (validate' l) = true.
Proof.
  intros Hw. unfold validate. rewrite Hw. cbv zeta. cbn [l_groups with_state].
  destruct (l_groups l) as [|g gs]; [reflexivity|].
  match goal with
  | |- context [fold_left ?f ?c ?a] =>
      destruct (readd_groups_summary c a) as (_ & Hv & _)
  end.
  now rewrite Hv.
Qed.

(** X8.  [validate] loses nothing: the layout it leaves has the same
    groups, with the same title items and the same cell items in the same
    order.  With a width that is not positive it changes nothing at all,
    and otherwise it leaves the layout valid. *)
Theorem validate_keeps_groups_and_items (l : Layout') :
  layoutSummary (validate' l) = layoutSummary l /\
  (le (l_width l) zero = true -> validate' l = l) /\
  (le (l_width l) zero = false -> l_valid (validate' l) = true).
Proof.
  split; [apply validate_summary|].
  split; [apply validate_nonpositive|apply validate_valid].
Qed.

Lemma fold_left_while_valid {X : Type} (f g : Layout' -> X -> Layout') (xs : list X)
    (acc : Layout') :
  (forall a x, l_valid a = true -> f a x = g a x) ->
  (forall a x, l_valid a = true -> l_valid (f a x) = true) ->
  l_valid acc = true ->
  fold_left f xs acc = fold_left g xs acc /\ l_valid (fold_left f xs acc) = true.
Proof.
  intros Hfg Hvalid. revert acc. induction xs as [|x rest IH]; intros acc Hacc; simpl.
  - now split.
  - rewrite <- (Hfg acc x Hacc). apply IH. now apply Hvalid.
Qed.

(** The calls that [validate] makes, as the source writes them: through
    [addGroup] and [addItem], which begin with the check of [m_valid]. *)
Definition readd_cell_public (l : Layout') (cell : Cell) : Layout' :=
  layout_addItem emptyItem (item' cell)
    (div (width (itemBounds cell)) (m_scale cell))
    (div (height (itemBounds cell)) (m_scale cell))
    (width (titleBounds cell)) (height (titleBounds cell)) l.

Definition readd_group_public (l : Layout') (g : Group) : Layout' :=
  fold_left (fun acc row => fold_left readd_cell_public (m_cells row) acc) (g_rows g)
            (addGroup emptyItem (g_item g) (height (g_titleBounds g)) l).

Lemma readd_cell_is_public (l : Layout') (c : Cell) :
  l_valid l = true -> readd_cell emptyItem l c = readd_cell_public l c.
Proof.
  intros Hl. unfold readd_cell, readd_cell_public, layout_addItem, ensureValid.
  now rewrite Hl.
Qed.

Lemma readd_cell_valid (l : Layout') (c : Cell) :
  l_valid l = true -> l_valid (readd_cell emptyItem l c) = true.
Proof.
  intros Hl. unfold readd_cell.
  destruct (addItem_body_summary (item' c) (div (width (itemBounds c)) (m_scale c))
              (div (height (itemBounds c)) (m_scale c))
              (width (titleBounds c)) (height (titleBounds c)) l) as (_ & Hv & _).
  congruence.
Qed.

Lemma readd_row_is_public (l : Layout') (row : Row) :
  l_valid l = true ->
  readd_row emptyItem l row = fold_left readd_cell_public (m_cells row) l /\
  l_valid (readd_row emptyItem l row) = true.
Proof.
  intros Hl. unfold readd_row.
  apply fold_left_while_valid; auto using readd_cell_is_public, readd_cell_valid.
Qed.

Lemma readd_group_is_public (l : Layout') (g : Group) :
  l_valid l = true ->
  readd_group emptyItem l g = readd_group_public l g /\
  l_valid (readd_group emptyItem l g) = true.
Proof.
  intros Hl. unfold readd_group, readd_group_public, addGroup, ensureValid.
  rewrite Hl. cbn [negb].
  apply (fold_left_while_valid (readd_row emptyItem)
           (fun acc row => fold_left readd_cell_public (m_cells row) acc)).
  - intros a row Ha. now apply readd_row_is_public.
  - intros a row Ha. now apply readd_row_is_public.
  - destruct (addGroup_body_summary (g_item g) (height (g_titleBounds g)) l) as (_ & Hv & _).
    congruence.
Qed.

(** While [validate] runs the layout is valid, so the checks of [m_valid]
    in the [addGroup] and [addItem] it calls find nothing to do: written
    with those calls it is the same function. *)
Lemma validate_calls_public_operations (l : Layout') :
  validate' l =
  if le (l_width l) zero then l
  else
    let l1 := with_state (l_groups l) true (mul two (l_outerMargin l)) l in
    match l_groups l1 with
    | [] => l1
    | _ :: _ =>
        fold_left readd_group_public (l_groups l1)
                  (with_state [] (l_valid l1) (l_height l1) l1)
    end.
Proof.
  unfold validate. destruct (le (l_width l) zero); [reflexivity|].
  cbv zeta. destruct (l_groups (with_state (l_groups l) true (mul two (l_outerMargin l)) l))
    as [|g gs]; [reflexivity|].
  apply fold_left_while_valid.
  - intros a x Ha. now apply readd_group_is_public.
  - intros a x Ha. now apply readd_group_is_public.
  - reflexivity.
Qed.

Lemma ensureValid_summary (l : Layout') :
  layoutSummary (ensureValid' l) = layoutSummary l.
Proof.
  unfold ensureValid. destruct (l_valid l); simpl; [reflexivity|].
  apply validate_summary.
Qed.

Lemma ensureValid_again (l : Layout') : ensureValid' (ensureValid' l) = ensureValid' l.
Proof.
  unfold ensureValid at 2 3. destruct (l_valid l) eqn:Hvalid; simpl.
  - unfold ensureValid. now rewrite Hvalid.
  - destruct (le (l_width l) zero) eqn:Hwidth.
    + rewrite (validate_nonpositive l Hwidth). unfold ensureValid. rewrite Hvalid. simpl.
      now apply validate_nonpositive.
    + unfold ensureValid. now rewrite (validate_valid l Hwidth).
Qed.

(** X9.  The accessors [height], [groups] and [cellAt] validate the
    layout when it is invalid and leave a second call nothing to do: they
    return the same value again and leave the layout as the first call
    left it; none of them adds, drops or reorders a group or an item. *)
Theorem accessors_validate_once (l : Layout') (px py : R) :
  layout_height emptyItem (snd (layout_height emptyItem l)) = layout_height emptyItem l /\
  groups emptyItem (snd (groups emptyItem l)) = groups emptyItem l /\
  layout_cellAt emptyItem (snd (layout_cellAt emptyItem l px py)) px py
    = layout_cellAt emptyItem l px py /\
  layoutSummary (snd (groups emptyItem l)) = layoutSummary l.
Proof.
  unfold layout_height, groups, layout_cellAt. simpl.
  rewrite !ensureValid_again. repeat split. apply ensureValid_summary.
Qed.

Lemma addGroup_summary (l : Layout') (title : string) (th : R) :
  layoutSummary (addGroup emptyItem title th l) = layoutSummary l ++ [(title, [])].
Proof.
  unfold addGroup. destruct (addGroup_body_summary title th (ensureValid' l)) as [-> _].
  now rewrite ensureValid_summary.
Qed.

Lemma layout_addItem_summary (l : Layout') (i : Item) (iw ih tw th : R) :
  layoutSummary (layout_addItem emptyItem i iw ih tw th l) = appendToLast i (layoutSummary l).
Proof.
  unfold layout_addItem.
  destruct (addItem_body_summary i iw ih tw th (ensureValid' l)) as [-> _].
  now rewrite ensureValid_summary.
Qed.

(** X10.  [addGroup] adds an empty group with the given title item behind
    the groups there are, and [addItem] adds the item behind the items of
    the last group, or to a first, untitled group when there is none;
    neither loses or reorders what the layout held, also when it has to
    validate the layout first. *)
Theorem layout_additions_append (l : Layout') (title : string) (i : Item)
    (iw ih tw th : R) :
  layoutSummary (addGroup emptyItem title th l) = layoutSummary l ++ [(title, [])] /\
  layoutSummary (layout_addItem emptyItem i iw ih tw th l) = appendToLast i (layoutSummary l).
Proof.
  split; [apply addGroup_summary|apply layout_addItem_summary].
Qed.

(** X11.  [clear] empties the layout and marks it invalid; the first item
    added afterwards is the only item of the only group, which has no
    title. *)
Theorem clear_then_addItem (l : Layout') (i : Item) (iw ih tw th : R) :
  l_groups (clear l) = [] /\
  l_valid (clear l) = false /\
  layoutSummary (layout_addItem emptyItem i iw ih tw th (clear l)) = [(EmptyString, [i])].
Proof.
  split; [reflexivity|]. split; [reflexivity|].
  rewrite layout_addItem_summary. reflexivity.
Qed.

(** X12.  [setWidth] with the width the layout has (by [==]) changes
    nothing; with another width it stores the width and marks the layout
    invalid, and the validation that the next access runs brings back
    every group and item in its place. *)
Theorem setWidth_keeps_groups_and_items (l : Layout') (w : R) :
  (eqb (l_width l) w = true -> setWidth w l = l) /\
  (eqb (l_width l) w = false ->
   l_width (setWidth w l) = w /\ l_valid (setWidth w l) = false) /\
  layoutSummary (snd (groups emptyItem (setWidth w l))) = layoutSummary l.
Proof.
  unfold groups. simpl. rewrite ensureValid_summary.
  unfold setWidth, neq. destruct (eqb (l_width l) w); simpl; repeat split; discriminate.
Qed.

End GroupFacts.

(** ** Groups over binary64 floats *)

#[local] Existing Instance View.floatScalar.

#[local] Instance floatOrder : ScalarOrder float := {|
  le := PrimFloat.leb;
  eqb := PrimFloat.eqb;
  one := 1%float;
  hundred := 100%float
|}.

(** A titled group 400 wide of square cells 100 wide, with the given cell
    limit per row. *)
Definition sampleGroup (maxCellsPerRow : Z) : @LayoutGroup float nat :=
  LayoutGroup_new "textures" 0%float 0%float 5%float 2%float 5%float 20%float 400%float
    maxCellsPerRow 1%float 100%float 100%float 100%float 100%float.

Definition addSampleItem (i : nat) (g : @LayoutGroup float nat) : @LayoutGroup float nat :=
  group_addItem i 64%float 64%float 40%float 10%float g.

(** With the limit 3 a group puts three items into two rows. *)
Example group_of_limit_three :
  map (rowItems 0%nat)
      (g_rows (addSampleItem 3%nat (addSampleItem 2%nat (addSampleItem 1%nat (sampleGroup 3)))))
  = [[1%nat; 2%nat]; [3%nat]].
Proof. reflexivity. Qed.

Lemma group_rows_stay_within_limit_witness :
  addItem_asserted (addSampleItem 2%nat (addSampleItem 1%nat (sampleGroup 3)))
    64%float 64%float 40%float 10%float = true /\
  Forall (fun row : LayoutRow float nat => 1 <= cells_size row /\ (0 < 3 -> cells_size row <= 3 - 1))
         (g_rows (addSampleItem 2%nat (addSampleItem 1%nat (sampleGroup 3)))).
Proof.
  apply (group_rows_stay_within_limit
           (addSampleItem 2%nat (addSampleItem 1%nat (sampleGroup 3)))).
  - apply protocol_item, protocol_item, protocol_titled.
  - vm_compute. split; [discriminate|reflexivity].
  - vm_compute. discriminate.
Defined.

Lemma group_of_limit_one_breaks_its_assertion_witness :
  addItem_asserted (sampleGroup 1) 64%float 64%float 40%float 10%float = false /\
  exists r0 r1 : LayoutRow float nat,
    g_rows (addSampleItem 7%nat (sampleGroup 1)) = [r0; r1] /\
    m_cells r0 = [] /\ rowItems 0%nat r1 = [7%nat].
Proof.
  destruct (group_of_limit_one_breaks_its_assertion 0%nat (sampleGroup 1) 7%nat
              64%float 64%float 40%float 10%float) as [Hassert Hrows].
  - apply protocol_titled.
  - reflexivity.
  - split; [exact Hassert|]. apply Hrows. reflexivity.
Defined.

(** A layout 400 wide with two groups: validating it after a change of
    width keeps the groups and their items. *)
Definition sampleLayout : @Layout float nat :=
  layout_addItem 0%nat 3%nat 64%float 64%float 40%float 10%float
    (addGroup 0%nat "b" 20%float
       (layout_addItem 0%nat 2%nat 64%float 64%float 40%float 10%float
          (layout_addItem 0%nat 1%nat 64%float 64%float 40%float 10%float
             (addGroup 0%nat "a" 20%float (setWidth 400%float (CellLayout_new 0)))))).

Example sampleLayout_summary :
  layoutSummary 0%nat sampleLayout = [("a"%string, [1%nat; 2%nat]); ("b"%string, [3%nat])] /\
  layoutSummary 0%nat (snd (groups 0%nat (setWidth 200%float sampleLayout)))
  = [("a"%string, [1%nat; 2%nat]); ("b"%string, [3%nat])] /\
  l_valid (snd (groups 0%nat (setWidth 200%float sampleLayout))) = true.
Proof. repeat split; reflexivity. Qed.

End CellLayout.


(** * More of the brush node *)

Module BrushNodeMore.
Import Model.
Local Open Scope node_scope.

Section Definitions.
Context `{K : BrushKernel}.

(** [BrushNode::cloneFaceAttributesFrom] with a vector of nodes *)
Fixpoint cloneFaceAttributesFrom_all (this : NodeId) (brushes : list NodeId) : M unit :=
  match brushes with
  | [] => ret tt
  | b :: rest => cloneFaceAttributesFrom this b ;; cloneFaceAttributesFrom_all this rest
  end.

(** [BrushNode::cloneInvertedFaceAttributesFrom] with a vector of nodes *)
Fixpoint cloneInvertedFaceAttributesFrom_all (this : NodeId) (brushes : list NodeId) : M unit :=
  match brushes with
  | [] => ret tt
  | b :: rest =>
      cloneInvertedFaceAttributesFrom this b ;; cloneInvertedFaceAttributesFrom_all this rest
  end.

(** [BrushNode::doFindNodesContaining] *)
Definition doFindNodesContaining (this : NodeId) (point : vec3) (result : list NodeId)
    : M (list NodeId) :=
  inside <- containsPoint this point ;;
  if inside then ret (result ++ [this]) else ret result.

End Definitions.

Section Facts.
Context `{K : BrushKernel}.

(** A wrapper that is the two guards around one call into the brush: it
    hands back what the call returned or threw, leaves the brush as the
    call left it, the flags of the node as they were, and logs the
    bracket. *)
Definition delegatesTo {A : Type} (this : NodeId) (m : M A) (op : BrushMutation A) : Prop :=
  forall w st, nodes w !! this = Some st ->
    m w = Some (snd (brush_mutate op (m_brush st)),
                {| nodes := <[this := with_brush (fst (brush_mutate op (m_brush st))) st]>
                              (nodes w);
                   log := log w ++ guardedWrite this |}).

Lemma guarded_call_delegates {A : Type} (this : NodeId) (op : BrushMutation A) :
  delegatesTo this
    (scoped NodeChange this (scoped PhysicalBoundsChange this (mutateBrush this op))) op.
Proof.
  intros w st Hst. unfold scoped, mutateBrush. simpl. rewrite Hst.
  destruct (brush_mutate op (m_brush st)) as [b r]. simpl.
  unfold emit, store. simpl. rewrite <- !app_assoc. reflexivity.
Qed.

(** Each of [moveVertices], [addVertex], [removeVertices],
    [snapVertices], [moveEdges], [moveFaces], [findIntegerPlanePoints] and
    [doTransform] returns exactly what the brush's operation returned, or
    throws what it threw, stores the brush as the operation left it, keeps
    the two cache flags of the node, and logs the bracket of
    notifications. *)
Lemma wrappers_delegate_to_the_brush (this : NodeId) (wb : bbox3) :
  (forall vs d uv, delegatesTo this (moveVertices this wb vs d uv)
                     (Brush_moveVertices wb vs d uv)) /\
  (forall p, delegatesTo this (addVertex this wb p) (Brush_addVertex wb p)) /\
  (forall vs, delegatesTo this (removeVertices this wb vs) (Brush_removeVertices wb vs)) /\
  (forall sn uv, delegatesTo this (snapVertices this wb sn uv)
                   (Brush_snapVertices wb sn uv)) /\
  (forall es d uv, delegatesTo this (moveEdges this wb es d uv)
                     (Brush_moveEdges wb es d uv)) /\
  (forall fs d uv, delegatesTo this (moveFaces this wb fs d uv)
                     (Brush_moveFaces wb fs d uv)) /\
  delegatesTo this (findIntegerPlanePoints this wb) (Brush_findIntegerPlanePoints wb) /\
  (forall t lock, delegatesTo this (doTransform this t lock wb)
                    (Brush_transform t lock wb)).
Proof.
  repeat split; intros; apply guarded_call_delegates.
Qed.

(** X13.  [setFaces] leaves both caches of the node invalid when the brush
    accepts the faces; when the brush throws, the exception passes through
    and the two invalidations are skipped, so both flags stay as they
    were.  Either way the brush is as the brush's [setFaces] left it and
    the notifications are released. *)
Theorem setFaces_invalidates_unless_the_brush_throws (this : NodeId) (wb : bbox3)
    (fs : list BrushFace) (w : World) (st : BrushNode) :
  nodes w !! this = Some st ->
  let result := brush_mutate (Brush_setFaces wb fs) (m_brush st) in
  exists w',
    setFaces this wb fs w = Some (snd result, w') /\
    log w' = log w ++ guardedWrite this /\
    nodes w' !! this =
      Some (match snd result with
            | Ok _ => {| m_brush := fst result;
                         m_vertexCacheValid := false; m_issuesValid := false |}
            | Throw _ => with_brush (fst result) st
            end).
Proof.
  intros Hst. unfold setFaces, scoped, bind, mutateBrush, invalidateIssues,
    invalidateVertexCache. simpl. rewrite Hst.
  destruct (brush_mutate (Brush_setFaces wb fs) (m_brush st)) as [b [[]|e]]; simpl.
  - rewrite lookup_insert_eq. simpl. rewrite lookup_insert_eq. simpl.
    eexists. split; [reflexivity|]. simpl. rewrite <- !app_assoc.
    split; [reflexivity|]. now rewrite lookup_insert_eq.
  - eexists. split; [reflexivity|]. simpl. rewrite <- !app_assoc.
    split; [reflexivity|]. now rewrite lookup_insert_eq.
Qed.

(** A block after which every node was there before, with flags that were
    set before if they are set now. *)
Definition flagsNotRaised (w w' : World) : Prop :=
  forall n st', nodes w' !! n = Some st' ->
    exists st, nodes w !! n = Some st /\
               (m_vertexCacheValid st' = true -> m_vertexCacheValid st = true) /\
               (m_issuesValid st' = true -> m_issuesValid st = true).

Definition neverValidates {A : Type} (body : M A) : Prop :=
  forall w r w', body w = Some (r, w') -> flagsNotRaised w w'.

Lemma flagsNotRaised_refl (w : World) : flagsNotRaised w w.
Proof. intros n st Hst. eauto. Qed.

Lemma flagsNotRaised_trans (w1 w2 w3 : World) :
  flagsNotRaised w1 w2 -> flagsNotRaised w2 w3 -> flagsNotRaised w1 w3.
Proof.
  intros H12 H23 n st3 Hst3.
  destruct (H23 n st3 Hst3) as (st2 & Hst2 & Hc2 & Hi2).
  destruct (H12 n st2 Hst2) as (st1 & Hst1 & Hc1 & Hi1).
  exists st1. auto.
Qed.

Lemma flagsNotRaised_store (w : World) (n : NodeId) (st st' : BrushNode) :
  nodes w !! n = Some st ->
  (m_vertexCacheValid st' = true -> m_vertexCacheValid st = true) ->
  (m_issuesValid st' = true -> m_issuesValid st = true) ->
  flagsNotRaised w (store n st' w).
Proof.
  intros Hst Hc Hi m stm. simpl. destruct (decide (n = m)) as [<-|Hne].
  - rewrite lookup_insert_eq. intros [= <-]. eauto.
  - rewrite lookup_insert_ne by exact Hne. eauto.
Qed.

Lemma neverValidates_ret {A : Type} (a : A) : neverValidates (ret a).
Proof. intros w r w' [= _ <-]. apply flagsNotRaised_refl. Qed.

Lemma neverValidates_deref (n : NodeId) : neverValidates (deref n).
Proof.
  intros w r w' Hrun. unfold deref in Hrun. destruct (nodes w !! n); [|discriminate].
  injection Hrun as _ <-. apply flagsNotRaised_refl.
Qed.

Lemma neverValidates_bind {A B : Type} (m : M A) (k : A -> M B) :
  neverValidates m -> (forall a, neverValidates (k a)) -> neverValidates (bind m k).
Proof.
  intros Hm Hk w r w' Hrun. unfold bind in Hrun.
  destruct (m w) as [[[a|e] w1]|] eqn:Hmw; [| |discriminate].
  - eapply flagsNotRaised_trans; [exact (Hm _ _ _ Hmw)|exact (Hk a _ _ _ Hrun)].
  - injection Hrun as _ <-. exact (Hm _ _ _ Hmw).
Qed.

Lemma neverValidates_scoped {A : Type} (g : Guard) (n : NodeId) (body : M A) :
  neverValidates body -> neverValidates (scoped g n body).
Proof.
  intros Hbody w r w' Hrun. unfold scoped in Hrun.
  destruct (body (emit (Acquire g n) w)) as [[r1 w1]|] eqn:Hb; [|discriminate].
  injection Hrun as _ <-. exact (Hbody _ _ _ Hb).
Qed.

Lemma neverValidates_mutateBrush {A : Type} (this : NodeId) (op : BrushMutation A) :
  neverValidates (mutateBrush this op).
Proof.
  intros w r w' Hrun. unfold mutateBrush in Hrun.
  destruct (nodes w !! this) as [st|] eqn:Hst; [|discriminate].
  destruct (brush_mutate op (m_brush st)) as [b r1]. injection Hrun as _ <-.
  apply (flagsNotRaised_store (emit (BrushWrite this) w) this st); auto.
Qed.

Lemma neverValidates_assignBrush (this : NodeId) (b : Brush) :
  neverValidates (assignBrush this b).
Proof.
  intros w r w' Hrun. unfold assignBrush in Hrun.
  destruct (nodes w !! this) as [st|] eqn:Hst; [|discriminate].
  injection Hrun as _ <-.
  apply (flagsNotRaised_store (emit (BrushWrite this) w) this st); auto.
Qed.

Lemma neverValidates_setNode (this target : NodeId) : neverValidates (setNode this target).
Proof.
  intros w r w' Hrun. unfold setNode in Hrun.
  destruct (nodes w !! this) as [st|] eqn:Hst; [|discriminate].
  injection Hrun as _ <-. apply (flagsNotRaised_store w this st); auto.
Qed.

Lemma neverValidates_invalidateIssues (this : NodeId) :
  neverValidates (invalidateIssues this).
Proof.
  intros w r w' Hrun. unfold invalidateIssues in Hrun.
  destruct (nodes w !! this) as [st|] eqn:Hst; [|discriminate].
  injection Hrun as _ <-. apply (flagsNotRaised_store w this st); auto; discriminate.
Qed.

Lemma neverValidates_invalidateVertexCache (this : NodeId) :
  neverValidates (invalidateVertexCache this).
Proof.
  intros w r w' Hrun. unfold invalidateVertexCache in Hrun.
  destruct (nodes w !! this) as [st|] eqn:Hst; [|discriminate].
  injection Hrun as _ <-. apply (flagsNotRaised_store w this st); auto; discriminate.
Qed.

Create HintDb validates discriminated.
#[local] Hint Resolve neverValidates_ret neverValidates_deref neverValidates_bind
  neverValidates_scoped neverValidates_mutateBrush neverValidates_assignBrush
  neverValidates_setNode neverValidates_invalidateIssues
  neverValidates_invalidateVertexCache : validates.



(** *** Cloning face attributes *)

(** The brush a call takes the attributes from: the brush of the node the
    call names, as the store holds it when the call is made.  Only the
    brush of [this] is written on the way, so this is the brush the store
    held at the start, unless the call names [this] itself. *)
Definition donor (w : World) (this : NodeId) (current : Brush) (brushNode : NodeId)
    : option Brush :=
  if decide (brushNode = this) then Some current else m_brush <$> nodes w !! brushNode.

(** The calls into the brush, taken in the order of the vector and ended
    by the first exception: the brush left, the outcome, and the number of
    calls made.  [None]: a call named no node. *)
Fixpoint cloneInOrder (op : Brush -> BrushMutation unit) (w : World) (this : NodeId)
    (brushes : list NodeId) (current : Brush) : option (Brush * Outcome unit * nat) :=
  match brushes with
  | [] => Some (current, Ok tt, 0%nat)
  | b :: rest =>
      match donor w this current b with
      | None => None
      | Some from =>
          match brush_mutate (op from) current with
          | (next, Ok _) =>
              match cloneInOrder op w this rest next with
              | Some (final, r, k) => Some (final, r, S k)
              | None => None
              end
          | (next, Throw e) => Some (next, Throw e, 1%nat)
          end
      end
  end.

(** The store after [k] writes that leave [this] with the brush [final]:
    the node keeps its flags, every other node is as it was, and the log
    has gained the [k] writes and nothing else. *)
Definition written (this : NodeId) (st : BrushNode) (w : World)
    (result : Brush * Outcome unit * nat) : Outcome unit * World :=
  let '(final, r, k) := result in
  (r, {| nodes := <[this := with_brush final st]> (nodes w);
         log := log w ++ repeat (BrushWrite this) k |}).

Lemma cloneInOrder_ext (op : Brush -> BrushMutation unit) (w w0 : World) (this : NodeId)
    (brushes : list NodeId) :
  (forall n, n <> this -> nodes w !! n = nodes w0 !! n) ->
  forall current, cloneInOrder op w this brushes current = cloneInOrder op w0 this brushes current.
Proof.
  intros Hsame. induction brushes as [|b rest IH]; intros current; [reflexivity|].
  simpl. unfold donor. destruct (decide (b = this)) as [->|Hne].
  - destruct (brush_mutate (op current) current) as [next [[]|e]]; [|reflexivity].
    now rewrite IH.
  - rewrite (Hsame b Hne). destruct (nodes w0 !! b) as [sto|]; [|reflexivity]. simpl.
    destruct (brush_mutate (op (m_brush sto)) current) as [next [[]|e]]; [|reflexivity].
    now rewrite IH.
Qed.

Lemma written_nothing (this : NodeId) (st : BrushNode) (w : World) :
  nodes w !! this = Some st ->
  written this st w (m_brush st, Ok tt, 0%nat) = (Ok tt, w).
Proof.
  intros Hst. unfold written. simpl. rewrite app_nil_r.
  replace (with_brush (m_brush st) st) with st by now destruct st.
  rewrite (insert_id _ _ _ Hst). now destruct w.
Qed.

Lemma unguarded_loop_in_order (this : NodeId) (op : Brush -> BrushMutation unit)
    (all : NodeId -> list NodeId -> M unit) :
  (forall bs, all this bs =
     match bs with
     | [] => ret tt
     | b :: rest => (_ <- (o <- deref b ;; mutateBrush this (op (m_brush o))) ;; all this rest)
     end) ->
  forall brushes w st, nodes w !! this = Some st ->
    all this brushes w = written this st w <$> cloneInOrder op w this brushes (m_brush st).
Proof.
  intros Hall. induction brushes as [|b rest IH]; intros w st Hst; rewrite Hall.
  - transitivity (Some (written this st w (m_brush st, Ok tt, 0%nat))); [|reflexivity].
    now rewrite (written_nothing this st w Hst).
  - unfold bind, deref, mutateBrush. cbn [cloneInOrder]. unfold donor.
    assert (Hfrom : match nodes w !! b with
                    | Some sto => (if decide (b = this) then Some (m_brush st)
                                   else m_brush <$> nodes w !! b) = Some (m_brush sto)
                    | None => (if decide (b = this) then Some (m_brush st)
                               else m_brush <$> nodes w !! b) = None
                    end).
    { destruct (decide (b = this)) as [->|Hne].
      - now rewrite Hst.
      - now destruct (nodes w !! b). }
    destruct (nodes w !! b) as [sto|]; rewrite Hfrom; [|reflexivity].
    rewrite Hst.
    destruct (brush_mutate (op (m_brush sto)) (m_brush st)) as [next [[]|e]]; [|reflexivity].
    set (w1 := store this (with_brush next st) (emit (BrushWrite this) w)).
    assert (Hst1 : nodes w1 !! this = Some (with_brush next st)) by apply lookup_insert_eq.
    rewrite (IH w1 (with_brush next st) Hst1).
    rewrite (cloneInOrder_ext op w1 w this rest)
      by (intros n Hn; apply lookup_insert_ne; congruence).
    cbn [m_brush with_brush].
    destruct (cloneInOrder op w this rest next) as [[[final r] k]|]; [|reflexivity].
    simpl. rewrite insert_insert_eq, <- app_assoc. reflexivity.
Qed.

(** X15.  With the kernel working on the brush alone,
    [cloneFaceAttributesFrom] and [cloneInvertedFaceAttributesFrom] over a
    vector of nodes leave what the brush's calls leave when they are made
    in the order of the vector, each with the brush its node holds at that
    moment, and ended by the first exception: the node holds the brush of
    the last call made and keeps both flags, every other node is as it
    was, and the log gains one write of the brush per call made and no
    notification. *)
Theorem cloneFaceAttributes_in_order_unnotified (this : NodeId) (brushes : list NodeId)
    (w : World) (st : BrushNode) :
  nodes w !! this = Some st ->
  cloneFaceAttributesFrom_all this brushes w
    = written this st w
        <$> cloneInOrder Brush_cloneFaceAttributesFrom w this brushes (m_brush st)
  /\ cloneInvertedFaceAttributesFrom_all this brushes w
    = written this st w
        <$> cloneInOrder Brush_cloneInvertedFaceAttributesFrom w this brushes (m_brush st).
Proof.
  intros Hst. split.
  - apply (unguarded_loop_in_order this Brush_cloneFaceAttributesFrom
             cloneFaceAttributesFrom_all); [|exact Hst].
    now intros [|b rest].
  - apply (unguarded_loop_in_order this Brush_cloneInvertedFaceAttributesFrom
             cloneInvertedFaceAttributesFrom_all); [|exact Hst].
    now intros [|b rest].
Qed.

(** X16.  When the brush's [subtract] throws, [subtract] passes the
    exception on, whatever the factory: no node is made and the store is
    as it was. *)
Theorem subtract_passes_the_exception_on (this : NodeId) (factory : ModelFactory)
    (worldBounds : bbox3) (defaultTextureName : string) (subtrahends : list NodeId)
    (subtrahendBrushes : list Brush) (w : World) (st : BrushNode) (e : Exn) :
  nodes w !! this = Some st ->
  Forall2 (holdsBrush w) subtrahends subtrahendBrushes ->
  brush_query (Brush_subtract worldBounds defaultTextureName subtrahendBrushes) (m_brush st)
    = Throw e ->
  subtract this factory worldBounds defaultTextureName subtrahends w = Some (Throw e, w).
Proof.
  intros Hst Hsubs Hquery. unfold subtract, bind.
  rewrite (vec_transform_brush _ _ _ Hsubs).
  now rewrite (queryBrush_frame this _ w st Hst), Hquery.
Qed.

(** *** Tags, face by face *)

Lemma shared_tags_nonneg (fs : list BrushFace) (acc : Z) :
  0 <= acc -> 0 <= fold_left (fun shared face => Z.land shared (face_tagMask face)) fs acc.
Proof.
  revert acc. induction fs as [|f fs IH]; intros acc Hacc; simpl; [exact Hacc|].
  apply IH. apply Z.land_nonneg. now left.
Qed.

Lemma AnyType_nonneg : 0 <= AnyType.
Proof.
  unfold AnyType. rewrite Z.ones_equiv.
  pose proof (Z.pow_pos_nonneg 2 (Z.of_N tagBits)). lia.
Qed.

Lemma anyFaceHasAnyTag_faces_iff (fs : list BrushFace) :
  anyFaceHasAnyTag_faces fs = true <-> exists face, In face fs /\ face_hasAnyTag face = true.
Proof.
  induction fs as [|f fs IH]; simpl.
  - split; [discriminate|]. now intros (face & [] & _).
  - destruct (face_hasAnyTag f) eqn:Hf.
    + split; [eauto|reflexivity].
    + rewrite IH. split.
      * intros (face & Hin & Hface). eauto.
      * intros (face & [<-|Hin] & Hface); [congruence|eauto].
Qed.

Lemma anyFacesHaveAnyTagInMask_faces_iff (tagMask : Z) (fs : list BrushFace) :
  anyFacesHaveAnyTagInMask_faces tagMask fs = true <->
  exists face, In face fs /\ face_hasTag face tagMask = true.
Proof.
  induction fs as [|f fs IH]; simpl.
  - split; [discriminate|]. now intros (face & [] & _).
  - destruct (face_hasTag f tagMask) eqn:Hf.
    + split; [eauto|reflexivity].
    + rewrite IH. split.
      * intros (face & Hin & Hface). eauto.
      * intros (face & [<-|Hin] & Hface); [congruence|eauto].
Qed.

(** X17.  [anyFaceHasAnyTag] holds exactly when some face of the brush has
    a tag, and [anyFacesHaveAnyTagInMask] exactly when some face has a tag
    of the mask.  When [allFacesHaveAnyTagInMask] holds, every face shares a
    bit with the mask, and a face added to the brush can only turn the
    answer from true to false. *)
Theorem tag_queries_face_by_face (st : BrushNode) (tagMask : Z) :
  (anyFaceHasAnyTag st = true <->
   exists face, In face (m_faces (m_brush st)) /\ face_hasAnyTag face = true) /\
  (anyFacesHaveAnyTagInMask st tagMask = true <->
   exists face, In face (m_faces (m_brush st)) /\ face_hasTag face tagMask = true) /\
  (allFacesHaveAnyTagInMask st tagMask = true ->
   forall face, In face (m_faces (m_brush st)) ->
                Z.land (face_tagMask face) tagMask <> 0) /\
  (forall face,
     allFacesHaveAnyTagInMask
       (with_brush (with_faces (m_faces (m_brush st) ++ [face]) (m_brush st)) st) tagMask
     = true ->
     allFacesHaveAnyTagInMask st tagMask = true).
Proof.
  split; [apply anyFaceHasAnyTag_faces_iff|].
  split; [apply anyFacesHaveAnyTagInMask_faces_iff|].
  split.
  - unfold allFacesHaveAnyTagInMask. rewrite negb_true_iff, Z.eqb_neq.
    intros Hne face Hin Hzero.
    destruct (nonneg_nonzero_has_bit _
                (proj2 (Z.land_nonneg _ tagMask)
                   (or_introl (shared_tags_nonneg (m_faces (m_brush st)) AnyType
                                 AnyType_nonneg))) Hne)
      as (i & _ & Hbit).
    rewrite Z.land_spec, shared_tags_testbit in Hbit.
    apply andb_true_iff in Hbit as [Hshared Hmask].
    apply andb_true_iff in Hshared as [_ Hall].
    rewrite forallb_forall in Hall.
    apply (bit_set_nonzero (Z.land (face_tagMask face) tagMask) i); [|exact Hzero].
    now rewrite Z.land_spec, (Hall face Hin), Hmask.
  - intros face. unfold allFacesHaveAnyTagInMask. simpl.
    rewrite fold_left_app. simpl.
    rewrite !negb_true_iff, !Z.eqb_neq. intros Hne Hzero. apply Hne.
    apply Z.bits_inj'. intros i _.
    rewrite !Z.land_spec, Z.bits_0.
    apply (f_equal (fun z => Z.testbit z i)) in Hzero.
    rewrite Z.land_spec, Z.bits_0 in Hzero.
    destruct (Z.testbit tagMask i); [|now rewrite !andb_false_r].
    rewrite andb_true_r in Hzero. now rewrite Hzero.
Qed.

End Facts.

(** Two faces with the tags 1 and 2 each share a bit with the mask 3, and
    yet [allFacesHaveAnyTagInMask] is false for it: no bit of the mask is
    in both. *)
Example every_face_tagged_but_not_all :
  let st := sampleNode 1%positive [mkBrushFace 1%positive 1; mkBrushFace 2%positive 2] true in
  allFacesHaveAnyTagInMask (K:=sampleKernel) st 3 = false /\
  Forall (fun face => Z.land (face_tagMask face) 3 <> 0) (m_faces (m_brush st)).
Proof. split; [reflexivity|]. repeat constructor; discriminate. Qed.

(** A kernel whose [subtract] always throws. *)
Definition failing_query (A : Type) (q : BrushQuery A) (b : Brush) : Outcome A :=
  match q in BrushQuery T return Outcome T with
  | Brush_subtract _ _ _ => Throw GeometryException
  | other => sample_query _ other b
  end.

Definition failingSubtractKernel : BrushKernel := {|
  brush_mutate := sample_mutate;
  brush_query := failing_query;
  tagBits := 8%N;
  face_hasAnyTag := fun _ => false;
  face_hasTag := fun _ _ => false;
  face_intersectWithRay := fun _ _ => PrimFloat.nan;
  intersect_ray_bbox := fun _ _ => PrimFloat.nan;
  point_at_distance := fun r _ => ray_origin r
|}.

Lemma setFaces_invalidates_unless_the_brush_throws_witness :
  (exists w' st',
     setFaces (K:=sampleKernel) 1%positive unitBounds [faceB] sampleWorld = Some (Ok tt, w') /\
     nodes w' !! 1%positive = Some st' /\ m_vertexCacheValid st' = false) /\
  (exists w' st',
     setFaces (K:=throwingKernel) 1%positive unitBounds [faceB] sampleWorld
       = Some (Throw GeometryException, w') /\
     nodes w' !! 1%positive = Some st' /\ m_vertexCacheValid st' = true).
Proof.
  split.
  - destruct (setFaces_invalidates_unless_the_brush_throws (K:=sampleKernel) 1%positive
                unitBounds [faceB] sampleWorld (sampleNode 1%positive [faceA; faceB] true)
                eq_refl) as (w' & Hrun & _ & Hnode).
    eexists w', _. split; [exact Hrun|]. split; [exact Hnode|reflexivity].
  - destruct (setFaces_invalidates_unless_the_brush_throws (K:=throwingKernel) 1%positive
                unitBounds [faceB] sampleWorld (sampleNode 1%positive [faceA; faceB] true)
                eq_refl) as (w' & Hrun & _ & Hnode).
    eexists w', _. split; [exact Hrun|]. split; [exact Hnode|reflexivity].
Defined.


(** The attributes of node 2 cloned twice into node 1 of the sample store. *)
Lemma cloneFaceAttributes_in_order_unnotified_witness :
  cloneFaceAttributesFrom_all (K:=sampleKernel) 1%positive [2%positive; 2%positive] sampleWorld
    = written 1%positive (sampleNode 1%positive [faceA; faceB] true) sampleWorld
        <$> cloneInOrder (K:=sampleKernel) Brush_cloneFaceAttributesFrom sampleWorld 1%positive
              [2%positive; 2%positive] (m_brush (sampleNode 1%positive [faceA; faceB] true))
  /\ cloneInvertedFaceAttributesFrom_all (K:=sampleKernel) 1%positive [2%positive; 2%positive]
       sampleWorld
    = written 1%positive (sampleNode 1%positive [faceA; faceB] true) sampleWorld
        <$> cloneInOrder (K:=sampleKernel) Brush_cloneInvertedFaceAttributesFrom sampleWorld
              1%positive [2%positive; 2%positive]
              (m_brush (sampleNode 1%positive [faceA; faceB] true)).
Proof.
  apply (cloneFaceAttributes_in_order_unnotified (K:=sampleKernel) 1%positive
           [2%positive; 2%positive] sampleWorld (sampleNode 1%positive [faceA; faceB] true)).
  reflexivity.
Defined.

(** With a brush that throws, the first call is the last. *)
Example cloneFaceAttributes_end_at_the_exception :
  option_map (fun x => (fst x, log (snd x)))
    (cloneFaceAttributesFrom_all (K:=throwingKernel) 1%positive [2%positive; 2%positive]
       sampleWorld)
  = Some (Throw GeometryException, [BrushWrite 1%positive]).
Proof. reflexivity. Qed.

Lemma subtract_passes_the_exception_on_witness :
  subtract (K:=failingSubtractKernel) 1%positive nodeFactory unitBounds EmptyString
    [2%positive] sampleWorld
  = Some (Throw GeometryException, sampleWorld).
Proof.
  apply (subtract_passes_the_exception_on (K:=failingSubtractKernel) 1%positive nodeFactory
           unitBounds EmptyString [2%positive] [m_brush (sampleNode 2%positive [faceB] true)]
           sampleWorld (sampleNode 1%positive [faceA; faceB] true)).
  - reflexivity.
  - constructor; [|constructor]. eexists. split; reflexivity.
  - reflexivity.
Defined.

End BrushNodeMore.

(** * The rotation policy of entities *)

Module EntityRotationPolicy.
Import Model.

Inductive RotationType : Type :=
| RotationType_None
| RotationType_Angle
| RotationType_AngleUpDown
| RotationType_Euler
| RotationType_Euler_PositivePitchDown
| RotationType_Mangle.

Inductive RotationUsage : Type := Allowed | BlockRotation.

(** [Assets::PitchType] *)
Inductive PitchType : Type := PitchType_Normal | PitchType_MdlInverted.

Record RotationInfo : Type := mkRotationInfo {
  info_type : RotationType;
  info_propertyKey : string;
  info_usage : RotationUsage
}.

(** What the policy asks of an entity and of the names in
    [EntityPropertyKeys] and [EntityPropertyValues]; [Entity] with its
    model and its definition is not part of these files.  [model_pitchType]
    is [None] for an entity without model, and [centerIsZero] is the test
    [vm::is_zero] of the horizontal part of the centre of the definition
    bounds. *)
Class EntityInterface (Entity Config : Type) : Type := {
  classname : Entity -> string;
  hasProperty : Entity -> string -> bool;
  property : Entity -> string -> option string;
  pointEntity : Entity -> bool;
  model_pitchType : Entity -> option PitchType;
  centerIsZero : Entity -> bool;
  addOrUpdateProperty : Config -> string -> string -> Entity -> Entity;
  NoClassname : string;
  key_Mangle : string;
  key_Target : string;
  key_Angles : string;
  key_Angle : string
}.

(** The routines of vecmath, of [kdl] and of the C library that the policy
    calls. *)
Class Vecmath : Type := {
  mat_identity : mat4x4;
  rot_90_y_cw : mat4x4;
  rot_90_y_ccw : mat4x4;
  rotation_matrix_axis : vec3 -> FloatType -> mat4x4;
  rotation_matrix_angles : FloatType -> FloatType -> FloatType -> mat4x4;
  mat_from_rows : vec3 -> vec3 -> vec3 -> mat4x4;
  rotation_matrix_to_euler_angles : mat4x4 -> vec3;
  strip_translation : mat4x4 -> mat4x4;
  mat_mul : mat4x4 -> mat4x4 -> mat4x4;
  mat_apply : mat4x4 -> vec3 -> vec3;
  pos_x : vec3;
  pos_z : vec3;
  vec_zero : vec3;
  normalize : vec3 -> vec3;
  cross : vec3 -> vec3 -> vec3;
  round_vec : vec3 -> vec3;
  round : FloatType -> FloatType;
  to_radians : FloatType -> FloatType;
  to_degrees : FloatType -> FloatType;
  normalize_degrees : FloatType -> FloatType;
  acos : FloatType -> FloatType;
  atof : string -> FloatType;
  parse_vec3 : string -> option vec3;
  vec_to_string : vec3 -> string;
  float_to_string : FloatType -> string
}.

Section Policy.
Context {Entity Config : Type} `{EntityInterface Entity Config} `{Vecmath}.

(** [EntityRotationPolicy::rotationInfo] *)
Definition rotationInfo (entity : Entity) : RotationInfo :=
  let pitchType :=
    match model_pitchType entity with
    | Some p => p
    | None => PitchType_Normal
    end in
  let eulerType :=
    match pitchType with
    | PitchType_MdlInverted => RotationType_Euler
    | PitchType_Normal => RotationType_Euler_PositivePitchDown
    end in
  let name := classname entity in
  if negb (String.eqb name NoClassname) then
    if String.prefix "light" name then
      if hasProperty entity key_Mangle then
        mkRotationInfo RotationType_Mangle key_Mangle Allowed
      else if negb (hasProperty entity key_Target) then
        if hasProperty entity key_Angles then
          mkRotationInfo eulerType key_Angles Allowed
        else
          mkRotationInfo RotationType_Angle key_Angle Allowed
      else
        mkRotationInfo RotationType_None EmptyString Allowed
    else
      if negb (pointEntity entity) then
        if hasProperty entity key_Angles then
          mkRotationInfo eulerType key_Angles Allowed
        else if hasProperty entity key_Mangle then
          mkRotationInfo eulerType key_Mangle Allowed
        else if hasProperty entity key_Angle then
          mkRotationInfo RotationType_AngleUpDown key_Angle Allowed
        else
          mkRotationInfo RotationType_None EmptyString Allowed
      else
        let usage := if negb (centerIsZero entity) then BlockRotation else Allowed in
        if hasProperty entity key_Angles then
          mkRotationInfo eulerType key_Angles usage
        else if hasProperty entity key_Mangle then
          mkRotationInfo eulerType key_Mangle usage
        else
          mkRotationInfo RotationType_AngleUpDown key_Angle usage
  else
    mkRotationInfo RotationType_None EmptyString Allowed.

(** [EntityRotationPolicy::getPropertyKey] *)
Definition getPropertyKey (entity : Entity) : string :=
  info_propertyKey (rotationInfo entity).

(** The three angles read from a property, zero when the property is
    missing or does not parse. *)
Definition anglesOf (angleValue : option string) : vec3 :=
  match angleValue with
  | Some v => match parse_vec3 v with Some a => a | None => vec_zero end
  | None => vec_zero
  end.

(** [EntityRotationPolicy::getRotation] *)
Definition getRotation (entity : Entity) : mat4x4 :=
  let info := rotationInfo entity in
  match info_type info with
  | RotationType_Angle =>
      match property entity (info_propertyKey info) with
      | None => mat_identity
      | Some angleValue =>
          if String.eqb angleValue EmptyString then mat_identity
          else rotation_matrix_axis pos_z (to_radians (atof angleValue))
      end
  | RotationType_AngleUpDown =>
      match property entity (info_propertyKey info) with
      | None => mat_identity
      | Some angleValue =>
          if String.eqb angleValue EmptyString then mat_identity
          else
            let angle := atof angleValue in
            if PrimFloat.eqb angle (-1)%float then rot_90_y_cw
            else if PrimFloat.eqb angle (-2)%float then rot_90_y_ccw
            else rotation_matrix_axis pos_z (to_radians angle)
      end
  | RotationType_Euler =>
      let angles := anglesOf (property entity (info_propertyKey info)) in
      let roll := to_radians (vz angles) in
      let pitch := PrimFloat.opp (to_radians (vx angles)) in
      let yaw := to_radians (vy angles) in
      rotation_matrix_angles roll pitch yaw
  | RotationType_Euler_PositivePitchDown =>
      let angles := anglesOf (property entity (info_propertyKey info)) in
      let roll := to_radians (vz angles) in
      let pitch := to_radians (vx angles) in
      let yaw := to_radians (vy angles) in
      rotation_matrix_angles roll pitch yaw
  | RotationType_Mangle =>
      let angles := anglesOf (property entity (info_propertyKey info)) in
      let roll := to_radians (vz angles) in
      let pitch := PrimFloat.opp (to_radians (vy angles)) in
      let yaw := to_radians (vx angles) in
      rotation_matrix_angles roll pitch yaw
  | RotationType_None => mat_identity
  end.

(** [EntityRotationPolicy::getAngle] *)
Definition getAngle (direction : vec3) : FloatType :=
  let flat := normalize (mkVec3 (vx direction) (vy direction) 0%float) in
  let angle := round (to_degrees (acos (vx flat))) in
  let angle' := if PrimFloat.ltb (vy flat) 0%float then PrimFloat.sub 360%float angle else angle in
  normalize_degrees angle'.

(** [EntityRotationPolicy::setAngle] *)
Definition setAngle (entity : Entity) (propertyConfig : Config) (propertyKey : string)
    (direction : vec3) : Entity :=
  let angle := getAngle direction in
  addOrUpdateProperty propertyConfig propertyKey (float_to_string (round angle)) entity.

(** [EntityRotationPolicy::getYawPitchRoll] *)
Definition getYawPitchRoll (transformation rotation : mat4x4) : vec3 :=
  let M := mat_mul (strip_translation transformation) (strip_translation rotation) in
  let newPosX := normalize (mat_apply M pos_x) in
  let newPosY := normalize (cross (mat_apply M pos_z) newPosX) in
  let newPosZ := normalize (cross newPosX newPosY) in
  let rotMat := mat_from_rows newPosX newPosY newPosZ in
  let rollPitchYaw := rotation_matrix_to_euler_angles rotMat in
  mkVec3 (to_degrees (vz rollPitchYaw)) (to_degrees (vy rollPitchYaw))
         (to_degrees (vx rollPitchYaw)).

(** [EntityRotationPolicy::applyRotation], with the entity it leaves; the
    literals 0.9 and -0.9 are the nearest binary64 values, as in C++. *)
#[warnings="-inexact-float"]
Definition applyRotation (entity : Entity) (propertyConfig : Config)
    (transformation : mat4x4) : Entity :=
  let info := rotationInfo entity in
  match info_usage info with
  | BlockRotation => entity
  | Allowed =>
      let rotation := getRotation entity in
      match info_type info with
      | RotationType_Angle =>
          let direction := normalize (mat_apply (mat_mul transformation rotation) pos_x) in
          setAngle entity propertyConfig (info_propertyKey info) direction
      | RotationType_AngleUpDown =>
          let direction := normalize (mat_apply (mat_mul transformation rotation) pos_x) in
          if PrimFloat.ltb 0.9%float (vz direction) then
            addOrUpdateProperty propertyConfig (info_propertyKey info) "1.0" entity
          else if PrimFloat.ltb (vz direction) (-0.9)%float then
            addOrUpdateProperty propertyConfig (info_propertyKey info) "-1.0" entity
          else
            setAngle entity propertyConfig (info_propertyKey info) direction
      | RotationType_Euler =>
          let yawPitchRoll := getYawPitchRoll transformation rotation in
          let nPitchYawRoll :=
            mkVec3 (PrimFloat.opp (vy yawPitchRoll)) (vx yawPitchRoll) (vz yawPitchRoll) in
          addOrUpdateProperty propertyConfig (info_propertyKey info)
            (vec_to_string (round_vec nPitchYawRoll)) entity
      | RotationType_Euler_PositivePitchDown =>
          let yawPitchRoll := getYawPitchRoll transformation rotation in
          let nPitchYawRoll :=
            mkVec3 (vy yawPitchRoll) (vx yawPitchRoll) (vz yawPitchRoll) in
          addOrUpdateProperty propertyConfig (info_propertyKey info)
            (vec_to_string (round_vec nPitchYawRoll)) entity
      | RotationType_Mangle =>
          let yawPitchRoll := getYawPitchRoll transformation rotation in
          let yawNPitchRoll :=
            mkVec3 (vx yawPitchRoll) (PrimFloat.opp (vy yawPitchRoll)) (vz yawPitchRoll) in
          addOrUpdateProperty propertyConfig (info_propertyKey info)
            (vec_to_string (round_vec yawNPitchRoll)) entity
      | RotationType_None => entity
      end
  end.

End Policy.

(** ** Facts about the rotation policy *)

Section PolicyFacts.
Context {Entity Config : Type} `{EntityInterface Entity Config} `{Vecmath}.

(** The questions [rotationInfo] asks of an entity. *)
Definition isNamed (e : Entity) : bool := negb (String.eqb (classname e) NoClassname).
Definition isLight (e : Entity) : bool := String.prefix "light" (classname e).
Definition invertedPitch (e : Entity) : bool :=
  match model_pitchType e with
  | Some PitchType_MdlInverted => true
  | _ => false
  end.

Ltac split_info :=
  unfold rotationInfo, isNamed, isLight, invertedPitch in *;
  destruct (model_pitchType _) as [[|]|];
  repeat match goal with
         | |- context [if ?b then _ else _] => destruct b eqn:?
         end; simpl in *;
  rewrite ?negb_true_iff, ?negb_false_iff in *.

(** X18.  The property key that [rotationInfo] reports follows from the
    type it reports: none for no rotation, [angle] for the two angle types,
    [mangle] for the mangle type, [angles] or [mangle] for the two Euler
    types; and the Euler type with inverted pitch is reported exactly for
    entities whose model has inverted pitch. *)
Theorem rotationInfo_key_follows_type (e : Entity) :
  match info_type (rotationInfo e) with
  | RotationType_None =>
      info_propertyKey (rotationInfo e) = EmptyString /\ info_usage (rotationInfo e) = Allowed
  | RotationType_Angle =>
      info_propertyKey (rotationInfo e) = key_Angle /\ info_usage (rotationInfo e) = Allowed
  | RotationType_AngleUpDown => info_propertyKey (rotationInfo e) = key_Angle
  | RotationType_Mangle =>
      info_propertyKey (rotationInfo e) = key_Mangle /\ info_usage (rotationInfo e) = Allowed
  | RotationType_Euler =>
      (info_propertyKey (rotationInfo e) = key_Angles \/
       info_propertyKey (rotationInfo e) = key_Mangle) /\ invertedPitch e = true
  | RotationType_Euler_PositivePitchDown =>
      (info_propertyKey (rotationInfo e) = key_Angles \/
       info_propertyKey (rotationInfo e) = key_Mangle) /\ invertedPitch e = false
  end.
Proof. split_info; auto. Qed.

(** X19.  [rotationInfo] blocks the rotation exactly for a named entity
    that is no light, is a point entity, and whose definition bounds are
    not centred on its origin. *)
Theorem rotation_blocked_iff_off_centre_point_entity (e : Entity) :
  info_usage (rotationInfo e) = BlockRotation <->
  isNamed e = true /\ isLight e = false /\ pointEntity e = true /\ centerIsZero e = false.
Proof.
  split.
  - split_info; intros; try discriminate; auto.
  - intros (Hnamed & Hlight & Hpoint & Hcentre).
    unfold rotationInfo, isNamed, isLight in *.
    rewrite Hnamed, Hlight, Hpoint, Hcentre.
    destruct (model_pitchType e) as [[|]|]; simpl;
      destruct (hasProperty e key_Angles); try reflexivity;
      destruct (hasProperty e key_Mangle); reflexivity.
Qed.

(** X20.  [rotationInfo] reports no rotation exactly for an entity without
    class name, for a light that has a target and no mangle, and for a
    brush entity that is no light and has none of the properties angles,
    mangle and angle.  For such an entity [getRotation] is the identity and
    [applyRotation] leaves the entity as it is. *)
Theorem entities_without_rotation (e : Entity) (cfg : Config) (t : mat4x4) :
  (info_type (rotationInfo e) = RotationType_None <->
   isNamed e = false \/
   (isNamed e = true /\ isLight e = true /\
    hasProperty e key_Mangle = false /\ hasProperty e key_Target = true) \/
   (isNamed e = true /\ isLight e = false /\ pointEntity e = false /\
    hasProperty e key_Angles = false /\ hasProperty e key_Mangle = false /\
    hasProperty e key_Angle = false)) /\
  (info_type (rotationInfo e) = RotationType_None ->
   getRotation e = mat_identity /\ applyRotation e cfg t = e).
Proof.
  split; [split|].
  - split_info; intros; try discriminate; auto 10.
  - unfold rotationInfo, isNamed, isLight.
    intros [Hn|[(Hn & Hl & Hm & Ht)|(Hn & Hl & Hp & Has & Hm & Ha)]].
    + now rewrite Hn.
    + now rewrite Hn, Hl, Hm, Ht.
    + now rewrite Hn, Hl, Hp, Has, Hm, Ha.
  - intros Hnone. unfold getRotation, applyRotation. rewrite Hnone.
    split; [reflexivity|]. now destruct (info_usage (rotationInfo e)).
Qed.

(** X21.  [applyRotation] changes the entity through one call of
    [addOrUpdateProperty] at most, and that call writes the property whose
    key [getPropertyKey] reports; an entity whose rotation is blocked is
    left as it is. *)
Theorem applyRotation_writes_the_rotation_property (e : Entity) (cfg : Config) (t : mat4x4) :
  (applyRotation e cfg t = e \/
   exists value, applyRotation e cfg t = addOrUpdateProperty cfg (getPropertyKey e) value e) /\
  (info_usage (rotationInfo e) = BlockRotation -> applyRotation e cfg t = e).
Proof.
  unfold applyRotation, getPropertyKey, setAngle. split.
  - destruct (info_usage (rotationInfo e)); [|now left].
    destruct (info_type (rotationInfo e)); try (now left); try (right; eauto; fail).
    right. destruct (PrimFloat.ltb _ _); [eauto|]. destruct (PrimFloat.ltb _ _); eauto.
  - now intros ->.
Qed.

(** X22.  For the two angle types [getRotation] is the identity when the
    angle property is missing or empty; for the up-down type the values -1
    and -2 stand for the two quarter turns about the y axis, and any other
    value, like every value of the plain angle type, for a turn about the
    z axis by that many degrees. *)
Theorem getRotation_of_angle_property (e : Entity) :
  (info_type (rotationInfo e) = RotationType_Angle \/
   info_type (rotationInfo e) = RotationType_AngleUpDown ->
   property e (getPropertyKey e) = None \/ property e (getPropertyKey e) = Some EmptyString ->
   getRotation e = mat_identity) /\
  (forall value,
     property e (getPropertyKey e) = Some value -> value <> EmptyString ->
     (info_type (rotationInfo e) = RotationType_Angle ->
      getRotation e = rotation_matrix_axis pos_z (to_radians (atof value))) /\
     (info_type (rotationInfo e) = RotationType_AngleUpDown ->
      getRotation e =
        if PrimFloat.eqb (atof value) (-1)%float then rot_90_y_cw
        else if PrimFloat.eqb (atof value) (-2)%float then rot_90_y_ccw
        else rotation_matrix_axis pos_z (to_radians (atof value)))).
Proof.
  unfold getRotation, getPropertyKey. split.
  - intros [-> | ->] [-> | ->]; reflexivity.
  - intros value -> Hne.
    assert (Hneq : String.eqb value EmptyString = false).
    { now apply String.eqb_neq. }
    split; intros ->; now rewrite Hneq.
Qed.

End PolicyFacts.

(** ** The policy on sample entities *)

(** An entity as a list of properties with what its definition and model
    say; its class name is the property [classname], or [undefined]. *)
Record SampleEntity : Type := mkSampleEntity {
  se_properties : list (string * string);
  se_point : bool;
  se_pitch : option PitchType;
  se_centred : bool
}.

Fixpoint assoc (key : string) (ps : list (string * string)) : option string :=
  match ps with
  | [] => None
  | (k, v) :: rest => if String.eqb k key then Some v else assoc key rest
  end.

Fixpoint assoc_set (key value : string) (ps : list (string * string))
    : list (string * string) :=
  match ps with
  | [] => [(key, value)]
  | (k, v) :: rest =>
      if String.eqb k key then (k, value) :: rest else (k, v) :: assoc_set key value rest
  end.

#[local] Instance sampleEntities : EntityInterface SampleEntity unit := {|
  classname := fun e =>
    match assoc "classname" (se_properties e) with Some c => c | None => "undefined"%string end;
  hasProperty := fun e key =>
    match assoc key (se_properties e) with Some _ => true | None => false end;
  property := fun e key => assoc key (se_properties e);
  pointEntity := se_point;
  model_pitchType := se_pitch;
  centerIsZero := se_centred;
  addOrUpdateProperty := fun _ key value e =>
    mkSampleEntity (assoc_set key value (se_properties e)) (se_point e) (se_pitch e)
                   (se_centred e);
  NoClassname := "undefined";
  key_Mangle := "mangle";
  key_Target := "target";
  key_Angles := "angles";
  key_Angle := "angle"
|}.

(** Matrices are told apart by a name in their first entry; the numeric
    routines are stand-ins. *)
#[local] Instance sampleVecmath : Vecmath := {|
  mat_identity := mkMat4x4 [0%float];
  rot_90_y_cw := mkMat4x4 [1%float];
  rot_90_y_ccw := mkMat4x4 [2%float];
  rotation_matrix_axis := fun _ a => mkMat4x4 [3%float; a];
  rotation_matrix_angles := fun r p y => mkMat4x4 [4%float; r; p; y];
  mat_from_rows := fun a b c => mkMat4x4 [5%float; vx a; vy b; vz c];
  rotation_matrix_to_euler_angles := fun _ => origin3;
  strip_translation := fun m => m;
  mat_mul := fun a _ => a;
  mat_apply := fun _ v => v;
  pos_x := mkVec3 1%float 0%float 0%float;
  pos_z := mkVec3 0%float 0%float 1%float;
  vec_zero := origin3;
  normalize := fun v => v;
  cross := fun a _ => a;
  round_vec := fun v => v;
  round := fun a => a;
  to_radians := fun a => a;
  to_degrees := fun a => a;
  normalize_degrees := fun a => a;
  acos := fun a => a;
  atof := fun s =>
    if String.eqb s "-1" then (-1)%float
    else if String.eqb s "-2" then (-2)%float else 0%float;
  parse_vec3 := fun _ => None;
  vec_to_string := fun _ => "0 0 0"%string;
  float_to_string := fun _ => "0"%string
|}.

Definition spotlight : SampleEntity :=
  mkSampleEntity [("classname", "light_spot"); ("target", "t1"); ("mangle", "0 90 0");
                  ("angles", "0 0 0")]%string true None true.

Definition targetedLight : SampleEntity :=
  mkSampleEntity [("classname", "light"); ("target", "t1"); ("angle", "90")]%string
                 true None true.

Definition offCentreMonster : SampleEntity :=
  mkSampleEntity [("classname", "monster_ogre"); ("angle", "-1")]%string true None false.

Definition door : SampleEntity :=
  mkSampleEntity [("classname", "func_door"); ("angle", "-2")]%string false None true.

Example spotlight_rotates_by_mangle :
  rotationInfo spotlight = mkRotationInfo RotationType_Mangle "mangle" Allowed.
Proof. reflexivity. Qed.

Example targeted_light_is_left_alone :
  rotationInfo targetedLight = mkRotationInfo RotationType_None EmptyString Allowed /\
  applyRotation targetedLight tt (mkMat4x4 []) = targetedLight.
Proof. split; reflexivity. Qed.

Example off_centre_monster_is_blocked :
  rotationInfo offCentreMonster = mkRotationInfo RotationType_AngleUpDown "angle" BlockRotation /\
  getRotation offCentreMonster = rot_90_y_cw /\
  applyRotation offCentreMonster tt (mkMat4x4 []) = offCentreMonster.
Proof. repeat split; reflexivity. Qed.

Example door_angle_is_rewritten :
  getRotation door = rot_90_y_ccw /\
  se_properties (applyRotation door tt (mkMat4x4 []))
  = [("classname", "func_door"); ("angle", "0")]%string.
Proof. split; reflexivity. Qed.

End EntityRotationPolicy.
